(** * Conflict analysis of the CDCL kernel ([analyze.cpp])

    A shallow embedding of [Internal::analyze] and of the functions it is
    built from, together with the properties of the first-UIP clause, of
    the VMTF queue and of the two recency stamps.

    Conventions of the embedding.
    - A literal is a non-zero [int], here a [Z]; its variable index is its
      absolute value ([vidx]), so [var lit] is [vtab[|lit|]].
    - A [Var *] is the index of the record in [vtab], a [Clause *] the index
      of the clause in the arena [clauses]; a null pointer is [None].
    - Reading outside an array, dereferencing a null pointer or stepping an
      iterator before [begin ()] is undefined in the source; the embedding
      returns [None] there.
    - [assert], [LOG], [VRB], [START] and [STOP] do not change the state of
      a release build and are left out; each [assert] is kept as a comment
      at its place.
    - [int] and [long] counters are unbounded integers: they count
      literals, variables and conflicts and stay far below the word size.
    - [double] is IEEE binary64, the primitive [float]. *)

From Stdlib Require Import ZArith Lia Floats.
From stdpp Require Import base tactics option list numbers sorting.

Set Warnings "-inexact-float".
Set Default Proof Using "Type".
Local Open Scope Z_scope.

(** ** Data model *)

Module Var.
(** [struct Var]: one record per variable. *)
Record t := mk {
  level : Z;              (* decision level of the assignment *)
  trail : Z;              (* position on the trail *)
  reason : option nat;    (* [Clause * reason], null for decisions *)
  seen : bool;            (* marked by the running analysis *)
  score : float;          (* activity *)
  bumped : Z;             (* time stamp of the last bump *)
  prev : option nat;      (* [Var * prev] in the VMTF queue *)
  next : option nat       (* [Var * next] in the VMTF queue *)
}.

Definition set_seen (b : bool) (v : t) : t :=
  mk (level v) (trail v) (reason v) b (score v) (bumped v) (prev v) (next v).
Definition set_score (x : float) (v : t) : t :=
  mk (level v) (trail v) (reason v) (seen v) x (bumped v) (prev v) (next v).
Definition set_bumped (b : Z) (v : t) : t :=
  mk (level v) (trail v) (reason v) (seen v) (score v) b (prev v) (next v).
Definition set_prev (p : option nat) (v : t) : t :=
  mk (level v) (trail v) (reason v) (seen v) (score v) (bumped v) p (next v).
Definition set_next (n : option nat) (v : t) : t :=
  mk (level v) (trail v) (reason v) (seen v) (score v) (bumped v) (prev v) n.
End Var.

Module Level.
(** [struct Level]: the entry [control[l]] of decision level [l]. *)
Record t := mk {
  seen : Z;     (* number of analyzed literals of this level *)
  trail : Z     (* smallest trail position of such a literal *)
}.
End Level.

Module Clause.
(** [struct Clause], as far as the analysis reads or writes it. *)
Record t := mk {
  redundant : bool;
  extended : bool;
  size : Z;
  glue : Z;
  resolved : Z;           (* the stamp behind [c->resolved ()] *)
  literals : list Z
}.

Definition set_resolved (r : Z) (c : t) : t :=
  mk (redundant c) (extended c) (size c) (glue c) r (literals c).
End Clause.

Module Queue.
(** [struct Queue]: ends of the doubly linked VMTF list and the cached
    [assigned] pointer.  [last] is the end at which [enqueue] links a
    variable, the end of the most recently bumped variable. *)
Record t := mk {
  first : option nat;
  last : option nat;
  assigned : option nat
}.

Definition set_first (x : option nat) (q : t) : t := mk x (last q) (assigned q).
Definition set_last (x : option nat) (q : t) : t := mk (first q) x (assigned q).
Definition set_assigned (x : option nat) (q : t) : t := mk (first q) (last q) x.
End Queue.

Module Stats.
Record t := mk {
  fixed : Z;
  rescored : Z;
  bumped : Z;
  resolved : Z;
  units : Z;
  binaries : Z
}.

Definition set_fixed (x : Z) (st : t) : t :=
  mk x (rescored st) (bumped st) (resolved st) (units st) (binaries st).
Definition set_rescored (x : Z) (st : t) : t :=
  mk (fixed st) x (bumped st) (resolved st) (units st) (binaries st).
Definition set_bumped (x : Z) (st : t) : t :=
  mk (fixed st) (rescored st) x (resolved st) (units st) (binaries st).
Definition set_resolved (x : Z) (st : t) : t :=
  mk (fixed st) (rescored st) (bumped st) x (units st) (binaries st).
Definition set_units (x : Z) (st : t) : t :=
  mk (fixed st) (rescored st) (bumped st) (resolved st) x (binaries st).
Definition set_binaries (x : Z) (st : t) : t :=
  mk (fixed st) (rescored st) (bumped st) (resolved st) (units st) x.
End Stats.

Module Opts.
Record t := mk {
  bumpsort : Z;
  decay : float;
  keepsize : Z;
  keepglue : Z;
  minimize : bool
}.
End Opts.

(** [class Internal], restricted to the members [analyze.cpp] touches. *)
Record Internal := mkInternal {
  unsat : bool;
  iterating : bool;
  level : Z;
  max_var : Z;
  vtab : list Var.t;           (* [vtab[0]] is not a variable *)
  vals : list Z;               (* [vals[idx]]: 0 when unassigned *)
  control : list Level.t;
  trail : list Z;
  clause : list Z;             (* literals of the clause being learned *)
  seen : list Z;               (* literals marked seen *)
  levels : list Z;             (* decision levels met by the analysis *)
  resolved : list nat;         (* clauses to be stamped *)
  conflict : option nat;
  clauses : list Clause.t;     (* the arena [Clause *] points into *)
  queue : Queue.t;
  scinc : float;
  stats : Stats.t;
  opts : Opts.t;
  proof : bool                 (* is a proof tracer connected? *)
}.

Definition set_unsat (x : bool) (s : Internal) : Internal :=
  mkInternal x (iterating s) (level s) (max_var s) (vtab s) (vals s)
    (control s) (trail s) (clause s) (seen s) (levels s) (resolved s)
    (conflict s) (clauses s) (queue s) (scinc s) (stats s) (opts s) (proof s).
Definition set_iterating (x : bool) (s : Internal) : Internal :=
  mkInternal (unsat s) x (level s) (max_var s) (vtab s) (vals s)
    (control s) (trail s) (clause s) (seen s) (levels s) (resolved s)
    (conflict s) (clauses s) (queue s) (scinc s) (stats s) (opts s) (proof s).
Definition set_vtab (x : list Var.t) (s : Internal) : Internal :=
  mkInternal (unsat s) (iterating s) (level s) (max_var s) x (vals s)
    (control s) (trail s) (clause s) (seen s) (levels s) (resolved s)
    (conflict s) (clauses s) (queue s) (scinc s) (stats s) (opts s) (proof s).
Definition set_control (x : list Level.t) (s : Internal) : Internal :=
  mkInternal (unsat s) (iterating s) (level s) (max_var s) (vtab s) (vals s)
    x (trail s) (clause s) (seen s) (levels s) (resolved s)
    (conflict s) (clauses s) (queue s) (scinc s) (stats s) (opts s) (proof s).
Definition set_clause (x : list Z) (s : Internal) : Internal :=
  mkInternal (unsat s) (iterating s) (level s) (max_var s) (vtab s) (vals s)
    (control s) (trail s) x (seen s) (levels s) (resolved s)
    (conflict s) (clauses s) (queue s) (scinc s) (stats s) (opts s) (proof s).
Definition set_seen (x : list Z) (s : Internal) : Internal :=
  mkInternal (unsat s) (iterating s) (level s) (max_var s) (vtab s) (vals s)
    (control s) (trail s) (clause s) x (levels s) (resolved s)
    (conflict s) (clauses s) (queue s) (scinc s) (stats s) (opts s) (proof s).
Definition set_levels (x : list Z) (s : Internal) : Internal :=
  mkInternal (unsat s) (iterating s) (level s) (max_var s) (vtab s) (vals s)
    (control s) (trail s) (clause s) (seen s) x (resolved s)
    (conflict s) (clauses s) (queue s) (scinc s) (stats s) (opts s) (proof s).
Definition set_resolved (x : list nat) (s : Internal) : Internal :=
  mkInternal (unsat s) (iterating s) (level s) (max_var s) (vtab s) (vals s)
    (control s) (trail s) (clause s) (seen s) (levels s) x
    (conflict s) (clauses s) (queue s) (scinc s) (stats s) (opts s) (proof s).
Definition set_conflict (x : option nat) (s : Internal) : Internal :=
  mkInternal (unsat s) (iterating s) (level s) (max_var s) (vtab s) (vals s)
    (control s) (trail s) (clause s) (seen s) (levels s) (resolved s)
    x (clauses s) (queue s) (scinc s) (stats s) (opts s) (proof s).
Definition set_clauses (x : list Clause.t) (s : Internal) : Internal :=
  mkInternal (unsat s) (iterating s) (level s) (max_var s) (vtab s) (vals s)
    (control s) (trail s) (clause s) (seen s) (levels s) (resolved s)
    (conflict s) x (queue s) (scinc s) (stats s) (opts s) (proof s).
Definition set_queue (x : Queue.t) (s : Internal) : Internal :=
  mkInternal (unsat s) (iterating s) (level s) (max_var s) (vtab s) (vals s)
    (control s) (trail s) (clause s) (seen s) (levels s) (resolved s)
    (conflict s) (clauses s) x (scinc s) (stats s) (opts s) (proof s).
Definition set_scinc (x : float) (s : Internal) : Internal :=
  mkInternal (unsat s) (iterating s) (level s) (max_var s) (vtab s) (vals s)
    (control s) (trail s) (clause s) (seen s) (levels s) (resolved s)
    (conflict s) (clauses s) (queue s) x (stats s) (opts s) (proof s).
Definition set_stats (x : Stats.t) (s : Internal) : Internal :=
  mkInternal (unsat s) (iterating s) (level s) (max_var s) (vtab s) (vals s)
    (control s) (trail s) (clause s) (seen s) (levels s) (resolved s)
    (conflict s) (clauses s) (queue s) (scinc s) x (opts s) (proof s).

(** Calls that leave the kernel: the proof tracer, the moving averages
    behind [UPDATE_AVG], and the trail manager, clause database and
    minimizer.  [analyze] reports them in the order it makes them. *)
Inductive Avg := fast_glue_avg | slow_glue_avg | jump_avg.

Inductive Event :=
  | trace_empty_clause
  | trace_unit_clause (lit : Z)
  | update_avg (a : Avg) (y : Z)
  | call_minimize_clause
  | call_new_learned_clause (lits : list Z) (glue : Z)
  | call_backtrack (jump : Z)
  | call_assign (lit : Z) (reason : option nat).

(** ** Access to variables, levels and clauses *)

(** [vidx (lit)]: the index of the variable of a literal. *)
Definition vidx (lit : Z) : nat := Z.abs_nat lit.

(** [var (lit)]: [vtab[vidx (lit)]]. *)
Definition var (s : Internal) (lit : Z) : option Var.t := vtab s !! vidx lit.

(** [control[l]] for an [int] level. *)
Definition control_at (s : Internal) (l : Z) : option Level.t :=
  if l <? 0 then None else control s !! Z.to_nat l.

(** The object a [Clause *] points to. *)
Definition deref (s : Internal) (c : nat) : option Clause.t := clauses s !! c.

(** ** [analyze_literal] *)

(** [Internal::analyze_literal (int lit)]. *)
Definition analyze_literal (lit : Z) (s : Internal) : option (bool * Internal) :=
  v ← var s lit;
  if Var.seen v then Some (false, s)
  else if Var.level v =? 0 then Some (false, s)
  else
    (* assert (val (lit) < 0); *)
    let s := if Var.level v <? level s
             then set_clause (clause s ++ [lit]) s else s in
    l ← control_at s (Var.level v);
    let s := if Level.seen l =? 0
             then set_levels (levels s ++ [Var.level v]) s else s in
    let l := Level.mk (Level.seen l + 1)
               (if Var.trail v <? Level.trail l then Var.trail v
                else Level.trail l) in
    let s := set_control (<[Z.to_nat (Var.level v) := l]> (control s)) s in
    let s := set_vtab (<[vidx lit := Var.set_seen true v]> (vtab s)) s in
    let s := set_seen (seen s ++ [lit]) s in
    Some (Var.level v =? level s, s).

(** ** [resolve_clause] and [bump_resolved_clauses] *)

(** [Internal::resolve_clause (Clause * c)]. *)
Definition resolve_clause (c : nat) (s : Internal) : option Internal :=
  cl ← deref s c;
  if negb (Clause.redundant cl) then Some s
  else if Clause.size cl <=? Opts.keepsize (opts s) then Some s
  else if Clause.glue cl <=? Opts.keepglue (opts s) then Some s
  else (* assert (c->extended); *)
    Some (set_resolved (resolved s ++ [c]) s).

(** [std::sort] with a strict comparator [lt], as insertion sort: among the
    results the library may produce, the one that keeps equal elements in
    their order. *)
Fixpoint insert_sorted {A : Type} (lt : A → A → bool) (x : A) (l : list A) : list A :=
  match l with
  | [] => [x]
  | y :: l' => if lt y x then y :: insert_sorted lt x l' else x :: l
  end.

Definition sort {A : Type} (lt : A → A → bool) (l : list A) : list A :=
  foldr (insert_sorted lt) [] l.

(** Sorting a vector of literals or pointers by a key read from the state;
    reading the key of any element may fail. *)
Definition sort_by {A K : Type} (lt : K → K → bool) (key : A → option K)
    (l : list A) : option (list A) :=
  keyed ← mapM (λ x, k ← key x; Some (k, x)) l;
  Some ((sort (λ a b, lt a.1 b.1) keyed).*2).

(** Modelled from the spec: the comparator [resolved_earlier] of
    clause.hpp is not part of the sources at hand; the specification has
    the list sorted by existing time stamp, ascending. *)
Definition resolved_earlier (a b : Z) : bool := a <? b.

(** The loop of [bump_resolved_clauses]: every clause of the vector gets
    [++stats.resolved] as its [resolved ()] stamp. *)
Fixpoint stamp_resolved (cs : list nat) (s : Internal) : option Internal :=
  match cs with
  | [] => Some s
  | c :: cs =>
      cl ← deref s c;
      let n := Stats.resolved (stats s) + 1 in
      let s := set_stats (Stats.set_resolved n (stats s)) s in
      let s := set_clauses (<[c := Clause.set_resolved n cl]> (clauses s)) s in
      stamp_resolved cs s
  end.

(** [Internal::bump_resolved_clauses ()]. *)
Definition bump_resolved_clauses (s : Internal) : option Internal :=
  sorted ← sort_by resolved_earlier
              (λ c, cl ← deref s c; Some (Clause.resolved cl)) (resolved s);
  s ← stamp_resolved sorted (set_resolved sorted s);
  Some (set_resolved [] s).

(** ** The first-UIP clause *)

(** The inner loop of [analyze] over the literals of [reason], which adds
    one to [open] for each call of [analyze_literal] that returns true.
    [Clause.literals] is the array between [begin ()] and [end ()]. *)
Fixpoint analyze_literals (lits : list Z) (open : Z) (s : Internal)
    : option (Z * Internal) :=
  match lits with
  | [] => Some (open, s)
  | lit :: lits =>
      '(b, s) ← analyze_literal lit s;
      analyze_literals lits (if (b : bool) then open + 1 else open) s
  end.

(** [while (!var (uip = *--i).seen);] with the iterator [i] as an index
    into the trail: the literal found and the new index. *)
Fixpoint previous_seen (s : Internal) (i : nat) : option (Z * nat) :=
  match i with
  | O => None
  | S i =>
      uip ← trail s !! i;
      v ← var s uip;
      if Var.seen v then Some (uip, i) else previous_seen s i
  end.

(** The [for (;;)] loop of [analyze].  Every round moves [i] at least one
    step towards the start of the trail, so [i + 1] rounds are the most
    the loop can make; [fuel] counts them. *)
Fixpoint resolve_loop (fuel : nat) (reason : option nat) (open : Z) (i : nat)
    (s : Internal) : option (Z * Internal) :=
  match fuel with
  | O => None
  | S fuel =>
      r ← reason;
      c ← deref s r;
      '(open, s) ← analyze_literals (Clause.literals c) open s;
      '(uip, i) ← previous_seen s i;
      let open := open - 1 in
      if open =? 0 then Some (uip, s)
      else
        v ← var s uip;
        resolve_loop fuel (Var.reason v) open i s
  end.

(** Lines 215 to 233 of [analyze]: from [Clause * reason = conflict] to
    [clause.push_back (-uip)].  Returns the first UIP. *)
Definition first_uip_clause (s : Internal) : option (Z * Internal) :=
  reason ← conflict s;
  s ← resolve_clause reason s;
  '(uip, s) ← resolve_loop (S (length (trail s))) (Some reason) 0
                 (length (trail s)) s;
  Some (uip, set_clause (clause s ++ [- uip]) s).

(** ** Scores and the VMTF queue *)

(** One step [v->score /= scinc] of the loop of [rescore]. *)
Definition rescore_var (d : float) (idx : nat) (vt : list Var.t)
    : option (list Var.t) :=
  v ← vt !! idx;
  Some (<[idx := Var.set_score (Var.score v / d)%float v]> vt).

(** The loop of [rescore] over [n] records from [vtab + idx] on. *)
Fixpoint rescore_from (d : float) (idx n : nat) (vt : list Var.t)
    : option (list Var.t) :=
  match n with
  | O => Some vt
  | S n => vt ← rescore_var d idx vt; rescore_from d (S idx) n vt
  end.

(** [Internal::rescore ()]. *)
Definition rescore (s : Internal) : option Internal :=
  let s := set_stats (Stats.set_rescored (Stats.rescored (stats s) + 1)
                        (stats s)) s in
  vt ← rescore_from (scinc s) 1 (Z.to_nat (max_var s)) (vtab s);
  Some (set_scinc 1%float (set_vtab vt s)).

(** A write through a [Var *]. *)
Definition update_var (idx : nat) (f : Var.t → Var.t) (s : Internal)
    : option Internal :=
  v ← vtab s !! idx;
  Some (set_vtab (<[idx := f v]> (vtab s)) s).

(** Modelled from the spec: [Queue::dequeue] of queue.hpp is not part of
    the sources at hand; the specification has [bump_variable] unlink the
    variable from the doubly linked queue.  The neighbours are joined, and
    an end of the queue that was the variable moves to its neighbour. *)
Definition dequeue (idx : nat) (s : Internal) : option Internal :=
  v ← vtab s !! idx;
  s ← match Var.prev v with
      | Some p => update_var p (Var.set_next (Var.next v)) s
      | None => Some (set_queue (Queue.set_first (Var.next v) (queue s)) s)
      end;
  v ← vtab s !! idx;
  match Var.next v with
  | Some n => update_var n (Var.set_prev (Var.prev v)) s
  | None => Some (set_queue (Queue.set_last (Var.prev v) (queue s)) s)
  end.

(** Modelled from the spec: [Queue::enqueue] of queue.hpp is not part of
    the sources at hand; the specification has [bump_variable] relink the
    variable at the front of the queue, the end of the most recently
    bumped variable.  That end is [Queue.last], where a variable has no
    [next]. *)
Definition enqueue (idx : nat) (s : Internal) : option Internal :=
  let l := Queue.last (queue s) in
  s ← update_var idx (Var.set_prev l) s;
  s ← match l with
      | Some l => update_var l (Var.set_next (Some idx)) s
      | None => Some (set_queue (Queue.set_first (Some idx) (queue s)) s)
      end;
  let s := set_queue (Queue.set_last (Some idx) (queue s)) s in
  update_var idx (Var.set_next None) s.

(** [Internal::bump_variable (Var * v)]; [var2idx (v)] is the index of
    the record. *)
Definition bump_variable (idx : nat) (s : Internal) : option Internal :=
  v ← vtab s !! idx;
  match Var.next v with
  | None => Some s
  | Some _ =>
      let s :=
        if bool_decide (Queue.assigned (queue s) = Some idx)
        then set_queue (Queue.set_assigned
                          (match Var.prev v with
                           | Some p => Some p
                           | None => Var.next v
                           end) (queue s)) s
        else s in
      s ← dequeue idx s;
      s ← enqueue idx s;
      let b := Stats.bumped (stats s) + 1 in
      let s := set_stats (Stats.set_bumped b (stats s)) s in
      s ← update_var idx (Var.set_bumped b) s;
      s ← update_var idx
            (λ v, Var.set_score (Var.score v + scinc s)%float v) s;
      v ← vtab s !! idx;
      s ← (if (1e100 <? Var.score v)%float then rescore s else Some s);
      x ← vals s !! idx;
      Some (if x =? 0
            then set_queue (Queue.set_assigned (Some idx) (queue s)) s
            else s)
  end.

(** The comparators of [sort_seen], as the keys they compare. *)
Definition bumped_earlier (s : Internal) (lit : Z) : option Z :=
  v ← var s lit; Some (Var.bumped v).
Definition trail_smaller (s : Internal) (lit : Z) : option Z :=
  v ← var s lit; Some (Var.trail v).
Definition bumped_plus_trail_smaller (s : Internal) (lit : Z) : option Z :=
  v ← var s lit; Some (Var.bumped v + Var.trail v).
Definition score_smaller (s : Internal) (lit : Z) : option float :=
  v ← var s lit; Some (Var.score v).

(** [Internal::sort_seen ()].  The labels of the last three cases are
    written [case 3;], [case 4;] and [case 5;] in the source; they are
    read as the case labels they stand for. *)
Definition sort_seen (s : Internal) : option Internal :=
  let b := Opts.bumpsort (opts s) in
  if b =? 1 then
    l ← sort_by Z.ltb (bumped_earlier s) (seen s); Some (set_seen l s)
  else if b =? 2 then
    l ← sort_by Z.ltb (trail_smaller s) (seen s); Some (set_seen l s)
  else if b =? 3 then
    l ← sort_by Z.ltb (bumped_plus_trail_smaller s) (seen s);
    Some (set_seen l s)
  else if b =? 4 then
    l ← sort_by PrimFloat.ltb (score_smaller s) (seen s); Some (set_seen l s)
  else if b =? 5 then Some (set_seen (reverse (seen s)) s)
  else Some s.

(** The loop of [bump_and_clear_seen_variables]. *)
Fixpoint bump_seen (lits : list Z) (s : Internal) : option Internal :=
  match lits with
  | [] => Some s
  | lit :: lits =>
      (* assert (v->seen); *)
      s ← update_var (vidx lit) (Var.set_seen false) s;
      s ← bump_variable (vidx lit) s;
      bump_seen lits s
  end.

(** [Internal::bump_and_clear_seen_variables ()]. *)
Definition bump_and_clear_seen_variables (s : Internal) : option Internal :=
  s ← sort_seen s;
  s ← bump_seen (seen s) s;
  let s := set_seen [] s in
  let s := set_scinc (scinc s / Opts.decay (opts s))%float s in
  if (1e100 <? scinc s)%float then rescore s else Some s.

(** ** [analyze] *)

(** [Internal::learn_empty_clause ()]. *)
Definition learn_empty_clause (s : Internal) : Internal * list Event :=
  (* assert (!unsat); *)
  (set_unsat true s, if proof s then [trace_empty_clause] else []).

(** [Internal::learn_unit_clause (int lit)]. *)
Definition learn_unit_clause (lit : Z) (s : Internal) : Internal * list Event :=
  (set_stats (Stats.set_fixed (Stats.fixed (stats s) + 1) (stats s))
     (set_iterating true s),
   if proof s then [trace_unit_clause lit] else []).

(** [trail_greater_than]: the key of the comparator and its order. *)
Definition trail_greater_than (s : Internal) (lit : Z) : option Z :=
  v ← var s lit; Some (Var.trail v).

(** [stats.units += (clause.size () == 1)] and the same for binaries. *)
Definition count_learned (s : Internal) : Internal :=
  let n := length (clause s) in
  let st := stats s in
  let st := Stats.set_units
              (Stats.units st + (if bool_decide (n = 1%nat) then 1 else 0)) st in
  let st := Stats.set_binaries
              (Stats.binaries st + (if bool_decide (n = 2%nat) then 1 else 0)) st in
  set_stats st s.

Section Analyze.

(** The collaborators of the kernel whose code is in other files: the
    clause minimizer, the clause database, the trail manager, and the
    reset of a level record. *)
Context (minimize_clause : Internal → Internal)
        (new_learned_clause : Z → Internal → nat * Internal)
        (backtrack : Z → Internal → Internal)
        (assign : Z → option nat → Internal → Internal)
        (Level_reset : Level.t → Level.t).

(** [Internal::clear_levels ()]. *)
Fixpoint reset_levels (ls : list Z) (s : Internal) : option Internal :=
  match ls with
  | [] => Some s
  | l :: ls =>
      r ← control_at s l;
      reset_levels ls
        (set_control (<[Z.to_nat l := Level_reset r]> (control s)) s)
  end.

Definition clear_levels (s : Internal) : option Internal :=
  s ← reset_levels (levels s) s;
  Some (set_levels [] s).

(** The block of [analyze] that determines the driving clause and the
    back jump level, with the call it makes. *)
Definition driving_clause_and_jump (glue : Z) (s : Internal)
    : option (option nat * Z * Internal * list Event) :=
  if bool_decide (1 < length (clause s))%nat then
    sorted ← sort_by Z.gtb (trail_greater_than s) (clause s);
    let s := set_clause sorted s in
    let ev := [call_new_learned_clause (clause s) glue] in
    let '(c, s) := new_learned_clause glue s in
    lit ← clause s !! 1%nat;
    v ← var s lit;
    Some (Some c, Var.level v, s, ev)
  else Some (None, 0, s, []).

(** Lines 246 to 260 of [analyze]: count the clause, determine the back
    jump level, backtrack and assign the flipped literal. *)
Definition learn_and_backjump (uip glue : Z) (s : Internal)
    : option (Internal * list Event) :=
  let s := count_learned s in
  '(driving_clause, jump, s, ev) ← driving_clause_and_jump glue s;
  let s := backtrack jump s in
  let s := assign (- uip) driving_clause s in
  Some (s, ev ++ [update_avg jump_avg jump; call_backtrack jump;
                  call_assign (- uip) driving_clause]).

(** [Internal::analyze ()]: the final state and the calls made. *)
Definition analyze (s : Internal) : option (Internal * list Event) :=
  (* assert (conflict); *)
  if level s =? 0 then
    let '(s, ev) := learn_empty_clause s in
    Some (set_conflict None s, ev)
  else
    '(uip, s) ← first_uip_clause s;
    (* check_clause (); *)
    s ← bump_resolved_clauses s;
    let glue := Z.of_nat (length (levels s)) in
    let ev1 := [update_avg fast_glue_avg glue;
                update_avg slow_glue_avg glue] in
    let '(s, ev2) :=
      if Opts.minimize (opts s)
      then (minimize_clause s, [call_minimize_clause]) else (s, []) in
    '(s, ev3) ← learn_and_backjump uip glue s;
    s ← bump_and_clear_seen_variables s;
    let s := set_clause [] s in
    s ← clear_levels s;
    Some (set_conflict None s, ev1 ++ ev2 ++ ev3).

End Analyze.

(** ** Sample states *)

Module Sample.

Definition INT_MAX : Z := 2147483647.

Definition fresh_level : Level.t := Level.mk 0 INT_MAX.

Definition default_opts : Opts.t := Opts.mk 0 0.95%float 3 2 true.

Definition zero_stats : Stats.t := Stats.mk 0 0 0 0 0 0.

(** An assigned variable: level, trail position, reason, queue links. *)
Definition assigned_var (l t : Z) (r p n : option nat) : Var.t :=
  Var.mk l t r false 0%float 0 p n.

(** Five variables.  Variable 5 is fixed at the root level; 1, 2 and 3
    are the decisions of levels 1, 2 and 3; 4 is implied at level 3 by
    the learned clause [4 -1 -2 -3], which is long and of high glue.
    The clause [-3 -4 -5] is falsified. *)
Definition vars : list Var.t :=
  [ assigned_var 0 0 None None None;           (* [vtab[0]] *)
    assigned_var 1 1 None None (Some 2%nat);
    assigned_var 2 2 None (Some 1%nat) (Some 3%nat);
    assigned_var 3 3 None (Some 2%nat) (Some 4%nat);
    assigned_var 3 4 (Some 1%nat) (Some 3%nat) (Some 5%nat);
    assigned_var 0 0 None (Some 4%nat) None ].

Definition arena : list Clause.t :=
  [ Clause.mk false false 3 0 0 [-3; -4; -5];
    Clause.mk true true 4 3 0 [4; -1; -2; -3] ].

Definition at_level_3 : Internal :=
  mkInternal false false 3 5 vars [0; 1; 1; 1; 1; 1]
    [fresh_level; fresh_level; fresh_level; fresh_level]
    [5; 1; 2; 3; 4] [] [] [] [] (Some 0%nat) arena
    (Queue.mk (Some 1%nat) (Some 5%nat) (Some 5%nat))
    1%float zero_stats default_opts true.

(** The same formula before any decision: the unit 5 is on the trail
    and the clause [-5] (stored as clause 0) is falsified. *)
Definition at_root : Internal :=
  mkInternal false false 0 5
    [ assigned_var 0 0 None None None;
      Var.mk 0 0 None false 0%float 0 None (Some 2%nat);
      Var.mk 0 0 None false 0%float 0 (Some 1%nat) (Some 3%nat);
      Var.mk 0 0 None false 0%float 0 (Some 2%nat) (Some 4%nat);
      Var.mk 0 0 None false 0%float 0 (Some 3%nat) (Some 5%nat);
      assigned_var 0 0 None (Some 4%nat) None ]
    [0; 0; 0; 0; 0; 1] [fresh_level] [5] [] [] [] [] (Some 0%nat)
    [Clause.mk false false 1 0 0 [-5]]
    (Queue.mk (Some 1%nat) (Some 5%nat) (Some 4%nat))
    1%float zero_stats default_opts true.

(** The root state after many conflicts: variables 1 and 2 have not been
    bumped for a long time, 3 and 4 have scores next to each other, and the
    decay has just taken [scinc] above 1e100. *)
Definition before_rescale : Internal :=
  set_scinc 1.02e100%float
    (set_vtab
       (zip_with Var.set_score
          [0; 1e-250; 2e-250; 1e99; next_up 1e99; 5e99]%float
          (vtab at_root))
       at_root).

(** Modelled from the spec: stand-ins for the collaborators, used to run
    [analyze] on the sample states.  The clause database stores the
    clause buffer as a new learned clause and returns its reference; the
    trail manager and the minimizer are left as the identity, and a level
    record is reset to its initial value. *)
Definition register_learned (glue : Z) (s : Internal) : nat * Internal :=
  (length (clauses s),
   set_clauses (clauses s ++
     [Clause.mk true true (Z.of_nat (length (clause s))) glue 0 (clause s)]) s).
Definition no_minimize (s : Internal) : Internal := s.
Definition no_backtrack (jump : Z) (s : Internal) : Internal := s.
Definition no_assign (lit : Z) (r : option nat) (s : Internal) : Internal := s.
Definition reset_level (l : Level.t) : Level.t := fresh_level.

End Sample.

(** ** Semantics of clauses *)

(** A valuation gives every variable index a truth value. *)
Definition lit_true (M : nat → bool) (lit : Z) : bool :=
  if 0 <? lit then M (vidx lit) else negb (M (vidx lit)).

Definition clause_true (M : nat → bool) (c : list Z) : bool :=
  existsb (lit_true M) c.

Definition model_of (M : nat → bool) (F : list (list Z)) : bool :=
  forallb (clause_true M) F.

(** [F] entails [c]: every model of the formula satisfies the clause. *)
Definition entails (F : list (list Z)) (c : list Z) : Prop :=
  ∀ M, model_of M F = true → clause_true M c = true.

(** ** The state in which propagation reports a conflict *)

(** What the trail manager guarantees when it hands a conflict at a
    decision level above the root to [analyze]. *)
Record conflict_state (s : Internal) : Prop := {
  (* the conflict is not a root conflict *)
  cs_level : 0 < level s;
  (* a literal on the trail is not 0; its variable records the position
     and a level up to the current one, and is not marked seen *)
  cs_trail : ∀ p t, trail s !! p = Some t →
    t ≠ 0 ∧ ∃ v, var s t = Some v ∧ Var.trail v = Z.of_nat p ∧
                 0 ≤ Var.level v ≤ level s ∧ Var.seen v = false;
  (* levels grow along the trail *)
  cs_mono : ∀ p q t u vt vu, (p ≤ q)%nat →
    trail s !! p = Some t → trail s !! q = Some u →
    var s t = Some vt → var s u = Some vu → Var.level vt ≤ Var.level vu;
  (* every level up to the current one has its record *)
  cs_control : ∀ l, 0 ≤ l ≤ level s → is_Some (control_at s l);
  (* no clause is under construction *)
  cs_clause : clause s = [];
  (* the conflicting clause is falsified and has a literal of the current
     level *)
  cs_conflict : ∃ c cl, conflict s = Some c ∧ deref s c = Some cl ∧
    (∀ lit, lit ∈ Clause.literals cl → ∃ p, trail s !! p = Some (- lit)) ∧
    (∃ lit v, lit ∈ Clause.literals cl ∧ var s lit = Some v ∧
              Var.level v = level s);
  (* a trail literal with a reason is implied by it: the other literals of
     the reason are false and were assigned before; a trail literal without
     a reason above the root level is a decision, the first of its level *)
  cs_reason : ∀ p t v, trail s !! p = Some t → var s t = Some v →
    match Var.reason v with
    | Some r => ∃ cl, deref s r = Some cl ∧
        ∀ lit, lit ∈ Clause.literals cl →
          lit = t ∨ ∃ q, (q < p)%nat ∧ trail s !! q = Some (- lit)
    | None => Var.level v = 0 ∨
        ∀ q u vu, (q < p)%nat → trail s !! q = Some u → var s u = Some vu →
          Var.level vu < Var.level v
    end
}.

(** The clauses of the arena and the root-level assignments follow from
    the formula [F]. *)
Record implied_by (F : list (list Z)) (s : Internal) : Prop := {
  ib_clauses : ∀ c cl, deref s c = Some cl → entails F (Clause.literals cl);
  ib_root : ∀ p t v, trail s !! p = Some t → var s t = Some v →
    Var.level v = 0 → entails F [t]
}.

(** The number of trail positions below [i] whose variable is marked seen
    and was assigned at the current decision level: the literals of the
    resolvent that are still to be resolved. *)
Fixpoint open_count (s : Internal) (i : nat) : Z :=
  match i with
  | O => 0
  | S i =>
      open_count s i +
      match trail s !! i with
      | Some t =>
          match var s t with
          | Some v =>
              if Var.seen v && (Var.level v =? level s) then 1 else 0
          | None => 0
          end
      | None => 0
      end
  end.

(** ** Invariants of the resolution loop *)

(** During the analysis of a conflict reported in [s0] the state differs
    from [s0] only in seen marks, level records and transient buffers. *)
Record analysis_frame (s0 s : Internal) : Prop := {
  af_trail : trail s = trail s0;
  af_level : level s = level s0;
  af_clauses : clauses s = clauses s0;
  af_control : length (control s) = length (control s0);
  af_vtab_length : length (vtab s) = length (vtab s0);
  af_vtab : ∀ idx v0, vtab s0 !! idx = Some v0 →
    ∃ b, vtab s !! idx = Some (Var.set_seen b v0)
}.

(** The clause buffer holds the false literal of every seen variable of a
    lower level, and only literals of levels strictly between the root and
    the current level. *)
Record loop_invariant (s0 s : Internal) : Prop := {
  li_frame : analysis_frame s0 s;
  li_lower : ∀ p t v, trail s0 !! p = Some t → var s t = Some v →
    Var.seen v = true → Var.level v < level s0 → (- t) ∈ clause s;
  li_clause : Forall (λ l, ∃ v, var s0 l = Some v ∧
                                0 < Var.level v < level s0) (clause s)
}.

(** A literal of a resolved clause is accounted for: it is false at the
    root level, or it is in the clause buffer, or its variable is marked
    seen at the current level. *)
Definition covered (s0 s : Internal) (lit : Z) : Prop :=
  ∃ v, var s lit = Some v ∧
    (Var.level v = 0 ∨ lit ∈ clause s ∨
     (Var.seen v = true ∧ Var.level v = level s0)).

(** The analysis only adds literals and seen marks. *)
Definition grows (s s' : Internal) : Prop :=
  (∀ l, l ∈ clause s → l ∈ clause s') ∧
  (∀ idx v, vtab s !! idx = Some v → Var.seen v = true →
     ∃ v', vtab s' !! idx = Some v' ∧ Var.seen v' = true).

(** The resolvent the loop has derived when the iterator is at [i]: the
    clause buffer together with the negations of the trail literals below
    [i] that are marked seen at the current level.  It is true under [M]
    when one of its literals is. *)
Definition resolvent_true (M : nat → bool) (s : Internal) (i : nat) : Prop :=
  (∃ l, l ∈ clause s ∧ lit_true M l = true) ∨
  (∃ p t v, (p < i)%nat ∧ trail s !! p = Some t ∧ var s t = Some v ∧
            Var.seen v = true ∧ Var.level v = level s ∧
            lit_true M t = false).

(** ** The VMTF queue as a list *)

(** The records of the variables [q] form a doubly linked segment that is
    entered from [p] and left to [n]. *)
Fixpoint linked (vt : list Var.t) (p : option nat) (q : list nat)
    (n : option nat) : Prop :=
  match q with
  | [] => True
  | x :: q' =>
      ∃ v, vt !! x = Some v ∧ Var.prev v = p ∧
           Var.next v = match q' with [] => n | y :: _ => Some y end ∧
           linked vt (Some x) q' n
  end.

(** The queue of [s] links exactly the variables of [q], from
    [Queue.first] to [Queue.last]; they are variables of the solver and
    have a value; every other record is detached and has no [next]. *)
Record queue_repr (s : Internal) (q : list nat) : Prop := {
  qr_nodup : NoDup q;
  qr_first : Queue.first (queue s) = head q;
  qr_last : Queue.last (queue s) = last q;
  qr_linked : linked (vtab s) None q None;
  qr_detached : ∀ x v, vtab s !! x = Some v → x ∉ q → Var.next v = None;
  qr_range : ∀ x, x ∈ q → (1 ≤ x ≤ Z.to_nat (max_var s))%nat;
  qr_vtab : (Z.to_nat (max_var s) < length (vtab s))%nat;
  qr_vals : (Z.to_nat (max_var s) < length (vals s))%nat
}.

(** Two tables of variable records that differ at most in queue links. *)
Definition relinked (vt vt' : list Var.t) : Prop :=
  length vt' = length vt ∧
  ∀ y w, vt !! y = Some w →
    ∃ p n, vt' !! y = Some (Var.set_next n (Var.set_prev p w)).

(** [!vals[idx]]. *)
Definition unassigned (s : Internal) (x : nat) : Prop := vals s !! x = Some 0.

(** The queue invariant of [queue.assigned]: when some variable of the
    queue is unassigned, the pointer refers to an unassigned variable of
    the queue and every variable between it and [Queue.last], the front of
    the queue, is assigned. *)
Definition frontier_ok (s : Internal) (q : list nat) : Prop :=
  (∃ y, y ∈ q ∧ unassigned s y) →
  ∃ a l1 l2, Queue.assigned (queue s) = Some a ∧ q = l1 ++ a :: l2 ∧
    unassigned s a ∧ Forall (λ z, ¬ unassigned s z) l2.

(** A sequence of calls of [bump_variable]. *)
Fixpoint bump_variables (xs : list nat) (s : Internal) : option Internal :=
  match xs with
  | [] => Some s
  | x :: xs => s ← bump_variable x s; bump_variables xs s
  end.

(** The formula of the sample states. *)
Definition Sample_formula : list (list Z) :=
  [[-3; -4; -5]; [4; -1; -2; -3]; [5]].

(** ** Frames and orders of the bumping code *)

(** The members of the state that bumping does not write: all but
    [vtab], [queue], [scinc] and [stats]. *)
Definition untouched (s s' : Internal) : Prop :=
  s' = set_stats (stats s')
         (set_scinc (scinc s') (set_queue (queue s') (set_vtab (vtab s') s))).

(** Two tables of variable records with the same assignment data and the
    same marks. *)
Definition same_assignment (vt vt' : list Var.t) : Prop :=
  length vt' = length vt ∧
  ∀ y w, vt !! y = Some w →
    ∃ w', vt' !! y = Some w' ∧ Var.level w' = Var.level w ∧
      Var.trail w' = Var.trail w ∧ Var.reason w' = Var.reason w ∧
      Var.seen w' = Var.seen w.

(** The queue is ordered by the stamps [bumped], oldest first, and no
    stamp of a queued variable exceeds the counter [stats.bumped]. *)
Definition stamp_ordered (s : Internal) (q : list nat) : Prop :=
  (∀ y w, y ∈ q → vtab s !! y = Some w →
     Var.bumped w ≤ Stats.bumped (stats s)) ∧
  StronglySorted
    (λ a b, ∃ va vb, vtab s !! a = Some va ∧ vtab s !! b = Some vb ∧
                     Var.bumped va < Var.bumped vb) q.

(** A step that writes only links, stamps or scores. *)
Definition bump_frame (s s' : Internal) : Prop :=
  untouched s s' ∧ same_assignment (vtab s) (vtab s').

(** The sample root state with the stamps 1 to 5 along the queue. *)
Definition Sample_stamped : Internal :=
  set_stats (Stats.set_bumped 5 Sample.zero_stats)
    (set_vtab (zip_with Var.set_bumped [0; 1; 2; 3; 4; 5]
                 (vtab Sample.at_root)) Sample.at_root).

(** ** The bookkeeping of the analysis *)

(** The test [v.level < level] of [analyze_literal] on the variable of a
    literal. *)
Definition lower_level (s : Internal) (lit : Z) : bool :=
  match var s lit with
  | Some v => Var.level v <? level s
  | None => false
  end.

(** The variable of a literal was assigned at level [l]. *)
Definition at_level (s : Internal) (l : Z) (lit : Z) : bool :=
  match var s lit with
  | Some v => Var.level v =? l
  | None => false
  end.

(** No analysis is under way: the vectors [seen] and [levels] are empty,
    no variable is marked and no level record counts a literal. *)
Record clean (s : Internal) : Prop := {
  cl_seen : seen s = [];
  cl_levels : levels s = [];
  cl_marks : ∀ idx v, vtab s !! idx = Some v → Var.seen v = false;
  cl_control : ∀ l r, control_at s l = Some r → Level.seen r = 0
}.

(** What the vectors, the marks and the level records hold while the
    conflict reported in [s0] is analyzed: [seen] lists the marked
    variables, once each, by a literal that is false on the trail; the
    clause buffer is the part of [seen] below the current level; [levels]
    lists the levels of the literals of [seen], once each; the record of
    a level counts these literals and holds the smallest of its initial
    trail position and theirs. *)
Record bookkeeping (s0 s : Internal) : Prop := {
  bk_nodup : NoDup (vidx <$> seen s);
  bk_marks : ∀ idx v, vtab s !! idx = Some v →
    (Var.seen v = true ↔ idx ∈ vidx <$> seen s);
  bk_trail : ∀ lit, lit ∈ seen s → ∃ p, trail s0 !! p = Some (- lit);
  bk_clause : clause s = filter (λ lit, lower_level s0 lit) (seen s);
  bk_levels_nodup : NoDup (levels s);
  bk_levels : ∀ l, l ∈ levels s ↔ ∃ lit, lit ∈ seen s ∧ at_level s0 l lit;
  bk_count : ∀ l r, control_at s l = Some r →
    Level.seen r =
      Z.of_nat (length (filter (λ lit, at_level s0 l lit) (seen s)));
  bk_min : ∀ l r0 r, control_at s0 l = Some r0 → control_at s l = Some r →
    Level.trail r ≤ Level.trail r0 ∧
    (∀ lit v, lit ∈ seen s → var s0 lit = Some v → Var.level v = l →
       Level.trail r ≤ Var.trail v) ∧
    (Level.trail r = Level.trail r0 ∨
     ∃ lit v, lit ∈ seen s ∧ var s0 lit = Some v ∧ Var.level v = l ∧
       Var.trail v = Level.trail r)
}.

(** ** The state between two analyses *)

(** The members the resolution loop writes: [vtab], [control], [clause],
    [seen] and [levels]. *)
Definition analysis_writes (s s' : Internal) : Prop :=
  s' = set_seen (seen s')
         (set_vtab (vtab s')
            (set_control (control s')
               (set_levels (levels s') (set_clause (clause s') s)))).

(** A step that leaves the data of a running analysis alone: the vectors
    [seen] and [levels], the level records, the marks of the variables
    and the links of the queue. *)
Definition leaves_analysis (t t' : Internal) : Prop :=
  seen t' = seen t ∧ levels t' = levels t ∧ control t' = control t ∧
  length (vtab t') = length (vtab t) ∧
  (∀ idx v, vtab t !! idx = Some v →
     ∃ v', vtab t' !! idx = Some v' ∧ Var.seen v' = Var.seen v) ∧
  (∀ q, queue_repr t q → queue_repr t' q).

(** The stamped sample state with the option [bumpsort] set to 1 and the
    literals [-4], [2] and [-3] in the vector [seen]. *)
Definition Sample_sorting : Internal :=
  let s := Sample_stamped in
  mkInternal (unsat s) (iterating s) (level s) (max_var s) (vtab s) (vals s)
    (control s) (trail s) (clause s) [-4; 2; -3] (levels s) (resolved s)
    (conflict s) (clauses s) (queue s) (scinc s) (stats s)
    (Opts.mk 1 0.95%float 3 2 true) (proof s).

(** ** Binary64 division

    [rescore] divides scores in binary64 arithmetic.  The division of the
    standard library's specification ([SFdiv], to which the primitive
    division is tied by [div_spec]) is described here by integers: where
    a quotient lies between two neighbours, how it is rounded, and which
    number of the format is built from the rounded mantissa. *)

(** The position of a rational [n / w] between two consecutive integers,
    as the round bit and the sticky bit of a shift record hold it: the
    integer part, whether the fraction is at least one half, and whether
    it is neither zero nor one half. *)
Definition inbetween (n w : Z) (mrs : shr_record) : Prop :=
  0 < w ∧ 0 ≤ n ∧ shr_m mrs = n / w ∧
  (shr_r mrs = true ↔ w ≤ 2 * (n mod w)) ∧
  (shr_s mrs = true ↔ n mod w ≠ 0 ∧ 2 * (n mod w) ≠ w).

(** Rounding to nearest, ties to even, of a rational with integer part [t]
    and remainder [r] modulo [w]. *)
Definition nearest_even (t r w : Z) : Z :=
  if 2 * r <? w then t
  else if 2 * r =? w then (if Z.even t then t else t + 1)
  else t + 1.

(** The binary64 number of sign [s] and value [m * 2 ^ e], for a mantissa of
    at most 53 bits or the mantissa [2 ^ 53]; infinite when the exponent
    is beyond the format. *)
Definition SFencode (s : bool) (m e : Z) : spec_float :=
  match m with
  | Z0 => S754_zero s
  | Zpos p =>
      if m <? 2 ^ prec
      then (if e <=? emax - prec then S754_finite s p e else S754_infinity s)
      else (if e + 1 <=? emax - prec
            then S754_finite s (Z.to_pos (2 ^ (prec - 1))) (e + 1)
            else S754_infinity s)
  | Zneg _ => S754_nan
  end.

(** A mantissa and an exponent as [SF64div_finite] delivers them. *)
Definition canonic (m e : Z) : Prop :=
  0 ≤ m ≤ 2 ^ 53 ∧ -1074 ≤ e ∧ (-1074 < e → 2 ^ 52 ≤ m).

(** * Properties *)

(** ** The root conflict *)

Section RootConflict.

Context (minimize_clause : Internal → Internal)
        (new_learned_clause : Z → Internal → nat * Internal)
        (backtrack : Z → Internal → Internal)
        (assign : Z → option nat → Internal → Internal)
        (Level_reset : Level.t → Level.t).

Local Abbreviation run :=
  (analyze minimize_clause new_learned_clause backtrack assign Level_reset).

Lemma analyze_at_root (s : Internal) :
  level s = 0 →
  run s = Some (set_conflict None (set_unsat true s),
                if proof s then [trace_empty_clause] else []).
Proof.
  intros Hl. unfold analyze. rewrite Hl. reflexivity.
Qed.

(** C3: a call of [analyze] at decision level 0 returns with the
    [unsat] flag set; the only call it can make is the empty-clause event
    of the proof tracer, made exactly when a tracer is connected; the
    clause buffer is as it was (so it stays empty), the clause arena is
    unchanged and no clause is registered, and neither [backtrack] nor
    [assign] is called: trail, values and level are unchanged. *)
Theorem analyze_root_conflict (s : Internal) :
  level s = 0 →
  ∃ s' ev,
    run s = Some (s', ev) ∧
    unsat s' = true ∧
    ev = (if proof s then [trace_empty_clause] else []) ∧
    (clause s = [] → clause s' = []) ∧
    clause s' = clause s ∧
    clauses s' = clauses s ∧
    (∀ e, e ∈ ev → e = trace_empty_clause) ∧
    trail s' = trail s ∧ vals s' = vals s ∧ level s' = level s.
Proof.
  intros Hl. eexists _, _. split; [by apply analyze_at_root |].
  repeat split; try done.
  intros e. destruct (proof s).
  - by intros ->%list_elem_of_singleton.
  - by intros ?%elem_of_nil.
Qed.

(** C10: on the root-conflict path the state after [analyze] is the state
    before it with [unsat] set and [conflict] reset to null; every other
    member is unchanged: trail, variable records, transient buffers,
    level records, queue, scinc, statistics, values and options. *)
Theorem analyze_root_frame (s : Internal) :
  level s = 0 →
  ∃ s' ev,
    run s = Some (s', ev) ∧
    s' = set_conflict None (set_unsat true s) ∧
    unsat s' = true ∧ conflict s' = None ∧
    trail s' = trail s ∧ vtab s' = vtab s ∧ vals s' = vals s ∧
    control s' = control s ∧ queue s' = queue s ∧
    seen s' = seen s ∧ levels s' = levels s ∧ clause s' = clause s ∧
    resolved s' = resolved s ∧ clauses s' = clauses s ∧
    scinc s' = scinc s ∧ stats s' = stats s ∧ opts s' = opts s ∧
    level s' = level s ∧ max_var s' = max_var s ∧
    iterating s' = iterating s ∧ proof s' = proof s.
Proof.
  intros Hl. eexists _, _. split; [by apply analyze_at_root |].
  repeat split.
Qed.

End RootConflict.

(** The root conflict of the sample state [at_root]. *)
Lemma analyze_root_conflict_witness :
  level Sample.at_root = 0 ∧
  ∃ s' ev,
    analyze Sample.no_minimize Sample.register_learned Sample.no_backtrack
      Sample.no_assign Sample.reset_level Sample.at_root = Some (s', ev) ∧
    unsat s' = true ∧
    ev = [trace_empty_clause] ∧
    clause s' = [] ∧ clauses s' = clauses Sample.at_root ∧
    trail s' = [5].
Proof.
  split; [reflexivity |].
  destruct (analyze_root_conflict Sample.no_minimize Sample.register_learned
              Sample.no_backtrack Sample.no_assign Sample.reset_level
              Sample.at_root eq_refl)
    as (s' & ev & Hrun & Hu & Hev & Hc & _ & Hcs & _ & Ht & _).
  exists s', ev. repeat split; try done. by apply Hc.
Defined.

(** The frame of the root conflict on the sample state [at_root]. *)
Lemma analyze_root_frame_witness :
  level Sample.at_root = 0 ∧
  ∃ s' ev,
    analyze Sample.no_minimize Sample.register_learned Sample.no_backtrack
      Sample.no_assign Sample.reset_level Sample.at_root = Some (s', ev) ∧
    conflict s' = None ∧ stats s' = Sample.zero_stats ∧
    queue s' = queue Sample.at_root.
Proof.
  split; [reflexivity |].
  destruct (analyze_root_frame Sample.no_minimize Sample.register_learned
              Sample.no_backtrack Sample.no_assign Sample.reset_level
              Sample.at_root eq_refl)
    as (s' & ev & Hrun & Heq & _ & Hc & _ & _ & _ & _ & Hq & _ & _ & _ & _
        & _ & _ & Hst & _).
  exists s', ev. repeat split; done.
Defined.

(** ** [analyze_literal] *)

Lemma control_at_Some (s : Internal) (l : Z) (r : Level.t) :
  control_at s l = Some r ↔ 0 ≤ l ∧ control s !! Z.to_nat l = Some r.
Proof.
  unfold control_at. destruct (Z.ltb_spec l 0); split.
  - done.
  - intros [? _]. lia.
  - done.
  - by intros [_ ?].
Qed.

(** C5, as the code has it: a literal whose variable is already seen or
    assigned at level 0 leaves the whole state unchanged and the call
    returns false.  Any other literal is marked seen and appended to the
    [seen] vector, its level record counts it and keeps the smallest trail
    position, the level is appended to [levels] when it is new, and the
    call returns true exactly when the level of the literal is the current
    decision level; when that level is strictly below the current one, the
    literal itself (not its negation) is appended to the clause buffer. *)
Theorem analyze_literal_effect (s : Internal) (lit : Z) (v : Var.t) :
  var s lit = Some v →
  (Var.seen v = true ∨ Var.level v = 0 →
   analyze_literal lit s = Some (false, s)) ∧
  (Var.seen v = false → Var.level v ≠ 0 →
   ∀ l, control_at s (Var.level v) = Some l →
   ∃ s', analyze_literal lit s = Some (Var.level v =? level s, s') ∧
     clause s' = (if Var.level v <? level s then clause s ++ [lit]
                  else clause s) ∧
     seen s' = seen s ++ [lit] ∧
     var s' lit = Some (Var.set_seen true v) ∧
     levels s' = (if Level.seen l =? 0 then levels s ++ [Var.level v]
                  else levels s) ∧
     control_at s' (Var.level v) =
       Some (Level.mk (Level.seen l + 1)
               (Z.min (Var.trail v) (Level.trail l)))).
Proof.
  intros Hv. unfold analyze_literal. rewrite Hv. simpl. split.
  - intros [Hs | Hl].
    + by rewrite Hs.
    + destruct (Var.seen v); [done |]. by rewrite Hl.
  - intros Hs Hl l Hc. rewrite Hs.
    destruct (Z.eqb_spec (Var.level v) 0) as [| _]; [done |].
    assert (Hc' : control_at
              (if Var.level v <? level s
               then set_clause (clause s ++ [lit]) s else s)
              (Var.level v) = Some l)
      by (by destruct (Var.level v <? level s)).
    rewrite Hc'. simpl.
    apply control_at_Some in Hc as [Hge Hlk].
    assert (Hin : (vidx lit < length (vtab s))%nat)
      by (by eapply lookup_lt_Some).
    assert (Hlt : (Z.to_nat (Var.level v) < length (control s))%nat)
      by (by eapply lookup_lt_Some).
    destruct (Var.level v <? level s), (Level.seen l =? 0);
      (eexists; split; [reflexivity |]; repeat split; simpl;
       [ unfold var; simpl; by apply list_lookup_insert_eq
       | apply control_at_Some; split; [done |]; simpl;
         rewrite list_lookup_insert_eq by done; f_equal; f_equal;
         destruct (Z.ltb_spec (Var.trail v) (Level.trail l)); lia ]).
Qed.

(** The literal [-1] analyzed in the sample state [at_level_3]. *)
Lemma analyze_literal_effect_witness :
  ∃ s', analyze_literal (-1) Sample.at_level_3 = Some (false, s') ∧
    clause s' = [-1] ∧ seen s' = [-1] ∧ levels s' = [1].
Proof.
  destruct (analyze_literal_effect Sample.at_level_3 (-1)
              (Sample.assigned_var 1 1 None None (Some 2%nat)) eq_refl)
    as [_ H].
  destruct (H eq_refl ltac:(done) Sample.fresh_level eq_refl)
    as (s' & Hrun & Hc & Hs & _ & Hl & _).
  exists s'. repeat split; done.
Defined.

(** C5, the statement refuted: variable 1 is unseen and assigned at level
    1, below the current level 3, and [analyze_literal (-1)] appends [-1]
    to the clause buffer, not its negation. *)
Lemma analyze_literal_negation_not_appended :
  ∃ v b s',
    var Sample.at_level_3 (-1) = Some v ∧
    Var.seen v = false ∧ Var.level v ≠ 0 ∧
    Var.level v < level Sample.at_level_3 ∧
    analyze_literal (-1) Sample.at_level_3 = Some (b, s') ∧
    clause s' = [-1] ∧
    clause s' ≠ clause Sample.at_level_3 ++ [- (-1)].
Proof.
  eexists _, _, _. repeat split; try done.
Qed.

(** ** Sorting *)

Section Sort.
Context {A : Type} (lt : A → A → bool).
Hypothesis lt_asym : ∀ a b, lt a b = true → lt b a = false.
Hypothesis lt_trans : ∀ a b c, lt b a = false → lt c b = false → lt c a = false.

Lemma insert_sorted_Permutation (x : A) (l : list A) :
  insert_sorted lt x l ≡ₚ x :: l.
Proof.
  induction l as [| y l IH]; simpl; [done |].
  destruct (lt y x); [| done]. rewrite IH. apply Permutation_swap.
Qed.

Lemma sort_Permutation (l : list A) : sort lt l ≡ₚ l.
Proof.
  induction l as [| x l IH]; simpl; [done |].
  rewrite insert_sorted_Permutation. by f_equiv.
Qed.

Lemma insert_sorted_StronglySorted (x : A) (l : list A) :
  StronglySorted (λ a b, lt b a = false) l →
  StronglySorted (λ a b, lt b a = false) (insert_sorted lt x l).
Proof using lt_asym lt_trans.
  induction 1 as [| y l Hs IH Hy]; simpl.
  - repeat constructor.
  - destruct (lt y x) eqn:Hyx.
    + constructor; [done |].
      rewrite insert_sorted_Permutation. constructor; [| done].
      by apply lt_asym.
    + constructor; [by constructor |].
      constructor; [done |].
      eapply Forall_impl; [exact Hy |]. intros z Hz. simpl in Hz.
      by eapply lt_trans.
Qed.

Lemma sort_StronglySorted (l : list A) :
  StronglySorted (λ a b, lt b a = false) (sort lt l).
Proof using lt_asym lt_trans.
  induction l as [| x l IH]; simpl; [constructor |].
  by apply insert_sorted_StronglySorted.
Qed.

(** A vector that is in order already, ties included, is left as it is. *)
Lemma sort_sorted (l : list A) :
  StronglySorted (λ a b, lt b a = false) l → sort lt l = l.
Proof.
  induction 1 as [| x l Hs IH Hx]; simpl; [done |].
  rewrite IH. destruct Hx as [| y l' Hy _]; [done |]. simpl. by rewrite Hy.
Qed.

Lemma insert_sorted_filter (x a : A) (l : list A) :
  filter (λ y, lt x y = false ∧ lt y x = false) (insert_sorted lt a l) =
  filter (λ y, lt x y = false ∧ lt y x = false) (a :: l).
Proof using lt_trans.
  induction l as [| y l IH]; simpl; [done |].
  destruct (lt y a) eqn:Hya; [| done].
  rewrite (filter_cons _ y), IH, !filter_cons.
  destruct (decide (lt x a = false ∧ lt a x = false)) as [[Ha1 Ha2] | Ha];
    [| done].
  destruct (decide (lt x y = false ∧ lt y x = false)) as [[Hy1 Hy2] | Hy];
    [| done].
  rewrite (lt_trans a x y Ha1 Hy2) in Hya. done.
Qed.

(** The sort is stable: the elements that compare equal to a given one
    keep the order they had. *)
Lemma sort_stable (x : A) (l : list A) :
  filter (λ y, lt x y = false ∧ lt y x = false) (sort lt l) =
  filter (λ y, lt x y = false ∧ lt y x = false) l.
Proof using lt_trans.
  induction l as [| a l IH]; simpl; [done |].
  by rewrite insert_sorted_filter, !filter_cons, IH.
Qed.

End Sort.

Section SortBy.
Context {A K : Type} (lt : K → K → bool) (key : A → option K).
Hypothesis lt_asym : ∀ a b, lt a b = true → lt b a = false.
Hypothesis lt_trans : ∀ a b c, lt b a = false → lt c b = false → lt c a = false.

Lemma sort_by_is_Some (l : list A) :
  Forall (λ x, is_Some (key x)) l → is_Some (sort_by lt key l).
Proof.
  intros Hl. unfold sort_by.
  destruct (mapM_is_Some_2 (λ x, k ← key x; Some (k, x)) l) as [keyed ->];
    [| by eexists].
  eapply Forall_impl; [exact Hl |]. intros x [k Hk]. simpl. rewrite Hk.
  by eexists.
Qed.

Lemma sort_by_keyed (l l' : list A) :
  sort_by lt key l = Some l' →
  ∃ keyed : list (K * A),
    Forall (λ y, key y.2 = Some y.1) keyed ∧ keyed.*2 = l ∧
    l' = (sort (λ a b, lt a.1 b.1) keyed).*2.
Proof.
  unfold sort_by. intros H.
  destruct (mapM _ l) as [keyed |] eqn:Hm; [| done].
  simpl in H. injection H as <-. exists keyed.
  apply mapM_Some_1 in Hm. split; [| split; [| done]].
  - induction Hm as [| x y l k Hxy _ IH]; constructor; [| done].
    destruct (key x) as [kx |] eqn:Hkx; simpl in Hxy; [| done].
    by injection Hxy as <-.
  - induction Hm as [| x y l k Hxy _ IH]; [done |]. simpl. f_equal; [| done].
    destruct (key x) as [kx |] eqn:Hkx; simpl in Hxy; [| done].
    by injection Hxy as <-.
Qed.

Lemma sort_by_Permutation (l l' : list A) :
  sort_by lt key l = Some l' → l' ≡ₚ l.
Proof.
  intros (keyed & _ & <- & ->)%sort_by_keyed.
  by rewrite sort_Permutation.
Qed.

Lemma sort_by_StronglySorted (l l' : list A) :
  sort_by lt key l = Some l' →
  StronglySorted
    (λ a b, ∃ ka kb, key a = Some ka ∧ key b = Some kb ∧ lt kb ka = false) l'.
Proof using lt_asym lt_trans.
  intros (keyed & Hk & _ & ->)%sort_by_keyed.
  assert (Hs : StronglySorted (λ a b : K * A, lt b.1 a.1 = false)
                 (sort (λ a b, lt a.1 b.1) keyed)).
  { apply sort_StronglySorted; [by eauto |]. intros a b c. apply lt_trans. }
  assert (Hk' : Forall (λ y : K * A, key y.2 = Some y.1)
                  (sort (λ a b, lt a.1 b.1) keyed))
    by (by rewrite sort_Permutation).
  induction Hs as [| y k Hs IH Hy]; simpl; [constructor |].
  apply Forall_cons in Hk' as [Hy1 Hk'].
  constructor; [by apply IH |].
  rewrite Forall_fmap. rewrite Forall_forall in Hy, Hk'.
  apply Forall_forall. intros z Hz. simpl. eauto 10.
Qed.

End SortBy.

(** ** The back jump level *)

Lemma StronglySorted_impl {A : Type} (R1 R2 : relation A) (l : list A) :
  (∀ x y, x ∈ l → y ∈ l → R1 x y → R2 x y) →
  StronglySorted R1 l → StronglySorted R2 l.
Proof.
  intros HR Hs. induction Hs as [| x l Hs IH Hx]; constructor.
  - apply IH. intros y z Hy Hz. apply HR; by constructor.
  - rewrite Forall_forall in Hx. apply Forall_forall. intros y Hy.
    apply HR; [by constructor | by constructor | by apply Hx].
Qed.

Lemma StronglySorted_NoDup_ne {A : Type} (R : relation A) (l : list A) :
  NoDup l → StronglySorted R l → StronglySorted (λ a b, R a b ∧ a ≠ b) l.
Proof.
  intros Hnd Hs. induction Hs as [| x l Hs IH Hx]; constructor.
  - apply IH. by apply NoDup_cons in Hnd as [_ ?].
  - apply NoDup_cons in Hnd as [Hnx _].
    rewrite Forall_forall in Hx. apply Forall_forall. intros y Hy.
    split; [by apply Hx |]. by intros ->.
Qed.

Lemma StronglySorted_lookup_le {A : Type} (R : relation A) (l : list A)
    (i j : nat) (x y : A) :
  StronglySorted R l → (i < j)%nat → l !! i = Some x → l !! j = Some y →
  R x y.
Proof.
  intros Hs. revert i j. induction Hs as [| z l Hs IH Hz]; intros i j Hij Hi Hj.
  - done.
  - destruct j as [| j]; [lia |]. simpl in Hj. destruct i as [| i].
    + simpl in Hi. injection Hi as ->. rewrite Forall_forall in Hz.
      apply Hz. by eapply list_elem_of_lookup_2.
    + simpl in Hi. apply (IH i j); [lia | done | done].
Qed.

Section Backjump.
Context (new_learned_clause : Z → Internal → nat * Internal)
        (backtrack : Z → Internal → Internal)
        (assign : Z → option nat → Internal → Internal).

(** The clause database stores the clause; it changes neither the clause
    buffer nor the variable records. *)
Hypothesis new_learned_clause_frame : ∀ g t,
  clause (new_learned_clause g t).2 = clause t ∧
  vtab (new_learned_clause g t).2 = vtab t.

(** C4: when the clause buffer holds more than one literal, it is sorted
    by descending trail position (strictly, for distinct literals at
    distinct positions), the sorted clause is handed to the clause
    database, and [backtrack] is called with the level of the literal at
    index 1, which is then the reason-backed jump level: no literal from
    index 1 on has a higher level and the literal at index 0 has no lower
    one, when levels grow with the trail position.  When the buffer holds
    one literal, [backtrack] is called with level 0, [assign] gets a null
    reason, no clause is registered and [stats.units] has been incremented
    in the state handed to the trail manager. *)
Theorem backjump_level (uip glue : Z) (s : Internal) :
  Forall (λ lit, is_Some (var s lit)) (clause s) →
  ((1 < length (clause s))%nat →
   ∃ sorted c t lit1 v1,
     sorted ≡ₚ clause s ∧
     StronglySorted
       (λ a b, ∃ va vb, var s a = Some va ∧ var s b = Some vb ∧
                        Var.trail vb ≤ Var.trail va) sorted ∧
     (NoDup (clause s) →
      (∀ a b va vb, a ∈ clause s → b ∈ clause s → var s a = Some va →
         var s b = Some vb → Var.trail va = Var.trail vb → a = b) →
      StronglySorted
        (λ a b, ∃ va vb, var s a = Some va ∧ var s b = Some vb ∧
                         Var.trail vb < Var.trail va) sorted) ∧
     new_learned_clause glue (set_clause sorted (count_learned s)) = (c, t) ∧
     sorted !! 1%nat = Some lit1 ∧ var s lit1 = Some v1 ∧
     learn_and_backjump new_learned_clause backtrack assign uip glue s =
       Some (assign (- uip) (Some c) (backtrack (Var.level v1) t),
             [call_new_learned_clause sorted glue;
              update_avg jump_avg (Var.level v1);
              call_backtrack (Var.level v1);
              call_assign (- uip) (Some c)]) ∧
     ((∀ a b va vb, a ∈ clause s → b ∈ clause s → var s a = Some va →
         var s b = Some vb → Var.trail va ≤ Var.trail vb →
         Var.level va ≤ Var.level vb) →
      (∀ k lit v, (1 ≤ k)%nat → sorted !! k = Some lit → var s lit = Some v →
         Var.level v ≤ Var.level v1) ∧
      (∀ lit0 v0, sorted !! 0%nat = Some lit0 → var s lit0 = Some v0 →
         Var.level v1 ≤ Var.level v0))) ∧
  (length (clause s) = 1%nat →
   learn_and_backjump new_learned_clause backtrack assign uip glue s =
     Some (assign (- uip) None (backtrack 0 (count_learned s)),
           [update_avg jump_avg 0; call_backtrack 0;
            call_assign (- uip) None]) ∧
   Stats.units (stats (count_learned s)) = Stats.units (stats s) + 1 ∧
   clauses (count_learned s) = clauses s).
Proof using new_learned_clause_frame.
  intros Hvars. split.
  - intros Hlen.
    destruct (sort_by_is_Some Z.gtb (trail_greater_than s) (clause s))
      as [sorted Hsort].
    { eapply Forall_impl; [exact Hvars |]. intros lit [v Hv].
      unfold trail_greater_than. rewrite Hv. by eexists. }
    pose proof (sort_by_Permutation _ _ _ _ Hsort) as Hperm.
    assert (Hss : StronglySorted
              (λ a b, ∃ va vb, var s a = Some va ∧ var s b = Some vb ∧
                               Var.trail vb ≤ Var.trail va) sorted).
    { eapply StronglySorted_impl;
        [| eapply (sort_by_StronglySorted Z.gtb (trail_greater_than s));
           [| | exact Hsort]].
      - intros a b _ _ (ka & kb & Ha & Hb & Hk). unfold trail_greater_than in *.
        destruct (var s a) as [va |]; [| done].
        destruct (var s b) as [vb |]; [| done].
        simpl in *. injection Ha as <-. injection Hb as <-.
        exists va, vb. repeat split; try done. lia.
      - intros a b. lia.
      - intros a b c. lia. }
    destruct (new_learned_clause glue (set_clause sorted (count_learned s)))
      as [c t] eqn:Hnew.
    assert (Hf := new_learned_clause_frame glue
                    (set_clause sorted (count_learned s))).
    destruct Hf as [Hfc Hfv].
    rewrite Hnew in Hfc, Hfv. simpl in Hfc, Hfv.
    assert (Hl : (1 < length sorted)%nat) by (by rewrite Hperm).
    destruct (lookup_lt_is_Some_2 sorted 1 Hl) as [lit1 Hlit1].
    assert (Hv1 : is_Some (var s lit1)).
    { rewrite Forall_forall in Hvars. apply Hvars. rewrite <- Hperm.
      by eapply list_elem_of_lookup_2. }
    destruct Hv1 as [v1 Hv1].
    exists sorted, c, t, lit1, v1.
    split; [done |]. split; [done |]. split.
    { intros Hnd Hinj.
      eapply StronglySorted_impl;
        [| apply StronglySorted_NoDup_ne; [by rewrite Hperm | exact Hss]].
      intros a b Ha Hb [(va & vb & Hva & Hvb & Hle) Hne]. simpl in *.
      exists va, vb. repeat split; try done.
      destruct (decide (Var.trail va = Var.trail vb)) as [Heq |]; [| lia].
      exfalso. apply Hne. rewrite Hperm in Ha, Hb. by eapply Hinj. }
    split; [done |]. split; [done |]. split; [done |]. split.
    { unfold learn_and_backjump, driving_clause_and_jump.
      rewrite bool_decide_eq_true_2 by done.
      change (trail_greater_than (count_learned s))
        with (trail_greater_than s).
      change (clause (count_learned s)) with (clause s).
      rewrite Hsort. simpl. rewrite Hnew. rewrite Hfc, Hlit1. simpl.
      unfold var in *. rewrite Hfv. simpl. rewrite Hv1. reflexivity. }
    intros Hmono. split.
    + intros k lit v Hk Hlk Hv.
      destruct (decide (k = 1%nat)) as [-> | Hne].
      { assert (lit = lit1) as -> by congruence.
        assert (v = v1) as -> by congruence. lia. }
      destruct (StronglySorted_lookup_le _ _ 1 k lit1 lit Hss)
        as (va & vb & Ha & Hb & Hle); [lia | done | done |].
      assert (va = v1) as -> by congruence.
      assert (vb = v) as -> by congruence.
      eapply (Hmono lit lit1); try done; rewrite <- Hperm;
        by eapply list_elem_of_lookup_2.
    + intros lit0 v0 Hl0 Hv0.
      destruct (StronglySorted_lookup_le _ _ 0 1 lit0 lit1 Hss)
        as (va & vb & Ha & Hb & Hle); [lia | done | done |].
      assert (va = v0) as -> by congruence.
      assert (vb = v1) as -> by congruence.
      eapply (Hmono lit1 lit0); try done; rewrite <- Hperm;
        by eapply list_elem_of_lookup_2.
  - intros Hlen. split; [| split; [| done]].
    + unfold learn_and_backjump, driving_clause_and_jump.
      change (clause (count_learned s)) with (clause s).
      rewrite bool_decide_eq_false_2 by lia. reflexivity.
    + unfold count_learned. simpl.
      rewrite bool_decide_eq_true_2 by done. reflexivity.
Qed.

End Backjump.

(** The back jump for the clause [-1 -2 -3] and for the unit [-3] in the
    sample state. *)
Lemma backjump_level_witness :
  (∃ sorted c t lit1 v1,
     sorted ≡ₚ [-1; -2; -3] ∧
     sorted !! 1%nat = Some lit1 ∧
     var (set_clause [-1; -2; -3] Sample.at_level_3) lit1 = Some v1 ∧
     learn_and_backjump Sample.register_learned Sample.no_backtrack
       Sample.no_assign 3 3 (set_clause [-1; -2; -3] Sample.at_level_3) =
     Some (Sample.no_assign (-3) (Some c)
             (Sample.no_backtrack (Var.level v1) t),
           [call_new_learned_clause sorted 3;
            update_avg jump_avg (Var.level v1);
            call_backtrack (Var.level v1);
            call_assign (-3) (Some c)])) ∧
  learn_and_backjump Sample.register_learned Sample.no_backtrack
    Sample.no_assign 3 1 (set_clause [-3] Sample.at_level_3) =
  Some (count_learned (set_clause [-3] Sample.at_level_3),
        [update_avg jump_avg 0; call_backtrack 0; call_assign (-3) None]).
Proof.
  split.
  - destruct (backjump_level Sample.register_learned Sample.no_backtrack
                Sample.no_assign (λ g t, conj eq_refl eq_refl) 3 3
                (set_clause [-1; -2; -3] Sample.at_level_3)) as [H _].
    { repeat constructor; by eexists. }
    destruct H as (sorted & c & t & lit1 & v1 & Hp & _ & _ & _ & Hl & Hv
                   & Hrun & _); [simpl; lia |].
    by exists sorted, c, t, lit1, v1.
  - destruct (backjump_level Sample.register_learned Sample.no_backtrack
                Sample.no_assign (λ g t, conj eq_refl eq_refl) 3 1
                (set_clause [-3] Sample.at_level_3)) as [_ H].
    { repeat constructor; by eexists. }
    destruct H as (Hrun & _); [done |]. exact Hrun.
Defined.

(** ** The first-UIP clause *)

Lemma vidx_opp (lit : Z) : vidx (- lit) = vidx lit.
Proof. unfold vidx. lia. Qed.

Lemma var_opp (s : Internal) (lit : Z) : var s (- lit) = var s lit.
Proof. unfold var. by rewrite vidx_opp. Qed.

Lemma lit_true_opp (M : nat → bool) (lit : Z) :
  lit ≠ 0 → lit_true M (- lit) = negb (lit_true M lit).
Proof.
  intros Hne. unfold lit_true. rewrite vidx_opp.
  destruct (Z.ltb_spec 0 lit), (Z.ltb_spec 0 (- lit)); try lia;
    by rewrite ?negb_involutive.
Qed.

Lemma set_seen_set_seen (b b' : bool) (v : Var.t) :
  Var.set_seen b' (Var.set_seen b v) = Var.set_seen b' v.
Proof. reflexivity. Qed.

Lemma set_seen_id (v : Var.t) : Var.set_seen (Var.seen v) v = v.
Proof. by destruct v. Qed.

Lemma analyze_literal_old (s : Internal) (lit : Z) (v : Var.t) :
  var s lit = Some v → Var.seen v = true ∨ Var.level v = 0 →
  analyze_literal lit s = Some (false, s).
Proof.
  intros Hv H. unfold analyze_literal. rewrite Hv. simpl.
  destruct H as [-> | Hl]; [done |].
  destruct (Var.seen v); [done |]. by rewrite Hl.
Qed.

Lemma analyze_literal_fresh (s : Internal) (lit : Z) (v : Var.t) (l : Level.t) :
  var s lit = Some v → Var.seen v = false → Var.level v ≠ 0 →
  control_at s (Var.level v) = Some l →
  ∃ s', analyze_literal lit s = Some (Var.level v =? level s, s') ∧
    trail s' = trail s ∧ level s' = level s ∧ clauses s' = clauses s ∧
    length (control s') = length (control s) ∧
    vtab s' = <[vidx lit := Var.set_seen true v]> (vtab s) ∧
    clause s' = (if Var.level v <? level s then clause s ++ [lit]
                 else clause s).
Proof.
  intros Hv Hs Hl Hc. unfold analyze_literal. rewrite Hv. simpl. rewrite Hs.
  destruct (Z.eqb_spec (Var.level v) 0) as [| _]; [done |].
  assert (Hc' : control_at
            (if Var.level v <? level s
             then set_clause (clause s ++ [lit]) s else s)
            (Var.level v) = Some l)
    by (by destruct (Var.level v <? level s)).
  rewrite Hc'. simpl.
  destruct (Var.level v <? level s), (Level.seen l =? 0);
    (eexists; split; [reflexivity |]; simpl; repeat split;
     by rewrite length_insert).
Qed.

Section Loop.
Context (s0 : Internal) (Hcs : conflict_state s0).

Lemma var_frame (s : Internal) (lit : Z) (v0 : Var.t) :
  analysis_frame s0 s → var s0 lit = Some v0 →
  ∃ b, var s lit = Some (Var.set_seen b v0).
Proof. intros Hf Hv. by apply (af_vtab _ _ Hf). Qed.

Lemma var_frame_inv (s : Internal) (lit : Z) (v : Var.t) :
  analysis_frame s0 s → var s lit = Some v →
  ∃ v0, var s0 lit = Some v0 ∧ v = Var.set_seen (Var.seen v) v0.
Proof.
  intros Hf Hv. unfold var in *.
  destruct (vtab s0 !! vidx lit) as [v0 |] eqn:H0.
  - destruct (af_vtab _ _ Hf _ _ H0) as [b Hb].
    rewrite Hv in Hb. injection Hb as ->. by exists v0.
  - apply lookup_ge_None in H0. apply lookup_lt_Some in Hv.
    rewrite (af_vtab_length _ _ Hf) in Hv. lia.
Qed.

Lemma trail_var (s : Internal) (p : nat) (t : Z) :
  analysis_frame s0 s → trail s0 !! p = Some t →
  ∃ v0 b, var s0 t = Some v0 ∧ var s t = Some (Var.set_seen b v0) ∧
    t ≠ 0 ∧ Var.trail v0 = Z.of_nat p ∧ 0 ≤ Var.level v0 ≤ level s0 ∧
    Var.seen v0 = false.
Proof using Hcs.
  intros Hf Ht.
  destruct (cs_trail _ Hcs _ _ Ht) as (Hne & v0 & Hv0 & Htr & Hlv & Hsn).
  destruct (var_frame s t v0 Hf Hv0) as [b Hb].
  by exists v0, b.
Qed.

Lemma trail_position_unique (p q : nat) (t u : Z) :
  trail s0 !! p = Some t → trail s0 !! q = Some u → vidx t = vidx u → p = q.
Proof using Hcs.
  intros Ht Hu Hidx.
  destruct (cs_trail _ Hcs _ _ Ht) as (_ & v & Hv & Htr & _).
  destruct (cs_trail _ Hcs _ _ Hu) as (_ & v' & Hv' & Htr' & _).
  unfold var in *. rewrite Hidx in Hv. simplify_eq. lia.
Qed.

Lemma open_count_mark (s s' : Internal) (v : Var.t) (p : nat) (t : Z) (i : nat) :
  analysis_frame s0 s → trail s' = trail s → level s' = level s →
  vtab s' = <[vidx t := Var.set_seen true v]> (vtab s) →
  var s t = Some v → Var.seen v = false → trail s0 !! p = Some t →
  open_count s' i =
  open_count s i +
  (if bool_decide (p < i)%nat && (Var.level v =? level s) then 1 else 0).
Proof using Hcs.
  intros Hf Htr Hlv Hvt Hv Hsn Hp.
  induction i as [| i IH]; [done |]. simpl. rewrite IH, Htr, Hlv.
  destruct (decide (i = p)) as [-> | Hne].
  - rewrite (af_trail _ _ Hf), Hp. unfold var in *. rewrite Hvt, Hv.
    rewrite list_lookup_insert_eq by (by eapply lookup_lt_Some).
    simpl. rewrite Hsn. simpl.
    rewrite (bool_decide_eq_false_2 (p < p)%nat) by lia.
    rewrite (bool_decide_eq_true_2 (p < S p)%nat) by lia. simpl.
    destruct (Var.level v =? level s); lia.
  - assert (Hb : bool_decide (p < S i)%nat = bool_decide (p < i)%nat).
    { apply bool_decide_ext. lia. }
    rewrite Hb.
    destruct (trail s !! i) as [u |] eqn:Hu; [| lia].
    assert (Hidx : vidx u ≠ vidx t).
    { intros Heq. apply Hne. rewrite (af_trail _ _ Hf) in Hu.
      by eapply trail_position_unique. }
    unfold var. rewrite Hvt. rewrite list_lookup_insert_ne by done. lia.
Qed.

Lemma control_at_frame (s : Internal) (l : Z) :
  analysis_frame s0 s → 0 ≤ l ≤ level s0 → is_Some (control_at s l).
Proof using Hcs.
  intros Hf Hl. destruct (cs_control _ Hcs l Hl) as [r Hr].
  unfold control_at in *. destruct (l <? 0); [done |].
  apply lookup_lt_is_Some. rewrite (af_control _ _ Hf).
  by eapply lookup_lt_Some.
Qed.

Lemma grows_refl (s : Internal) : grows s s.
Proof. split; eauto. Qed.

Lemma grows_trans (s1 s2 s3 : Internal) :
  grows s1 s2 → grows s2 s3 → grows s1 s3.
Proof.
  intros [Hc1 Hv1] [Hc2 Hv2]. split; [by eauto |].
  intros idx v Hv Hs. destruct (Hv1 idx v Hv Hs) as (v' & Hv' & Hs'). eauto.
Qed.

Lemma covered_grows (s s' : Internal) (lit : Z) :
  analysis_frame s0 s → analysis_frame s0 s' → grows s s' →
  covered s0 s lit → covered s0 s' lit.
Proof.
  intros Hf Hf' [Hc Hv] (v & Hvar & Hcov).
  destruct (var_frame_inv s lit v Hf Hvar) as (v0 & Hv0 & Heq).
  destruct (var_frame s' lit v0 Hf' Hv0) as [b' Hb'].
  exists (Var.set_seen b' v0). split; [done |].
  rewrite Heq in Hcov. simpl in *.
  destruct Hcov as [? | [? | [Hs ?]]]; [by left | right; left; by auto |].
  right. right. split; [| done].
  destruct (Hv (vidx lit) v Hvar) as (v' & Hv' & Hs'); [by rewrite Heq |].
  unfold var in Hb'. by simplify_eq.
Qed.

(** One call of [analyze_literal] on a literal that is false on the trail
    at a position below the iterator. *)
Lemma analyze_literal_inv (s : Internal) (lit : Z) (p i : nat) :
  loop_invariant s0 s → trail s0 !! p = Some (- lit) → (p < i)%nat →
  ∃ b s', analyze_literal lit s = Some (b, s') ∧
    loop_invariant s0 s' ∧ grows s s' ∧
    open_count s' i = open_count s i + (if b : bool then 1 else 0) ∧
    covered s0 s' lit.
Proof using Hcs.
  intros [Hf Hlow Hcl] Hp Hpi.
  destruct (trail_var s p (- lit) Hf Hp)
    as (v0 & b & Hv0 & Hv & Hne & Htr & Hlv & Hsn).
  rewrite var_opp in Hv0, Hv.
  set (v := Var.set_seen b v0) in *.
  destruct (decide (b = true ∨ Var.level v0 = 0)) as [Hold | Hnew].
  - exists false, s. split; [| split; [done |]; split; [apply grows_refl |]].
    { eapply analyze_literal_old; [exact Hv |]. destruct Hold; [left | right]; done. }
    split; [lia |]. exists v. split; [done |].
    destruct Hold as [-> | Hl0]; [| by left].
    destruct (decide (Var.level v0 = level s0)) as [Heq | Hneq].
    + right. right. done.
    + right. left. rewrite <- (Z.opp_involutive lit).
      eapply (Hlow p (- lit)); [done | by rewrite var_opp | done |].
      simpl. lia.
  - assert (Hb : b = false).
    { destruct b; [| done]. exfalso. apply Hnew. by left. }
    assert (Hl0 : Var.level v0 ≠ 0).
    { intros H0. apply Hnew. by right. }
    destruct (control_at_frame s (Var.level v0) Hf Hlv) as [l Hl].
    destruct (analyze_literal_fresh s lit v l Hv)
      as (s' & Hrun & Htr' & Hlv' & Hcls' & Hctl' & Hvt' & Hcl');
      [by subst b | done | done |].
    assert (Hf' : analysis_frame s0 s').
    { split.
      - by rewrite Htr', (af_trail _ _ Hf).
      - by rewrite Hlv', (af_level _ _ Hf).
      - by rewrite Hcls', (af_clauses _ _ Hf).
      - by rewrite Hctl', (af_control _ _ Hf).
      - by rewrite Hvt', length_insert, (af_vtab_length _ _ Hf).
      - intros idx w0 Hw0. rewrite Hvt'.
        destruct (decide (idx = vidx lit)) as [-> | Hidx].
        + exists true. rewrite list_lookup_insert_eq
            by (by eapply lookup_lt_Some).
          unfold var in Hv0. by simplify_eq.
        + rewrite list_lookup_insert_ne by done. by apply (af_vtab _ _ Hf). }
    assert (Hlvl : level s = level s0) by apply (af_level _ _ Hf).
    assert (Hsub : ∀ x, x ∈ clause s → x ∈ clause s').
    { intros x Hx. rewrite Hcl'. destruct (Var.level v <? level s); [| done].
      apply elem_of_app. by left. }
    exists (Var.level v =? level s), s'.
    split; [done |]. split; [| split; [| split]].
    + split; [done | |].
      * intros q t w Hq Hw Hws Hwl.
        destruct (decide (vidx t = vidx lit)) as [Hidx | Hidx].
        -- assert (q = p).
           { eapply trail_position_unique; [done | done |].
             by rewrite vidx_opp. }
           subst q. assert (t = - lit) by congruence. subst t.
           rewrite Z.opp_involutive. rewrite Hcl'.
           rewrite var_opp in Hw. unfold var in Hw. rewrite Hvt' in Hw.
           rewrite list_lookup_insert_eq in Hw by (by eapply lookup_lt_Some).
           injection Hw as <-. simpl in Hwl.
           destruct (Z.ltb_spec (Var.level v) (level s)) as [| Hge];
             [| simpl in Hge; lia].
           apply elem_of_app. right. by apply list_elem_of_singleton.
        -- apply Hsub. eapply Hlow; [done | | done | done].
           unfold var in *. rewrite Hvt' in Hw.
           by rewrite list_lookup_insert_ne in Hw.
      * rewrite Hcl'. destruct (Z.ltb_spec (Var.level v) (level s)); [| done].
        apply Forall_app. split; [done |]. constructor; [| done].
        exists v0. split; [done |]. simpl in *. lia.
    + split; [done |]. intros idx w Hw Hws. rewrite Hvt'.
      destruct (decide (idx = vidx lit)) as [-> | Hidx].
      * unfold var in Hv. rewrite Hv in Hw. injection Hw as <-.
        simpl in Hws. congruence.
      * rewrite list_lookup_insert_ne by done. eauto.
    + rewrite (open_count_mark s s' v p (- lit) i Hf Htr' Hlv');
        [| by rewrite vidx_opp | by rewrite var_opp | by subst b | done].
      rewrite bool_decide_eq_true_2 by done. done.
    + exists (Var.set_seen true v). split.
      { unfold var in *. rewrite Hvt'.
        apply list_lookup_insert_eq. by eapply lookup_lt_Some. }
      simpl. destruct (decide (Var.level v0 = level s0)) as [Heq | Hneq].
      * right. right. done.
      * right. left. rewrite Hcl'.
        destruct (Z.ltb_spec (Var.level v) (level s)) as [| Hge];
          [| simpl in Hge; lia].
        apply elem_of_app. right. by apply list_elem_of_singleton.
Qed.

(** The scan of the literals of one clause: each literal is false on the
    trail below the iterator, or its variable is already marked seen. *)
Lemma analyze_literals_inv (lits : list Z) (open : Z) (s : Internal) (i : nat) :
  loop_invariant s0 s →
  (∀ lit, lit ∈ lits →
     (∃ p, (p < i)%nat ∧ trail s0 !! p = Some (- lit)) ∨
     (∃ v, var s lit = Some v ∧ Var.seen v = true)) →
  ∃ open' s', analyze_literals lits open s = Some (open', s') ∧
    loop_invariant s0 s' ∧ grows s s' ∧
    open' - open_count s' i = open - open_count s i ∧
    (∀ lit, lit ∈ lits →
       (∃ p, (p < i)%nat ∧ trail s0 !! p = Some (- lit)) →
       covered s0 s' lit).
Proof using Hcs.
  revert open s. induction lits as [| lit lits IH]; intros open s Hinv Hlits.
  - exists open, s. split; [done |]. split; [done |].
    split; [apply grows_refl |]. split; [done |].
    by intros lit ?%elem_of_nil.
  - assert (Hhead : ∃ b s1, analyze_literal lit s = Some (b, s1) ∧
              loop_invariant s0 s1 ∧ grows s s1 ∧
              open_count s1 i = open_count s i + (if b : bool then 1 else 0)).
    { destruct (Hlits lit) as [(p & Hpi & Hp) | (v & Hv & Hs)];
        [by left | |].
      - destruct (analyze_literal_inv s lit p i Hinv Hp Hpi)
          as (b & s1 & ? & ? & ? & ? & _).
        by exists b, s1.
      - exists false, s. split; [eapply analyze_literal_old; eauto |].
        split; [done |]. split; [apply grows_refl | lia]. }
    destruct Hhead as (b & s1 & Hrun & Hinv1 & Hg1 & Hcnt1).
    destruct (IH (if b then open + 1 else open) s1 Hinv1)
      as (open' & s' & Hrun' & Hinv' & Hg' & Hcnt' & Hcov').
    { intros l Hl. destruct (Hlits l) as [? | (v & Hv & Hs)];
        [by right | by left |].
      right. destruct Hg1 as [_ Hg1].
      destruct (Hg1 _ _ Hv Hs) as (v' & ? & ?). by exists v'. }
    exists open', s'. split; [| split; [done |]; split; [| split]].
    + simpl. rewrite Hrun. simpl. exact Hrun'.
    + by eapply grows_trans.
    + destruct b; lia.
    + intros l [-> | Hl]%elem_of_cons Hfalse; [| by apply Hcov'].
      destruct Hfalse as (p & Hpi & Hp).
      destruct (analyze_literal_inv s lit p i Hinv Hp Hpi)
        as (b2 & s2 & Hrun2 & _ & _ & _ & Hcov2).
      rewrite Hrun in Hrun2. injection Hrun2 as <- <-.
      eapply covered_grows; [| | exact Hg' | exact Hcov2];
        by apply li_frame.
Qed.

Lemma open_count_nonneg (s : Internal) (i : nat) : 0 ≤ open_count s i.
Proof.
  induction i as [| i IH]; simpl; [done |].
  destruct (trail s !! i) as [t |]; [| lia].
  destruct (var s t) as [v |]; [| lia].
  destruct (Var.seen v && (Var.level v =? level s)); lia.
Qed.

Lemma open_count_pos (s : Internal) (i : nat) :
  0 < open_count s i →
  ∃ q t w, (q < i)%nat ∧ trail s !! q = Some t ∧ var s t = Some w ∧
    Var.seen w = true ∧ Var.level w = level s.
Proof.
  induction i as [| i IH]; simpl; [lia |]. intros Hpos.
  destruct (trail s !! i) as [t |] eqn:Ht;
    [| destruct IH as (q & ? & ? & ? & ?); [lia | eauto 10 with lia]].
  destruct (var s t) as [v |] eqn:Hv;
    [| destruct IH as (q & ? & ? & ? & ?); [lia | eauto 10 with lia]].
  destruct (Var.seen v) eqn:Hs; simpl in Hpos;
    [| destruct IH as (q & ? & ? & ? & ?); [lia | eauto 10 with lia]].
  destruct (Z.eqb_spec (Var.level v) (level s)) as [Hl | Hl];
    [| destruct IH as (q & ? & ? & ? & ?); [lia | eauto 10 with lia]].
  exists i, t, v. eauto with lia.
Qed.

Lemma open_count_open (s : Internal) (i q : nat) (t : Z) (w : Var.t) :
  (q < i)%nat → trail s !! q = Some t → var s t = Some w →
  Var.seen w = true → Var.level w = level s → 0 < open_count s i.
Proof.
  intros Hq Ht Hw Hs Hl. induction i as [| i IH]; [lia |]. simpl.
  destruct (decide (q = i)) as [-> | Hne].
  - rewrite Ht, Hw, Hs, Hl, Z.eqb_refl. simpl.
    pose proof (open_count_nonneg s i). lia.
  - assert (0 < open_count s i) by (apply IH; lia).
    destruct (trail s !! i) as [u |]; [| lia].
    destruct (var s u) as [v |]; [| lia].
    destruct (Var.seen v && (Var.level v =? level s)); lia.
Qed.

Lemma previous_seen_spec (s : Internal) (i : nat) :
  analysis_frame s0 s → (i ≤ length (trail s0))%nat → 0 < open_count s i →
  ∃ uip j v, previous_seen s i = Some (uip, j) ∧ (j < i)%nat ∧
    trail s0 !! j = Some uip ∧ var s uip = Some v ∧ Var.seen v = true ∧
    Var.level v = level s0 ∧ open_count s i = open_count s j + 1 ∧
    (∀ q t w, (j < q < i)%nat → trail s0 !! q = Some t → var s t = Some w →
       Var.seen w = false).
Proof using Hcs.
  intros Hf. induction i as [| i IH]; intros Hi Hpos; [simpl in Hpos; lia |].
  destruct (lookup_lt_is_Some_2 (trail s0) i) as [u Hu]; [lia |].
  destruct (trail_var s i u Hf Hu) as (v0 & b & Hv0 & Hv & Hne & Htr & Hlv & Hsn).
  simpl. rewrite (af_trail _ _ Hf), Hu. simpl. rewrite Hv. simpl.
  destruct b.
  - assert (Hl : Var.level v0 = level s0).
    { destruct (open_count_pos s (S i) Hpos) as (q & t & w & Hq & Ht & Hw & Hs & Hwl).
      rewrite (af_trail _ _ Hf) in Ht. rewrite (af_level _ _ Hf) in Hwl.
      destruct (var_frame_inv s t w Hf Hw) as (w0 & Hw0 & Heq).
      assert (Var.level w0 ≤ Var.level v0).
      { eapply (cs_mono _ Hcs q i t u); [lia | done..]. }
      rewrite Heq in Hwl. simpl in Hwl. lia. }
    exists u, i, (Var.set_seen true v0).
    split; [done |]. split; [lia |]. split; [done |]. split; [done |].
    split; [done |]. split; [done |]. split.
    + simpl in *. rewrite (af_trail _ _ Hf), Hu, Hv in *. simpl.
      rewrite (af_level _ _ Hf), Hl, Z.eqb_refl. done.
    + intros q t w Hq. lia.
  - simpl in Hpos. rewrite (af_trail _ _ Hf), Hu, Hv in Hpos. simpl in Hpos.
    destruct IH as (uip & j & v & Hrun & Hj & Hjt & Hjv & Hjs & Hjl & Hcnt & Hbetween);
      [lia | lia |].
    exists uip, j, v. simpl. split; [done |]. split; [lia |].
    split; [done |]. split; [done |]. split; [done |]. split; [done |].
    split; [lia |].
    intros q t w Hq Ht Hw. destruct (decide (q = i)) as [-> | Hqi].
    + rewrite Hu in Ht. injection Ht as <-. rewrite Hv in Hw. by injection Hw as <-.
    + eapply Hbetween; [| done | done]. lia.
Qed.

Lemma clause_true_iff (M : nat → bool) (c : list Z) :
  clause_true M c = true ↔ ∃ l, l ∈ c ∧ lit_true M l = true.
Proof.
  unfold clause_true. rewrite existsb_exists.
  split; intros (l & Hl & Ht); exists l; by rewrite ?list_elem_of_In in *.
Qed.

Section Entailment.
Context (F : list (list Z)) (Himp : implied_by F s0).

(** Scanning a clause turns "the old resolvent or a literal of the clause
    is true" into "the new resolvent is true". *)
Lemma resolvent_step (M : nat → bool) (s s1 : Internal) (i : nat)
    (lits : list Z) :
  model_of M F = true →
  loop_invariant s0 s → loop_invariant s0 s1 → grows s s1 →
  (∀ lit, lit ∈ lits →
     (∃ p, (p < i)%nat ∧ trail s0 !! p = Some (- lit)) → covered s0 s1 lit) →
  (resolvent_true M s i ∨
   ∃ lit, lit ∈ lits ∧ lit_true M lit = true ∧
          ∃ p, (p < i)%nat ∧ trail s0 !! p = Some (- lit)) →
  resolvent_true M s1 i.
Proof using Hcs Himp.
  intros HM [Hf _ _] [Hf1 _ _] [Hgc Hgv] Hcov [Hres | Hlit].
  - destruct Hres as [(l & Hl & Ht) | (p & t & v & Hp & Htr & Hv & Hs & Hl & Ht)].
    + left. eauto.
    + right. destruct (Hgv _ _ Hv Hs) as (v' & Hv' & Hs').
      destruct (var_frame_inv s t v Hf Hv) as (v0 & Hv0 & Heq).
      destruct (var_frame s1 t v0 Hf1 Hv0) as [b' Hb'].
      unfold var in Hb'. rewrite Hv' in Hb'. injection Hb' as ->.
      exists p, t, (Var.set_seen b' v0).
      rewrite (af_trail _ _ Hf1), <- (af_trail _ _ Hf), (af_level _ _ Hf1),
        <- (af_level _ _ Hf).
      rewrite Heq in Hl. by repeat split.
  - destruct Hlit as (lit & Hin & Ht & p & Hp & Htr).
    destruct (Hcov lit Hin) as (v & Hv & Hc); [by eauto |].
    destruct (trail_var s1 p (- lit) Hf1 Htr)
      as (v0 & b & Hv0 & Hv1 & Hne & _).
    rewrite var_opp in Hv1. rewrite Hv in Hv1. injection Hv1 as ->.
    assert (Hfalse : lit_true M (- lit) = false).
    { rewrite <- (Z.opp_involutive lit) in Ht.
      rewrite lit_true_opp in Ht by done. by destruct (lit_true M (- lit)). }
    destruct Hc as [Hl0 | [Hc | [Hs Hl]]].
    + exfalso. pose proof (ib_root _ _ Himp p (- lit) v0 Htr Hv0 Hl0 M HM) as H.
      apply clause_true_iff in H as (l & ->%list_elem_of_singleton & H).
      congruence.
    + left. eauto.
    + right. exists p, (- lit), (Var.set_seen b v0).
      rewrite (af_trail _ _ Hf1), (af_level _ _ Hf1), var_opp.
      by repeat split.
Qed.


(** From a true resolvent at [i] to the next pivot at [j]: either a
    literal of the clause buffer is true, or a pivot at or below [j] is
    false. *)
Lemma resolvent_at_pivot (M : nat → bool) (s : Internal) (i j : nat)
    (uip : Z) :
  analysis_frame s0 s → (j < i)%nat → trail s0 !! j = Some uip →
  (∀ q t w, (j < q < i)%nat → trail s0 !! q = Some t → var s t = Some w →
     Var.seen w = false) →
  resolvent_true M s i →
  resolvent_true M s j ∨ lit_true M uip = false.
Proof.
  intros Hf Hj Hu Hbetween [Hc | (p & t & v & Hp & Ht & Hv & Hs & Hl & Hm)].
  - left. by left.
  - destruct (decide (p < j)%nat) as [Hlt | Hge].
    + left. right. by exists p, t, v.
    + destruct (decide (p = j)) as [-> | Hne].
      * right. rewrite (af_trail _ _ Hf) in Ht. congruence.
      * exfalso. rewrite (af_trail _ _ Hf) in Ht.
        assert (Var.seen v = false) by (eapply (Hbetween p); [lia | done..]).
        congruence.
Qed.

(** The loop of [analyze], entered with the clause [cl] to be scanned. *)
Lemma resolve_loop_inv (fuel : nat) :
  ∀ (r : nat) (cl : Clause.t) (open : Z) (i : nat) (s : Internal),
  (i < fuel)%nat → (i ≤ length (trail s0))%nat →
  loop_invariant s0 s →
  deref s0 r = Some cl →
  (∀ lit, lit ∈ Clause.literals cl →
     (∃ p, (p < i)%nat ∧ trail s0 !! p = Some (- lit)) ∨
     (∃ v, var s lit = Some v ∧ Var.seen v = true)) →
  open = open_count s i →
  (0 < open_count s i ∨
   ∃ lit v p, lit ∈ Clause.literals cl ∧ var s0 lit = Some v ∧
     Var.level v = level s0 ∧ (p < i)%nat ∧ trail s0 !! p = Some (- lit)) →
  (∀ M, model_of M F = true →
     resolvent_true M s i ∨
     ∃ lit, lit ∈ Clause.literals cl ∧ lit_true M lit = true ∧
            ∃ p, (p < i)%nat ∧ trail s0 !! p = Some (- lit)) →
  ∃ uip s' v, resolve_loop fuel (Some r) open i s = Some (uip, s') ∧
    loop_invariant s0 s' ∧
    var s0 uip = Some v ∧ Var.level v = level s0 ∧ uip ∈ trail s0 ∧
    (∀ M, model_of M F = true →
       (∃ l, l ∈ clause s' ∧ lit_true M l = true) ∨ lit_true M uip = false).
Proof using Hcs Himp.
  induction fuel as [| fuel IH];
    intros r cl open i s Hfuel Hi Hinv Hcl Hlits Hopen Hsome Hent; [lia |].
  pose proof (li_frame _ _ Hinv) as Hf.
  destruct (analyze_literals_inv (Clause.literals cl) open s i Hinv Hlits)
    as (open' & s1 & Hrun1 & Hinv1 & Hg & Hcnt & Hcov).
  pose proof (li_frame _ _ Hinv1) as Hf1.
  assert (Hopen' : open' = open_count s1 i) by lia.
  assert (Hpos : 0 < open_count s1 i).
  { destruct Hsome as [Hpos | (lit & v & p & Hin & Hv & Hl & Hp & Htr)].
    - destruct (open_count_pos s i Hpos) as (q & t & w & Hq & Ht & Hw & Hs & Hwl).
      destruct Hg as [_ Hgv]. destruct (Hgv _ _ Hw Hs) as (w' & Hw' & Hs').
      destruct (var_frame_inv s t w Hf Hw) as (w0 & Hw0 & Heq).
      destruct (var_frame_inv s1 t w' Hf1 Hw') as (w0' & Hw0' & Heq').
      assert (w0' = w0) as -> by congruence.
      eapply (open_count_open s1 i q t w'); [done | | done | done |].
      + by rewrite (af_trail _ _ Hf1), <- (af_trail _ _ Hf).
      + rewrite (af_level _ _ Hf1), <- (af_level _ _ Hf), <- Hwl, Heq, Heq'.
        done.
    - destruct (Hcov lit Hin) as (w & Hw & Hc); [by eauto |].
      destruct (var_frame_inv s1 lit w Hf1 Hw) as (w0 & Hw0 & Heq).
      assert (w0 = v) as -> by congruence.
      assert (Hwl : Var.level w = level s0) by (by rewrite Heq).
      pose proof (cs_level _ Hcs).
      destruct Hc as [? | [Hc | [Hs _]]]; [lia | |].
      + pose proof (li_clause _ _ Hinv1) as Hall.
        rewrite Forall_forall in Hall.
        destruct (Hall lit Hc) as (v' & Hv' & Hlt).
        assert (v' = v) as -> by congruence. lia.
      + eapply (open_count_open s1 i p (- lit) w); [done | | | done |].
        * by rewrite (af_trail _ _ Hf1).
        * by rewrite var_opp.
        * by rewrite (af_level _ _ Hf1). }
  destruct (previous_seen_spec s1 i Hf1 Hi Hpos)
    as (uip & j & v & Hprev & Hj & Hjt & Hjv & Hjs & Hjl & Hjc & Hbetween).
  destruct (var_frame_inv s1 uip v Hf1 Hjv) as (v0 & Hv0 & Heq).
  assert (Hres : ∀ M, model_of M F = true →
            resolvent_true M s1 j ∨ lit_true M uip = false).
  { intros M HM.
    eapply (resolvent_at_pivot M s1 i j); [done..|].
    eapply (resolvent_step M s s1 i); eauto. }
  simpl. unfold deref in *. rewrite (af_clauses _ _ Hf), Hcl. simpl.
  rewrite Hrun1. simpl. rewrite Hprev. simpl.
  destruct (Z.eqb_spec (open' - 1) 0) as [Hz | Hnz].
  - exists uip, s1, v0. split; [done |]. split; [done |].
    split; [done |]. split; [by rewrite Heq in Hjl |].
    split; [by eapply list_elem_of_lookup_2 |].
    intros M HM. destruct (Hres M HM) as [[Hc | Ho] | Hu]; [by left | | by right].
    exfalso. destruct Ho as (p & t & w & Hp & Ht & Hw & Hs & Hl & _).
    pose proof (open_count_open s1 j p t w Hp Ht Hw Hs Hl). lia.
  - rewrite Hjv. simpl.
    assert (Hpos' : 0 < open_count s1 j).
    { pose proof (open_count_nonneg s1 j). lia. }
    pose proof (cs_reason _ Hcs j uip v0 Hjt Hv0) as Hreason.
    rewrite Heq. simpl.
    destruct (Var.reason v0) as [r' |].
    + destruct Hreason as (cl' & Hcl' & Hlits').
      destruct (IH r' cl' (open' - 1) j s1) as (uip' & s' & v' & Hrun' & Hpost);
        [lia | lia | done | done | | lia | by left | | ].
      * intros lit Hin. destruct (Hlits' lit Hin) as [-> | ?]; [| by left].
        right. by exists v.
      * intros M HM. destruct (Hres M HM) as [? | Hu]; [by left |].
        right. pose proof (ib_clauses _ _ Himp r' cl' Hcl' M HM) as Hcl'true.
        apply clause_true_iff in Hcl'true as (lit & Hin & Ht).
        exists lit. split; [done |]. split; [done |].
        destruct (Hlits' lit Hin) as [-> | ?]; [congruence | done].
      * by exists uip', s', v'.
    + exfalso.
      destruct (open_count_pos s1 j Hpos') as (q & t & w & Hq & Ht & Hw & Hs & Hwl).
      destruct (var_frame_inv s1 t w Hf1 Hw) as (w0 & Hw0 & Heqw).
      rewrite (af_trail _ _ Hf1) in Ht. rewrite (af_level _ _ Hf1) in Hwl.
      rewrite Heq in Hjl. rewrite Heqw in Hwl. simpl in *.
      pose proof (cs_level _ Hcs).
      destruct Hreason as [? | Hdec]; [lia |].
      pose proof (Hdec q t w0 Hq Ht Hw0). lia.
Qed.

End Entailment.

Lemma open_count_unseen (i : nat) : open_count s0 i = 0.
Proof using Hcs.
  pose proof (open_count_nonneg s0 i).
  destruct (decide (0 < open_count s0 i)) as [Hpos |]; [| lia].
  destruct (open_count_pos s0 i Hpos) as (q & t & w & _ & Ht & Hw & Hs & _).
  destruct (cs_trail _ Hcs _ _ Ht) as (_ & v & Hv & _ & _ & Hsn). congruence.
Qed.

Lemma loop_invariant_start (s : Internal) :
  trail s = trail s0 → level s = level s0 → clauses s = clauses s0 →
  control s = control s0 → vtab s = vtab s0 → clause s = clause s0 →
  loop_invariant s0 s.
Proof using Hcs.
  intros Htr Hlv Hcls Hctl Hvt Hcl. split.
  - split; try done; try congruence.
    intros idx v0 Hv0. exists (Var.seen v0). rewrite Hvt. by destruct v0.
  - intros p t v Hp Hv Hs. destruct (cs_trail _ Hcs _ _ Hp) as (_ & v' & Hv' & _ & _ & Hsn).
    unfold var in *. rewrite Hvt in Hv. congruence.
  - rewrite Hcl, (cs_clause _ Hcs). constructor.
Qed.

(** The first-UIP clause, as [first_uip_clause] leaves it in the buffer. *)
Lemma first_uip_clause_inv (F : list (list Z)) :
  implied_by F s0 →
  ∃ uip s' buf v, first_uip_clause s0 = Some (uip, s') ∧
    analysis_frame s0 s' ∧
    clause s' = buf ++ [- uip] ∧ uip ≠ 0 ∧
    var s0 uip = Some v ∧ Var.level v = level s0 ∧
    Forall (λ l, ∃ w, var s0 l = Some w ∧ 0 < Var.level w < level s0) buf ∧
    (∀ M, model_of M F = true →
       (∃ l, l ∈ buf ∧ lit_true M l = true) ∨ lit_true M uip = false).
Proof using Hcs.
  intros Himp.
  destruct (cs_conflict _ Hcs) as (c & cl & Hc & Hcl & Hfalse & lit & v & Hin & Hv & Hl).
  assert (Hres : ∃ s, resolve_clause c s0 = Some s ∧ trail s = trail s0 ∧
            level s = level s0 ∧ clauses s = clauses s0 ∧
            control s = control s0 ∧ vtab s = vtab s0 ∧ clause s = clause s0).
  { unfold resolve_clause. rewrite Hcl. simpl.
    destruct (negb _); [by exists s0 |].
    destruct (_ <=? _); [by exists s0 |].
    destruct (_ <=? _); [by exists s0 |]. by eexists. }
  destruct Hres as (s & Hrun & Htr & Hlv & Hcls & Hctl & Hvt & Hcla).
  pose proof (loop_invariant_start s Htr Hlv Hcls Hctl Hvt Hcla) as Hinv.
  assert (Hcnt : ∀ i, open_count s i = 0).
  { intros i. rewrite <- (open_count_unseen i).
    induction i as [| i IH]; simpl; [done |].
    unfold var. by rewrite IH, Htr, Hvt, Hlv. }
  assert (Hlits : ∀ l, l ∈ Clause.literals cl →
            ∃ p, (p < length (trail s0))%nat ∧ trail s0 !! p = Some (- l)).
  { intros l Hl'. destruct (Hfalse l Hl') as [p Hp]. exists p.
    split; [by eapply lookup_lt_Some | done]. }
  destruct (resolve_loop_inv F Himp (S (length (trail s0))) c cl 0
              (length (trail s0)) s)
    as (uip & s' & vu & Hloop & Hinv' & Hvu & Hlu & Hut & Hent);
    [lia | lia | done | done | | by rewrite Hcnt | | |].
  - intros l Hl'. left. by apply Hlits.
  - right. destruct (Hlits lit Hin) as (p & Hp & Hpt). by exists lit, v, p.
  - intros M HM. right.
    pose proof (ib_clauses _ _ Himp c cl Hcl M HM) as Ht.
    apply clause_true_iff in Ht as (l & Hl' & Ht). exists l. eauto.
  - apply list_elem_of_lookup_1 in Hut as [j Hj].
    destruct (cs_trail _ Hcs _ _ Hj) as (Hne & _).
    exists uip, (set_clause (clause s' ++ [- uip]) s'), (clause s'), vu.
    split; [| split; [| split; [done |]; split; [done |]; split; [done |];
                        split; [done |]; split]].
    + unfold first_uip_clause. rewrite Hc. cbn [mbind option_bind].
      rewrite Hrun. cbn [mbind option_bind]. rewrite Htr, Hloop. done.
    + destruct (li_frame _ _ Hinv'). by split.
    + apply (li_clause _ _ Hinv').
    + done.
Qed.

End Loop.

(** C1: when a conflict is analyzed above the root level, in a state
    whose arena clauses and root-level assignments follow from the formula
    [F], the resolution loop terminates and the clause it leaves in the
    buffer, the literals collected by [analyze_literal] followed by the
    negated first UIP, is entailed by [F]. *)
Theorem learned_clause_sound (F : list (list Z)) (s : Internal) :
  conflict_state s → implied_by F s →
  ∃ uip s' buf,
    first_uip_clause s = Some (uip, s') ∧
    clause s' = buf ++ [- uip] ∧
    entails F (clause s').
Proof.
  intros Hcs Himp.
  destruct (first_uip_clause_inv s Hcs F Himp)
    as (uip & s' & buf & v & Hrun & _ & Hcl & Hne & _ & _ & _ & Hent).
  exists uip, s', buf. split; [done |]. split; [done |].
  intros M HM. rewrite Hcl. apply clause_true_iff.
  destruct (Hent M HM) as [(l & Hl & Ht) | Hu].
  - exists l. split; [| done]. apply elem_of_app. by left.
  - exists (- uip). split.
    + apply elem_of_app. right. by apply list_elem_of_singleton.
    + rewrite lit_true_opp by done. by rewrite Hu.
Qed.

(** C2: when a conflict is analyzed above the root level, the clause left
    in the buffer ends with the negation of the first UIP, whose variable
    was assigned at the current decision level, and every literal before
    it was assigned at a level strictly below the current one (and above
    the root level); the analysis does not change the level of any
    variable. *)
Theorem first_uip_unique (s : Internal) :
  conflict_state s →
  ∃ uip s' buf v,
    first_uip_clause s = Some (uip, s') ∧
    clause s' = buf ++ [- uip] ∧
    var s (- uip) = Some v ∧ Var.level v = level s ∧
    Forall (λ l, ∃ w, var s l = Some w ∧ 0 < Var.level w < level s) buf ∧
    level s' = level s ∧
    (∀ lit, Var.level <$> var s' lit = Var.level <$> var s lit).
Proof.
  intros Hcs.
  assert (Himp : implied_by [[]] s) by (by split).
  destruct (first_uip_clause_inv s Hcs [[]] Himp)
    as (uip & s' & buf & v & Hrun & Hf & Hcl & _ & Hv & Hl & Hbuf & _).
  exists uip, s', buf, v. rewrite var_opp.
  repeat (split; [done |]). split; [apply (af_level _ _ Hf) |].
  intros lit. destruct (var s lit) as [v0 |] eqn:Hv0.
  - destruct (var_frame s s' lit v0 Hf Hv0) as [b ->]. done.
  - unfold var in *. apply lookup_ge_None in Hv0.
    rewrite (proj2 (lookup_ge_None _ _)); [done |].
    rewrite (af_vtab_length _ _ Hf). done.
Qed.

Lemma previous_seen_lt (s : Internal) (i j : nat) (uip : Z) :
  previous_seen s i = Some (uip, j) → (j < i)%nat.
Proof.
  induction i as [| i IH]; simpl; [done |].
  destruct (trail s !! i) as [t |]; simpl; [| done].
  destruct (var s t) as [v |]; simpl; [| done].
  destruct (Var.seen v).
  - intros [= _ <-]. lia.
  - intros H. apply IH in H. lia.
Qed.

(** The bound on the rounds of the loop is never what ends it: once the
    fuel exceeds the index of the iterator, more fuel changes nothing. *)
Lemma resolve_loop_fuel (fuel : nat) :
  ∀ (fuel' : nat) (reason : option nat) (open : Z) (i : nat) (s : Internal),
  (i < fuel)%nat → (i < fuel')%nat →
  resolve_loop fuel reason open i s = resolve_loop fuel' reason open i s.
Proof.
  induction fuel as [| fuel IH]; intros fuel' reason open i s Hf Hf'; [lia |].
  destruct fuel' as [| fuel']; [lia |]. simpl.
  destruct reason as [r |]; simpl; [| done].
  destruct (deref s r) as [c |]; simpl; [| done].
  destruct (analyze_literals (Clause.literals c) open s) as [[open' s1] |];
    simpl; [| done].
  destruct (previous_seen s1 i) as [[uip j] |] eqn:Hprev; simpl; [| done].
  apply previous_seen_lt in Hprev.
  destruct (open' - 1 =? 0); [done |].
  destruct (var s1 uip) as [v |]; simpl; [| done].
  apply IH; lia.
Qed.

Lemma entails_member (F : list (list Z)) (c : list Z) : c ∈ F → entails F c.
Proof.
  intros Hc M HM. unfold model_of in HM. rewrite forallb_forall in HM.
  apply HM. by apply list_elem_of_In.
Qed.

Lemma sample_conflict_state : conflict_state Sample.at_level_3.
Proof.
  split.
  - done.
  - intros p t. do 5 (destruct p as [| p];
      [intros [= <-]; split; [done |]; eexists; by repeat split |]).
    done.
  - intros p q t u vt vu Hpq.
    do 5 (destruct p as [| p];
      [ do 5 (destruct q as [| q];
          [intros [= <-] [= <-] [= <-] [= <-]; simpl; lia |]); done |]).
    done.
  - intros l Hl. assert (l = 0 ∨ l = 1 ∨ l = 2 ∨ l = 3) as [-> | [-> | [-> | ->]]] by (simpl in Hl; lia);
      by eexists.
  - done.
  - exists 0%nat, (Clause.mk false false 3 0 0 [-3; -4; -5]).
    split; [done |]. split; [done |]. split.
    + intros lit Hlit. repeat (apply elem_of_cons in Hlit as [-> | Hlit]);
        [by exists 3%nat | by exists 4%nat | by exists 0%nat |].
      by apply elem_of_nil in Hlit.
    + exists (-3), (Sample.assigned_var 3 3 None (Some 2%nat) (Some 4%nat)).
      split; [| done]. apply elem_of_cons. by left.
  - intros p t v.
    destruct p as [| [| [| [| [| p]]]]]; [.. | done];
      intros [= <-] [= <-]; simpl.
    + by left.
    + right. intros q u vu Hq. destruct q as [| q]; [| lia].
      intros [= <-] [= <-]. simpl. lia.
    + right. intros q u vu Hq.
      do 2 (destruct q as [| q]; [intros [= <-] [= <-]; simpl; lia |]). lia.
    + right. intros q u vu Hq.
      do 3 (destruct q as [| q]; [intros [= <-] [= <-]; simpl; lia |]). lia.
    + eexists. split; [done |]. intros lit Hlit. simpl in Hlit.
      repeat (apply elem_of_cons in Hlit as [-> | Hlit]);
        [by left | right; exists 1%nat; split; [lia | done]
         | right; exists 2%nat; split; [lia | done]
         | right; exists 3%nat; split; [lia | done] |].
      by apply elem_of_nil in Hlit.
Qed.

Lemma sample_implied : implied_by Sample_formula Sample.at_level_3.
Proof.
  split.
  - intros c cl. do 2 (destruct c as [| c];
      [intros [= <-]; apply entails_member; simpl;
       repeat first [by apply list_elem_of_here | apply list_elem_of_further] |]).
    done.
  - intros p t v.
    destruct p as [| [| [| [| [| p]]]]]; [.. | done];
      intros [= <-] [= <-]; simpl; intros ?; try done.
    apply entails_member. unfold Sample_formula.
    repeat first [by apply list_elem_of_here | apply list_elem_of_further].
Qed.

(** The first-UIP clause of the sample conflict follows from the sample
    formula. *)
Lemma learned_clause_sound_witness :
  ∃ uip s' buf,
    first_uip_clause Sample.at_level_3 = Some (uip, s') ∧
    clause s' = buf ++ [- uip] ∧
    entails Sample_formula (clause s').
Proof.
  exact (learned_clause_sound Sample_formula Sample.at_level_3
           sample_conflict_state sample_implied).
Defined.

(** The levels of the first-UIP clause of the sample conflict. *)
Lemma first_uip_unique_witness :
  ∃ uip s' buf v,
    first_uip_clause Sample.at_level_3 = Some (uip, s') ∧
    clause s' = buf ++ [- uip] ∧
    var Sample.at_level_3 (- uip) = Some v ∧ Var.level v = 3 ∧
    Forall (λ l, ∃ w, var Sample.at_level_3 l = Some w ∧
                     0 < Var.level w < 3) buf ∧
    level s' = 3 ∧
    (∀ lit, Var.level <$> var s' lit = Var.level <$> var Sample.at_level_3 lit).
Proof.
  exact (first_uip_unique Sample.at_level_3 sample_conflict_state).
Defined.

(** ** The VMTF queue *)

Lemma linked_app (vt : list Var.t) (q1 q2 : list nat) (p n : option nat) :
  linked vt p (q1 ++ q2) n ↔
  linked vt p q1 (match q2 with [] => n | y :: _ => Some y end) ∧
  linked vt (match last q1 with Some y => Some y | None => p end) q2 n.
Proof.
  revert p. induction q1 as [| x q1 IH]; intros p; simpl.
  - split; [by intros ? | by intros [_ ?]].
  - rewrite last_cons.
    assert (Hlast : match match last q1 with Some y => Some y | None => Some x end
                    with Some y => Some y | None => p end =
                    match last q1 with Some y => Some y | None => Some x end)
      by (by destruct (last q1)).
    rewrite Hlast. split.
    + intros (v & Hv & Hp & Hn & Hl). apply IH in Hl as [Hl1 Hl2].
      split; [| done]. exists v. repeat split; try done.
      by destruct q1.
    + intros [(v & Hv & Hp & Hn & Hl1) Hl2].
      exists v. repeat split; try done; [by destruct q1 |].
      apply IH. done.
Qed.

Lemma linked_frame (vt vt' : list Var.t) (q : list nat) (p n : option nat) :
  (∀ x v, x ∈ q → vt !! x = Some v →
     ∃ v', vt' !! x = Some v' ∧ Var.prev v' = Var.prev v ∧
           Var.next v' = Var.next v) →
  linked vt p q n → linked vt' p q n.
Proof.
  revert p. induction q as [| x q IH]; intros p Hsame; simpl; [done |].
  intros (v & Hv & Hp & Hn & Hl).
  destruct (Hsame x v) as (v' & Hv' & Hp' & Hn'); [by left | done |].
  exists v'. repeat split; try congruence.
  apply IH; [| done]. intros y w Hy. apply Hsame. by right.
Qed.

Lemma linked_insert_other (vt : list Var.t) (q : list nat) (p n : option nat)
    (y : nat) (w : Var.t) :
  y ∉ q → linked vt p q n → linked (<[y := w]> vt) p q n.
Proof.
  intros Hy. apply linked_frame. intros x v Hx Hv. exists v.
  rewrite list_lookup_insert_ne by (by intros ->). done.
Qed.

Lemma linked_set_end (vt : list Var.t) (q : list nat) (y : nat)
    (p n n' : option nat) (v : Var.t) :
  y ∉ q → linked vt p (q ++ [y]) n → vt !! y = Some v →
  linked (<[y := Var.set_next n' v]> vt) p (q ++ [y]) n'.
Proof.
  intros Hy Hl Hv. apply linked_app in Hl as [Hl1 Hl2]. apply linked_app.
  split; [by apply linked_insert_other |].
  destruct Hl2 as (v' & Hv' & Hp & _). simpl.
  exists (Var.set_next n' v).
  rewrite list_lookup_insert_eq by (by eapply lookup_lt_Some).
  repeat split. simpl. congruence.
Qed.

Lemma linked_set_start (vt : list Var.t) (q : list nat) (y : nat)
    (p p' n : option nat) (v : Var.t) :
  y ∉ q → linked vt p (y :: q) n → vt !! y = Some v →
  linked (<[y := Var.set_prev p' v]> vt) p' (y :: q) n.
Proof.
  intros Hy (v' & Hv' & Hp & Hn & Hl) Hv. simpl.
  exists (Var.set_prev p' v).
  rewrite list_lookup_insert_eq by (by eapply lookup_lt_Some).
  repeat split; [simpl; congruence |]. by apply linked_insert_other.
Qed.

Lemma linked_lookup (vt : list Var.t) (q1 q2 : list nat) (x : nat)
    (p n : option nat) :
  linked vt p (q1 ++ x :: q2) n →
  ∃ v, vt !! x = Some v ∧
    Var.prev v = match last q1 with Some y => Some y | None => p end ∧
    Var.next v = match q2 with [] => n | y :: _ => Some y end.
Proof.
  intros [_ (v & Hv & Hp & Hn & _)]%linked_app. by exists v.
Qed.

Lemma update_var_Some (y : nat) (f : Var.t → Var.t) (s : Internal) (w : Var.t) :
  vtab s !! y = Some w →
  update_var y f s = Some (set_vtab (<[y := f w]> (vtab s)) s).
Proof. intros Hw. unfold update_var. by rewrite Hw. Qed.

Lemma relinked_refl (vt : list Var.t) : relinked vt vt.
Proof.
  split; [done |]. intros y w Hw. exists (Var.prev w), (Var.next w).
  by destruct w.
Qed.

Lemma relinked_trans (vt1 vt2 vt3 : list Var.t) :
  relinked vt1 vt2 → relinked vt2 vt3 → relinked vt1 vt3.
Proof.
  intros [Hl1 H1] [Hl2 H2]. split; [congruence |]. intros y w Hw.
  destruct (H1 y w Hw) as (p & n & Hw2).
  destruct (H2 y _ Hw2) as (p' & n' & Hw3). by exists p', n'.
Qed.

Lemma relinked_set_prev (vt : list Var.t) (y : nat) (w : Var.t) (p : option nat) :
  vt !! y = Some w → relinked vt (<[y := Var.set_prev p w]> vt).
Proof.
  intros Hw. split; [by rewrite length_insert |]. intros z u Hu.
  destruct (decide (z = y)) as [-> | Hne].
  - rewrite list_lookup_insert_eq by (by eapply lookup_lt_Some).
    exists p, (Var.next w). assert (u = w) as -> by congruence. done.
  - rewrite list_lookup_insert_ne by done. by apply relinked_refl.
Qed.

Lemma relinked_set_next (vt : list Var.t) (y : nat) (w : Var.t) (n : option nat) :
  vt !! y = Some w → relinked vt (<[y := Var.set_next n w]> vt).
Proof.
  intros Hw. split; [by rewrite length_insert |]. intros z u Hu.
  destruct (decide (z = y)) as [-> | Hne].
  - rewrite list_lookup_insert_eq by (by eapply lookup_lt_Some).
    exists (Var.prev w), n. assert (u = w) as -> by congruence. done.
  - rewrite list_lookup_insert_ne by done. by apply relinked_refl.
Qed.

Lemma NoDup_middle (q1 q2 : list nat) (x : nat) :
  NoDup (q1 ++ x :: q2) →
  NoDup (q1 ++ q2) ∧ (x ∉ q1) ∧ (x ∉ q2) ∧ (∀ y, y ∈ q1 → y ∉ q2).
Proof.
  intros Hnd. apply NoDup_app in Hnd as (H1 & H12 & Hnd).
  apply NoDup_cons in Hnd as [Hx H2].
  split; [| split; [| split]].
  - apply NoDup_app. split; [done |]. split; [| done].
    intros y Hy Hy2. apply (H12 y Hy). by right.
  - intros Hx1. apply (H12 x Hx1). by left.
  - done.
  - intros y Hy Hy2. apply (H12 y Hy). by right.
Qed.

Lemma dequeue_spec (s : Internal) (q1 q2 : list nat) (x : nat) :
  NoDup (q1 ++ x :: q2) →
  linked (vtab s) None (q1 ++ x :: q2) None →
  Queue.first (queue s) = head (q1 ++ x :: q2) →
  Queue.last (queue s) = last (q1 ++ x :: q2) →
  ∃ s', dequeue x s = Some s' ∧
    linked (vtab s') None (q1 ++ q2) None ∧
    Queue.first (queue s') = head (q1 ++ q2) ∧
    Queue.last (queue s') = last (q1 ++ q2) ∧
    Queue.assigned (queue s') = Queue.assigned (queue s) ∧
    relinked (vtab s) (vtab s') ∧
    vtab s' !! x = vtab s !! x ∧
    (∀ y, y ∉ q1 ++ q2 → vtab s' !! y = vtab s !! y) ∧
    s' = set_queue (queue s') (set_vtab (vtab s') s).
Proof.
  intros Hnd Hl Hfirst Hlast.
  destruct (NoDup_middle _ _ _ Hnd) as (Hnd' & Hx1 & Hx2 & H12).
  destruct (linked_lookup _ _ _ _ _ _ Hl) as (v & Hv & Hp & Hn).
  apply linked_app in Hl as [Hl1 (_ & _ & _ & _ & Hl2)].
  unfold dequeue. rewrite Hv. cbn [mbind option_bind].
  (* the part of the queue before the variable *)
  assert (Hstep1 : ∃ s1,
    match Var.prev v with
    | Some p => update_var p (Var.set_next (Var.next v)) s
    | None => Some (set_queue (Queue.set_first (Var.next v) (queue s)) s)
    end = Some s1 ∧
    linked (vtab s1) None q1 (Var.next v) ∧
    linked (vtab s1) (Some x) q2 None ∧
    Queue.first (queue s1) = head (q1 ++ q2) ∧
    Queue.last (queue s1) = Queue.last (queue s) ∧
    Queue.assigned (queue s1) = Queue.assigned (queue s) ∧
    relinked (vtab s) (vtab s1) ∧ vtab s1 !! x = Some v ∧
    (∀ y, y ∉ q1 ++ q2 → vtab s1 !! y = vtab s !! y) ∧
    s1 = set_queue (queue s1) (set_vtab (vtab s1) s)).
  { destruct q1 as [| p q1 _] using rev_ind.
    - simpl in Hp. rewrite Hp. eexists. split; [done |]. simpl.
      split; [done |]. split; [done |]. split; [by rewrite Hn; destruct q2 |].
      split; [done |]. split; [done |]. split; [apply relinked_refl |].
      split; [done |]. split; [done |]. by destruct s.
    - rewrite last_snoc in Hp. rewrite Hp.
      destruct (linked_lookup _ _ _ _ _ _ Hl1) as (w & Hw & _).
      rewrite (update_var_Some p _ s w Hw). eexists. split; [done |]. simpl.
      assert (Hpx : p ≠ x).
      { intros ->. apply Hx1. apply elem_of_app. right.
        by apply list_elem_of_singleton. }
      assert (Hp2 : p ∉ q2).
      { apply H12. apply elem_of_app. right. by apply list_elem_of_singleton. }
      split.
      { eapply linked_set_end; [| done | done].
        intros Hin. apply NoDup_app in Hnd as (Hnd & _ & _).
        apply NoDup_app in Hnd as (_ & Hd & _).
        apply (Hd p Hin). by apply list_elem_of_singleton. }
      split; [by apply linked_insert_other |].
      split. { rewrite Hfirst. rewrite <- !app_assoc. by destruct q1. }
      split; [done |]. split; [done |].
      split; [by apply relinked_set_next |].
      split; [by rewrite list_lookup_insert_ne |].
      split; [| by destruct s].
      intros y Hy. rewrite list_lookup_insert_ne; [done |].
      intros <-. apply Hy. apply elem_of_app. left. apply elem_of_app. right.
      by apply list_elem_of_singleton. }
  destruct Hstep1 as (s1 & -> & Hl1' & Hl2' & Hf1 & Hla1 & Ha1 & Hr1 & Hv1
                      & Ho1 & Hs1).
  cbn [mbind option_bind]. rewrite Hv1. cbn [mbind option_bind].
  destruct q2 as [| n q2].
  - rewrite Hn. eexists. split; [done |]. simpl.
    rewrite app_nil_r in *. split; [by rewrite Hn in Hl1' |].
    split; [done |]. split.
    { rewrite Hp. by destruct (last q1). }
    split; [done |]. split; [done |]. split; [by rewrite Hv1 |].
    split; [done |]. rewrite Hs1. by destruct s.
  - rewrite Hn.
    destruct Hl2' as (w & Hw & Hwp & Hwn & Hl2').
    rewrite (update_var_Some n _ s1 w Hw). eexists. split; [done |]. simpl.
    assert (Hnx : n ≠ x).
    { intros ->. apply Hx2. by left. }
    assert (Hn1 : n ∉ q1).
    { intros Hin. apply (H12 n Hin). by left. }
    assert (Hn2 : n ∉ q2).
    { apply NoDup_app in Hnd' as (_ & _ & Hnd').
      by apply NoDup_cons in Hnd' as [? _]. }
    split.
    { apply linked_app. split.
      - apply linked_insert_other; [done |]. by rewrite Hn in Hl1'.
      - rewrite <- Hp. eapply linked_set_start; [done | | done].
        exists w. by repeat split. }
    split; [done |]. split.
    { rewrite Hla1, Hlast. rewrite !last_app. simpl. by rewrite !last_cons. }
    split; [done |]. split.
    { eapply relinked_trans; [exact Hr1 |]. by apply relinked_set_prev. }
    split; [by rewrite list_lookup_insert_ne, Hv1 |].
    split; [| rewrite Hs1; by destruct s].
    intros y Hy. rewrite list_lookup_insert_ne; [by apply Ho1 |].
    intros <-. apply Hy. apply elem_of_app. right. by left.
Qed.

Lemma enqueue_spec (s : Internal) (q : list nat) (x : nat) (v : Var.t) :
  NoDup q → x ∉ q →
  linked (vtab s) None q None →
  Queue.first (queue s) = head q →
  Queue.last (queue s) = last q →
  vtab s !! x = Some v →
  ∃ s', enqueue x s = Some s' ∧
    linked (vtab s') None (q ++ [x]) None ∧
    Queue.first (queue s') = head (q ++ [x]) ∧
    Queue.last (queue s') = Some x ∧
    Queue.assigned (queue s') = Queue.assigned (queue s) ∧
    relinked (vtab s) (vtab s') ∧
    vtab s' !! x = Some (Var.set_next None (Var.set_prev (last q) v)) ∧
    (∀ y, y ∉ q ++ [x] → vtab s' !! y = vtab s !! y) ∧
    s' = set_queue (queue s') (set_vtab (vtab s') s).
Proof.
  intros Hnd Hx Hl Hfirst Hlast Hv. unfold enqueue.
  rewrite (update_var_Some x _ s v Hv). cbn [mbind option_bind].
  rewrite Hlast.
  assert (Hlen : (x < length (vtab s))%nat) by (by eapply lookup_lt_Some).
  destruct q as [| l q _] using rev_ind.
  - simpl. unfold update_var. simpl.
    rewrite list_lookup_insert_eq by done. simpl.
    eexists. split; [done |]. simpl.
    rewrite list_insert_insert_eq.
    rewrite list_lookup_insert_eq by done.
    split; [by eexists |]. split; [done |]. split; [done |].
    split; [done |]. split.
    { split; [by rewrite length_insert |]. intros y w Hw.
      destruct (decide (y = x)) as [-> | Hne].
      - rewrite list_lookup_insert_eq by done.
        assert (w = v) as -> by congruence. by exists None, None.
      - rewrite list_lookup_insert_ne by done. by apply relinked_refl. }
    split; [done |]. split; [| reflexivity].
    intros y Hy. rewrite list_lookup_insert_ne; [done |].
    intros <-. apply Hy. by left.
  - rewrite last_snoc. cbn [mbind option_bind].
    assert (Hlx : l ≠ x).
    { intros ->. apply Hx. apply elem_of_app. right.
      by apply list_elem_of_singleton. }
    destruct (linked_lookup _ _ _ _ _ _ Hl) as (w & Hw & _).
    unfold update_var. simpl.
    rewrite list_lookup_insert_ne by done. rewrite Hw. simpl.
    rewrite list_lookup_insert_ne by done.
    rewrite list_lookup_insert_eq by done. simpl.
    eexists. split; [done |]. simpl.
    rewrite list_lookup_insert_eq
      by (by rewrite !length_insert).
    split.
    { apply linked_app. split.
      - apply linked_insert_other; [done |].
        eapply linked_set_end.
        + intros Hin. apply NoDup_app in Hnd as (_ & Hd & _).
          apply (Hd l Hin). by apply list_elem_of_singleton.
        + by apply linked_insert_other.
        + by rewrite list_lookup_insert_ne.
      - rewrite last_snoc. simpl. eexists.
        rewrite list_lookup_insert_eq by (by rewrite !length_insert).
        by repeat split. }
    split; [rewrite Hfirst; by destruct q |]. split; [done |].
    split; [done |]. split.
    { split; [by rewrite !length_insert |]. intros y u Hu.
      destruct (decide (y = x)) as [-> | Hne].
      - rewrite list_lookup_insert_eq by (by rewrite !length_insert).
        assert (u = v) as -> by congruence. by exists (Some l), None.
      - rewrite list_lookup_insert_ne by done.
        destruct (decide (y = l)) as [-> | Hnl].
        + rewrite list_lookup_insert_eq by (by rewrite length_insert;
            eapply lookup_lt_Some).
          assert (u = w) as -> by congruence.
          exists (Var.prev w), (Some x). by destruct w.
        + rewrite !list_lookup_insert_ne by done. by apply relinked_refl. }
    split; [done |]. split; [| reflexivity].
    intros y Hy. rewrite !list_lookup_insert_ne; [done | | |];
      intros <-; apply Hy; rewrite !elem_of_app, !list_elem_of_singleton;
      auto.
Qed.

Lemma rescore_from_spec (d : float) (n : nat) :
  ∀ (idx : nat) (vt : list Var.t), (idx + n ≤ length vt)%nat →
  ∃ vt', rescore_from d idx n vt = Some vt' ∧ length vt' = length vt ∧
    ∀ y, vt' !! y =
         if bool_decide (idx ≤ y < idx + n)%nat
         then (λ v, Var.set_score (Var.score v / d)%float v) <$> vt !! y
         else vt !! y.
Proof.
  induction n as [| n IH]; intros idx vt Hlen; simpl.
  - exists vt. split; [done |]. split; [done |]. intros y.
    by rewrite bool_decide_eq_false_2 by lia.
  - destruct (lookup_lt_is_Some_2 vt idx) as [v Hv]; [lia |].
    unfold rescore_var. rewrite Hv. simpl.
    destruct (IH (S idx) (<[idx := Var.set_score (Var.score v / d)%float v]> vt))
      as (vt' & Hrun & Hlen' & Hvt'); [rewrite length_insert; lia |].
    exists vt'. split; [done |]. split; [by rewrite Hlen', length_insert |].
    intros y. rewrite Hvt'.
    destruct (decide (y = idx)) as [-> | Hne].
    + rewrite (bool_decide_eq_false_2 (S idx ≤ idx < _)%nat) by lia.
      rewrite (bool_decide_eq_true_2 (idx ≤ idx < _)%nat) by lia.
      rewrite list_lookup_insert_eq by lia. by rewrite Hv.
    + rewrite list_lookup_insert_ne by done.
      apply (f_equal (λ b : bool, if b then _ else _)).
      apply bool_decide_ext. lia.
Qed.

(** What [rescore] does when [max_var] is within the table. *)
Lemma rescore_spec (s : Internal) :
  (Z.to_nat (max_var s) < length (vtab s))%nat →
  ∃ s', rescore s = Some s' ∧
    scinc s' = 1%float ∧
    stats s' = Stats.set_rescored (Stats.rescored (stats s) + 1) (stats s) ∧
    length (vtab s') = length (vtab s) ∧
    (∀ y, vtab s' !! y =
          if bool_decide (1 ≤ y ≤ Z.to_nat (max_var s))%nat
          then (λ v, Var.set_score (Var.score v / scinc s)%float v)
                 <$> vtab s !! y
          else vtab s !! y) ∧
    s' = set_scinc (scinc s') (set_vtab (vtab s') (set_stats (stats s') s)).
Proof.
  intros Hlen. unfold rescore. simpl.
  destruct (rescore_from_spec (scinc s) (Z.to_nat (max_var s)) 1 (vtab s))
    as (vt' & Hrun & Hlen' & Hvt'); [lia |].
  rewrite Hrun. simpl. eexists. split; [done |]. simpl.
  repeat split; [done |]. intros y. rewrite Hvt'.
  apply (f_equal (λ b : bool, if b then _ else _)).
  apply bool_decide_ext. lia.
Qed.

Lemma rescore_relinked (s s' : Internal) :
  (Z.to_nat (max_var s) < length (vtab s))%nat → rescore s = Some s' →
  ∀ y w, vtab s !! y = Some w →
    ∃ sc, vtab s' !! y = Some (Var.set_score sc w).
Proof.
  intros Hlen Hrun y w Hw.
  destruct (rescore_spec s Hlen) as (s'' & Hrun' & _ & _ & _ & Hvt & _).
  rewrite Hrun in Hrun'. injection Hrun' as <-. rewrite Hvt, Hw.
  destruct (bool_decide _); simpl; [by eexists |].
  exists (Var.score w). by destruct w.
Qed.

Lemma rescore_if_spec (s : Internal) (c : bool) :
  (Z.to_nat (max_var s) < length (vtab s))%nat →
  ∃ s', (if c then rescore s else Some s) = Some s' ∧
    queue s' = queue s ∧ vals s' = vals s ∧ max_var s' = max_var s ∧
    length (vtab s') = length (vtab s) ∧
    stats s' = (if c then Stats.set_rescored (Stats.rescored (stats s) + 1)
                            (stats s) else stats s) ∧
    (∀ y w, vtab s !! y = Some w →
       ∃ sc, vtab s' !! y = Some (Var.set_score sc w) ∧
         ((1 ≤ y ≤ Z.to_nat (max_var s))%nat →
          sc = if c then (Var.score w / scinc s)%float else Var.score w)).
Proof.
  intros Hlen. destruct c.
  - destruct (rescore_spec s Hlen) as (s' & Hrun & _ & Hst & Hl & Hvt & Hs').
    exists s'. split; [done |].
    split; [by rewrite Hs' |]. split; [by rewrite Hs' |].
    split; [by rewrite Hs' |]. split; [done |]. split; [done |].
    intros y w Hw. rewrite Hvt, Hw.
    destruct (bool_decide_reflect (1 ≤ y ≤ Z.to_nat (max_var s))%nat); simpl.
    + by eexists.
    + exists (Var.score w). split; [by destruct w | done].
  - exists s. repeat split; try done. intros y w Hw.
    exists (Var.score w). split; [by destruct w | done].
Qed.

Lemma rescore_if_scinc (s s' : Internal) (c : bool) :
  (Z.to_nat (max_var s) < length (vtab s))%nat →
  (if c then rescore s else Some s) = Some s' →
  scinc s' = if c then 1%float else scinc s.
Proof.
  intros Hlen Hrun. destruct c; [| by injection Hrun as <-].
  destruct (rescore_spec s Hlen) as (s'' & Hrun' & Hsc & _). congruence.
Qed.

(** [bump_variable] on a variable of the queue that is not the last one. *)
Lemma bump_variable_moves (s : Internal) (q1 q2 : list nat) (x : nat)
    (v : Var.t) (val : Z) :
  queue_repr s (q1 ++ x :: q2) → q2 ≠ [] →
  vtab s !! x = Some v → vals s !! x = Some val →
  ∃ s' sc, bump_variable x s = Some s' ∧
    queue_repr s' (q1 ++ q2 ++ [x]) ∧
    vtab s' !! x =
      Some (Var.set_score sc
              (Var.set_bumped (Stats.bumped (stats s) + 1)
                 (Var.set_next None (Var.set_prev (last (q1 ++ q2)) v)))) ∧
    sc = (let sum := (Var.score v + scinc s)%float in
          if (1e100 <? sum)%float then (sum / scinc s)%float else sum) ∧
    Stats.bumped (stats s') = Stats.bumped (stats s) + 1 ∧
    Queue.assigned (queue s') =
      (if val =? 0 then Some x
       else if bool_decide (Queue.assigned (queue s) = Some x)
            then match Var.prev v with
                 | Some p => Some p
                 | None => Var.next v
                 end
            else Queue.assigned (queue s)) ∧
    vals s' = vals s ∧ max_var s' = max_var s ∧
    length (vtab s') = length (vtab s) ∧
    (∀ y w, y ≠ x → vtab s !! y = Some w →
       ∃ w', vtab s' !! y = Some w' ∧ Var.bumped w' = Var.bumped w ∧
         ((1 ≤ y ≤ Z.to_nat (max_var s))%nat →
          Var.score w' =
            if (1e100 <? Var.score v + scinc s)%float
            then (Var.score w / scinc s)%float else Var.score w)) ∧
    scinc s' = (if (1e100 <? Var.score v + scinc s)%float
                then 1%float else scinc s) ∧
    Stats.rescored (stats s') =
      Stats.rescored (stats s) +
      (if (1e100 <? Var.score v + scinc s)%float then 1 else 0).
Proof.
  intros [Hnd Hfirst Hlast Hl Hdet Hrange Hvt Hvals] Hq2 Hv Hval.
  destruct (NoDup_middle _ _ _ Hnd) as (Hnd' & Hx1 & Hx2 & H12).
  destruct (linked_lookup _ _ _ _ _ _ Hl) as (v' & Hv' & Hp & Hn).
  assert (v' = v) as -> by congruence.
  assert (Hnext : ∃ n, Var.next v = Some n).
  { rewrite Hn. destruct q2; [done | by eexists]. }
  destruct Hnext as [n Hnext].
  unfold bump_variable. rewrite Hv. cbn [mbind option_bind]. rewrite Hnext.
  set (sa := if bool_decide (Queue.assigned (queue s) = Some x) then _ else s).
  assert (Hsa : vtab sa = vtab s ∧ Queue.first (queue sa) = Queue.first (queue s) ∧
                Queue.last (queue sa) = Queue.last (queue s) ∧
                vals sa = vals s ∧ max_var sa = max_var s ∧
                stats sa = stats s ∧ scinc sa = scinc s ∧
                Queue.assigned (queue sa) =
                  if bool_decide (Queue.assigned (queue s) = Some x)
                  then match Var.prev v with
                       | Some p => Some p
                       | None => Some n
                       end
                  else Queue.assigned (queue s)).
  { unfold sa. by destruct (bool_decide _). }
  destruct Hsa as (Hsa_vt & Hsa_f & Hsa_l & Hsa_vals & Hsa_mv & Hsa_st & Hsa_sc & Hsa_a).
  clearbody sa.
  destruct (dequeue_spec sa q1 q2 x)
    as (sd & Hdq & Hld & Hfd & Hlad & Had & Hrd & Hxd & Hod & Hsd);
    [done | by rewrite Hsa_vt | congruence | congruence |].
  rewrite Hdq. cbn [mbind option_bind].
  destruct (enqueue_spec sd (q1 ++ q2) x v)
    as (se & Heq & Hle & Hfe & Hlae & Hae & Hre & Hxe & Hoe & Hse);
    [done | | done | done | done | by rewrite Hxd, Hsa_vt |].
  { intros [? | ?]%elem_of_app; done. }
  rewrite Heq. cbn [mbind option_bind].
  assert (Hse' : stats se = stats s ∧ scinc se = scinc s ∧ vals se = vals s ∧
                 max_var se = max_var s).
  { rewrite Hse, Hsd. simpl. done. }
  destruct Hse' as (Hst_e & Hsc_e & Hvals_e & Hmv_e).
  assert (Hlen_e : length (vtab se) = length (vtab s)).
  { rewrite (proj1 Hre), (proj1 Hrd). by rewrite Hsa_vt. }
  assert (Hxlen : (x < length (vtab se))%nat) by (by eapply lookup_lt_Some).
  unfold update_var. simpl. rewrite Hxe. simpl.
  rewrite list_lookup_insert_eq by done. simpl.
  rewrite list_insert_insert_eq.
  rewrite list_lookup_insert_eq by done. simpl.
  set (b := Stats.bumped (stats se) + 1).
  set (ve := Var.set_next None (Var.set_prev (last (q1 ++ q2)) v)) in *.
  set (v3 := Var.set_score (Var.score v + scinc se)%float (Var.set_bumped b ve)).
  set (s3 := set_vtab (<[x := v3]> (vtab se)) _).
  destruct (rescore_if_spec s3 (1e100 <? (Var.score v + scinc se))%float)
    as (s4 & Hrs & Hq4 & Hvals4 & Hmv4 & Hlen4 & Hst4 & Hvt4).
  { unfold s3. simpl. rewrite length_insert. lia. }
  rewrite Hrs. cbn [mbind option_bind].
  rewrite Hvals4. unfold s3 at 1. simpl. rewrite Hvals_e, Hval. simpl.
  assert (Hx3 : vtab s3 !! x = Some v3).
  { unfold s3. simpl. by apply list_lookup_insert_eq. }
  assert (Hxr : (1 ≤ x ≤ Z.to_nat (max_var s3))%nat).
  { unfold s3. simpl. rewrite Hmv_e. apply Hrange.
    apply elem_of_app. right. by left. }
  destruct (Hvt4 x v3 Hx3) as (sc & Hx4 & Hsc). specialize (Hsc Hxr).
  set (s' := if val =? 0 then _ else s4).
  assert (Hs' : vtab s' = vtab s4 ∧ Queue.first (queue s') = Queue.first (queue s4) ∧
                Queue.last (queue s') = Queue.last (queue s4) ∧
                vals s' = vals s4 ∧ max_var s' = max_var s4 ∧ stats s' = stats s4 ∧
                Queue.assigned (queue s') =
                  if val =? 0 then Some x else Queue.assigned (queue s4)).
  { unfold s'. by destruct (val =? 0). }
  destruct Hs' as (Hvt' & Hf' & Hl' & Hvals' & Hmv' & Hst' & Ha').
  assert (Hsc' : scinc s' = scinc s4) by (unfold s'; by destruct (val =? 0)).
  pose proof (rescore_if_scinc s3 s4 _ ltac:(unfold s3; simpl;
    rewrite length_insert; lia) Hrs) as Hsc4.
  clearbody s'.
  exists s', sc. split; [done |].
  split; [| split; [| split; [| split; [| split; [| split; [| split;
    [| split; [| split; [| split]]]]]]]]].
  - assert (Hq3 : queue s3 = queue se) by done.
    split.
    + rewrite app_assoc. apply NoDup_app. split; [done |]. split.
      * intros y [? | ?]%elem_of_app ->%list_elem_of_singleton; done.
      * apply NoDup_singleton.
    + rewrite Hf', Hq4, Hq3, Hfe. by rewrite app_assoc.
    + rewrite Hl', Hq4, Hq3, Hlae. by rewrite app_assoc, last_snoc.
    + rewrite Hvt', app_assoc.
      eapply linked_frame; [| exact Hle].
      intros y w Hy Hw.
      assert (Hw3 : ∃ w3, vtab s3 !! y = Some w3 ∧ Var.prev w3 = Var.prev w ∧
                          Var.next w3 = Var.next w).
      { unfold s3. simpl. destruct (decide (y = x)) as [-> | Hne].
        - rewrite list_lookup_insert_eq by done. exists v3.
          assert (w = ve) as -> by congruence. done.
        - rewrite list_lookup_insert_ne by done. by exists w. }
      destruct Hw3 as (w3 & Hw3 & Hp3 & Hn3).
      destruct (Hvt4 y w3 Hw3) as (sc' & Hw4 & _).
      eexists. split; [exact Hw4 |]. done.
    + intros y w Hw Hy. rewrite Hvt' in Hw.
      assert (Hyx : y ≠ x).
      { intros ->. apply Hy. rewrite !elem_of_app, list_elem_of_singleton. auto. }
      assert (Hyq : y ∉ q1 ++ q2).
      { intros [? | ?]%elem_of_app; apply Hy;
          rewrite !elem_of_app; auto. }
      destruct (vtab s3 !! y) as [w3 |] eqn:Hw3.
      2: { apply lookup_ge_None in Hw3. apply lookup_lt_Some in Hw. lia. }
      destruct (Hvt4 y w3 Hw3) as (sc' & Hw4 & _).
      assert (w = Var.set_score sc' w3) as -> by congruence. simpl.
      unfold s3 in Hw3. simpl in Hw3.
      rewrite list_lookup_insert_ne in Hw3 by done.
      rewrite Hoe in Hw3.
      2: { intros [? | ->%list_elem_of_singleton]%elem_of_app; done. }
      rewrite Hod in Hw3 by done. rewrite Hsa_vt in Hw3.
      apply (Hdet y w3 Hw3).
      intros [? | [-> | ?]%elem_of_cons]%elem_of_app; [| done |];
        apply Hyq; rewrite elem_of_app; auto.
    + intros y Hy. rewrite Hmv', Hmv4. unfold s3. simpl. rewrite Hmv_e.
      apply Hrange. rewrite !elem_of_app in Hy. rewrite elem_of_app, elem_of_cons.
      rewrite list_elem_of_singleton in Hy.
      destruct Hy as [? | [? | ->]]; auto.
    + rewrite Hvt', Hmv', Hlen4, Hmv4. unfold s3. simpl.
      rewrite length_insert, Hlen_e, Hmv_e. done.
    + rewrite Hvals', Hvals4, Hmv', Hmv4. unfold s3. simpl.
      rewrite Hvals_e, Hmv_e. done.
  - rewrite Hvt', Hx4. unfold v3, ve, b. simpl. rewrite Hst_e. done.
  - rewrite Hsc. unfold v3. simpl. unfold s3. simpl. rewrite Hsc_e. done.
  - rewrite Hst', Hst4. unfold s3, b. simpl. rewrite Hst_e.
    by destruct (1e100 <? _)%float.
  - rewrite Ha', Hq4. unfold s3. simpl. rewrite Hae, Had, Hsa_a. done.
  - rewrite Hvals', Hvals4. unfold s3. simpl. done.
  - rewrite Hmv', Hmv4. unfold s3. simpl. done.
  - rewrite Hvt', Hlen4. unfold s3. simpl. by rewrite length_insert.
  - intros y w Hyx Hw. rewrite Hvt'.
    destruct (proj2 Hrd y w) as (p1 & n1 & Hw1); [by rewrite Hsa_vt |].
    destruct (proj2 Hre y _ Hw1) as (p2 & n2 & Hw2).
    assert (Hw3 : vtab s3 !! y = Some (Var.set_next n2 (Var.set_prev p2 w))).
    { unfold s3. simpl. rewrite list_lookup_insert_ne by done. by rewrite Hw2. }
    destruct (Hvt4 y _ Hw3) as (sc' & Hw4 & Hsc4').
    eexists. split; [exact Hw4 |]. split; [done |].
    intros Hy. simpl. rewrite Hsc4'; [| unfold s3; simpl; by rewrite Hmv_e].
    unfold s3. simpl. by rewrite Hsc_e.
  - rewrite Hsc', Hsc4. unfold s3. simpl. by rewrite Hsc_e.
  - rewrite Hst', Hst4. unfold s3. simpl. rewrite Hst_e, Hsc_e.
    generalize (1e100 <? Var.score v + scinc s)%float. intros c.
    clear. destruct c; simpl; lia.
Qed.

Lemma filter_ne_id (x : nat) (l : list nat) :
  x ∉ l → filter (λ y, y ≠ x) l = l.
Proof.
  induction l as [| z l IH]; intros Hx; [done |].
  rewrite filter_cons_True.
  - f_equal. apply IH. intros ?. apply Hx. by right.
  - intros ->. apply Hx. by left.
Qed.

Lemma filter_ne_middle (x : nat) (q1 q2 : list nat) :
  NoDup (q1 ++ x :: q2) → filter (λ y, y ≠ x) (q1 ++ x :: q2) = q1 ++ q2.
Proof.
  intros (_ & Hx1 & Hx2 & _)%NoDup_middle.
  rewrite filter_app, filter_cons_False by (by intros ?).
  by rewrite !filter_ne_id.
Qed.

Lemma bump_variable_last (s : Internal) (x : nat) (v : Var.t) :
  vtab s !! x = Some v → Var.next v = None → bump_variable x s = Some s.
Proof.
  intros Hv Hn. unfold bump_variable. rewrite Hv. simpl. by rewrite Hn.
Qed.

Lemma queue_next_None (s : Internal) (q : list nat) (x : nat) (v : Var.t) :
  queue_repr s q → x ∈ q → vtab s !! x = Some v →
  (Var.next v = None ↔ last q = Some x).
Proof.
  intros Hq Hx Hv. destruct (list_elem_of_split _ _ Hx) as (q1 & q2 & ->).
  destruct (linked_lookup _ _ _ _ _ _ (qr_linked _ _ Hq)) as (v' & Hv' & _ & Hn).
  assert (Heq : v' = v) by congruence. subst v'.
  rewrite Hn, last_app. simpl.
  destruct q2 as [| n q2] using rev_ind; [done |].
  split.
  - by destruct q2.
  - rewrite last_cons, last_snoc. intros [= ->].
    exfalso. pose proof (qr_nodup _ _ Hq) as Hnd.
    apply NoDup_middle in Hnd as (_ & _ & Hx2 & _).
    apply Hx2. apply elem_of_app. right. by left.
Qed.

(** One call of [bump_variable] keeps the queue invariant. *)
Lemma bump_variable_frontier (s : Internal) (q : list nat) (x : nat) :
  queue_repr s q → frontier_ok s q → (x < length (vtab s))%nat →
  ∃ s' q', bump_variable x s = Some s' ∧ queue_repr s' q' ∧ q' ≡ₚ q ∧
    frontier_ok s' q' ∧ vals s' = vals s ∧
    length (vtab s') = length (vtab s).
Proof.
  intros Hq Hfr Hlen.
  destruct (lookup_lt_is_Some_2 _ _ Hlen) as [v Hv].
  destruct (Var.next v) as [n |] eqn:Hn.
  2: { exists s, q. split; [by eapply bump_variable_last |]. done. }
  assert (Hx : x ∈ q).
  { destruct (decide (x ∈ q)) as [| Hnot]; [done |].
    pose proof (qr_detached _ _ Hq x v Hv Hnot). congruence. }
  destruct (list_elem_of_split _ _ Hx) as (q1 & q2 & ->).
  destruct (linked_lookup _ _ _ _ _ _ (qr_linked _ _ Hq)) as (v' & Hv' & _ & Hn').
  assert (Heq : v' = v) by congruence. subst v'.
  assert (Hq2 : q2 ≠ []) by (intros ->; simpl in Hn'; congruence).
  destruct (lookup_lt_is_Some_2 (vals s) x) as [val Hval].
  { pose proof (qr_vals _ _ Hq). pose proof (qr_range _ _ Hq x Hx). lia. }
  destruct (bump_variable_moves s q1 q2 x v val Hq Hq2 Hv Hval)
    as (s' & sc & Hrun & Hq' & Hxv & _ & _ & Ha & Hvals & _ & Hlen' & _).
  exists s', (q1 ++ q2 ++ [x]). split; [done |]. split; [done |].
  split.
  { transitivity (x :: q1 ++ q2); [| apply Permutation_middle].
    rewrite app_assoc. symmetry. apply Permutation_cons_append. }
  split; [| done].
  intros (y & Hy & Hyu). unfold unassigned in *. rewrite Ha, Hvals in *.
  destruct (Z.eqb_spec val 0) as [-> | Hval0].
  - exists x, (q1 ++ q2), []. split; [done |]. split; [by rewrite app_assoc |].
    split; [done | constructor].
  - destruct Hfr as (a & l1 & l2 & Hsa & Hdec & Hau & Hl2).
    { exists y. split; [| done].
      rewrite !elem_of_app, list_elem_of_singleton in Hy.
      rewrite elem_of_app, elem_of_cons. destruct Hy as [? | [? | ->]]; auto. }
    assert (Hax : a ≠ x) by (intros ->; congruence).
    rewrite bool_decide_eq_false_2 by congruence.
    exists a, (filter (λ y, y ≠ x) l1), (filter (λ y, y ≠ x) l2 ++ [x]).
    split; [done |]. split; [| split; [done |]].
    + rewrite app_assoc, <- (filter_ne_middle x q1 q2) by apply Hq.
      rewrite Hdec, filter_app, filter_cons_True by done.
      by rewrite <- app_assoc.
    + apply Forall_app. split.
      * apply Forall_forall. intros z [_ Hz]%list_elem_of_filter.
        rewrite Forall_forall in Hl2. by apply Hl2.
      * constructor; [| done]. congruence.
Qed.

(** C6: a sequence of calls of [bump_variable], on variables of the
    table, that starts in a state whose queue is well linked and satisfies
    the invariant of [queue.assigned] ends in such a state: the queue
    links the same variables, no value has changed and, when some variable
    of the queue is unassigned, [queue.assigned] refers to an unassigned
    variable of the queue and every variable between it and the front of
    the queue is assigned. *)
Theorem frontier_after_bumps (xs : list nat) :
  ∀ (s : Internal) (q : list nat),
  queue_repr s q → frontier_ok s q →
  Forall (λ x, (x < length (vtab s))%nat) xs →
  ∃ s' q', bump_variables xs s = Some s' ∧
    queue_repr s' q' ∧ q' ≡ₚ q ∧ vals s' = vals s ∧
    ((∃ y, y ∈ q' ∧ unassigned s' y) →
     ∃ a l1 l2, Queue.assigned (queue s') = Some a ∧ q' = l1 ++ a :: l2 ∧
       unassigned s' a ∧ Forall (λ z, ¬ unassigned s' z) l2).
Proof.
  induction xs as [| x xs IH]; intros s q Hq Hfr Hxs.
  - exists s, q. split; [done |]. split; [done |]. split; [done |].
    split; [done |]. exact Hfr.
  - apply Forall_cons in Hxs as [Hx Hxs].
    destruct (bump_variable_frontier s q x Hq Hfr Hx)
      as (s1 & q1 & Hrun & Hq1 & Hp1 & Hfr1 & Hvals1 & Hlen1).
    destruct (IH s1 q1 Hq1 Hfr1) as (s' & q' & Hrun' & Hq' & Hp' & Hvals' & Hfr').
    { by rewrite Hlen1. }
    exists s', q'. simpl. rewrite Hrun. simpl.
    split; [done |]. split; [done |]. split; [by rewrite Hp' |].
    split; [congruence | done].
Qed.

(** C7, as the code has it: [bump_variable] returns at once, leaving the
    state as it is, when the variable has no [next]: when it is detached
    or when it is the last variable of the queue, the one already at the
    front.  Any other variable of the queue is unlinked and relinked as the
    last one, gets [stats.bumped + 1] as its stamp, larger than every
    stamp when no stamp exceeded the counter, and [scinc] is added to its
    score, which is then divided by [scinc] when the sum exceeds 1e100. *)
Theorem bump_variable_effect (s : Internal) (q : list nat) (x : nat)
    (v : Var.t) :
  queue_repr s q → vtab s !! x = Some v →
  (x ∉ q → bump_variable x s = Some s) ∧
  (x ∈ q → (Var.next v = None ↔ last q = Some x)) ∧
  (Var.next v = None → bump_variable x s = Some s) ∧
  (x ∈ q → last q ≠ Some x →
   ∃ s' v', bump_variable x s = Some s' ∧ s' ≠ s ∧
     queue_repr s' (filter (λ y, y ≠ x) q ++ [x]) ∧
     Queue.last (queue s') = Some x ∧
     vtab s' !! x = Some v' ∧ Var.next v' = None ∧
     Var.bumped v' = Stats.bumped (stats s) + 1 ∧
     Stats.bumped (stats s') = Stats.bumped (stats s) + 1 ∧
     ((∀ y w, vtab s !! y = Some w → Var.bumped w ≤ Stats.bumped (stats s)) →
      ∀ y w, vtab s !! y = Some w → Var.bumped w < Var.bumped v') ∧
     Var.score v' =
       (let sum := (Var.score v + scinc s)%float in
        if (1e100 <? sum)%float then (sum / scinc s)%float else sum)).
Proof.
  intros Hq Hv. split; [| split; [| split]].
  - intros Hx. eapply bump_variable_last; [done |].
    by eapply (qr_detached _ _ Hq).
  - intros Hx. by eapply queue_next_None.
  - by apply bump_variable_last.
  - intros Hx Hlast.
    destruct (list_elem_of_split _ _ Hx) as (q1 & q2 & ->).
    assert (Hq2 : q2 ≠ []).
    { intros ->. apply Hlast. by rewrite last_snoc. }
    destruct (lookup_lt_is_Some_2 (vals s) x) as [val Hval].
    { pose proof (qr_vals _ _ Hq). pose proof (qr_range _ _ Hq x Hx). lia. }
    destruct (bump_variable_moves s q1 q2 x v val Hq Hq2 Hv Hval)
      as (s' & sc & Hrun & Hq' & Hxv & Hsc & Hst & _).
    eexists s', _. split; [done |]. split.
    { intros ->. lia. }
    split. { rewrite filter_ne_middle by apply Hq. by rewrite <- app_assoc. }
    split. { rewrite (qr_last _ _ Hq'). by rewrite !app_assoc, last_snoc. }
    split; [done |]. simpl. split; [done |]. split; [done |].
    split; [done |]. split; [| done].
    intros Hle y w Hw. specialize (Hle y w Hw). lia.
Qed.

Lemma sample_queue (s : Internal) :
  vtab s = Sample.vars ∨ vtab s = vtab Sample.at_root →
  Queue.first (queue s) = Some 1%nat → Queue.last (queue s) = Some 5%nat →
  max_var s = 5 → length (vals s) = 6%nat →
  queue_repr s [1; 2; 3; 4; 5]%nat.
Proof.
  intros Hvt Hf Hl Hm Hv. split.
  - by apply (bool_decide_unpack _).
  - done.
  - done.
  - destruct Hvt as [-> | ->]; simpl; repeat (eexists; repeat split).
  - intros x v Hx Hnot.
    destruct x as [| [| [| [| [| [| x]]]]]];
      [| exfalso; apply Hnot; by apply (bool_decide_unpack _) .. |].
    + destruct Hvt as [Hvt | Hvt]; rewrite Hvt in Hx; by injection Hx as <-.
    + destruct Hvt as [Hvt | Hvt]; by rewrite Hvt in Hx.
  - intros x Hx. rewrite Hm.
    repeat (apply elem_of_cons in Hx as [-> | Hx]; [lia |]).
    by apply elem_of_nil in Hx.
  - rewrite Hm. destruct Hvt as [-> | ->]; simpl; lia.
  - rewrite Hm, Hv. lia.
Qed.

Lemma sample_frontier : frontier_ok Sample.at_root [1; 2; 3; 4; 5]%nat.
Proof.
  intros _. exists 4%nat, [1; 2; 3]%nat, [5%nat].
  repeat split. by repeat constructor.
Qed.

(** Bumping variables 2, 5 and 3 in the sample state [at_root]. *)
Lemma frontier_after_bumps_witness :
  ∃ s' q', bump_variables [2; 5; 3]%nat Sample.at_root = Some s' ∧
    queue_repr s' q' ∧ q' ≡ₚ [1; 2; 3; 4; 5]%nat ∧
    vals s' = vals Sample.at_root ∧
    ((∃ y, y ∈ q' ∧ unassigned s' y) →
     ∃ a l1 l2, Queue.assigned (queue s') = Some a ∧ q' = l1 ++ a :: l2 ∧
       unassigned s' a ∧ Forall (λ z, ¬ unassigned s' z) l2).
Proof.
  apply (frontier_after_bumps [2; 5; 3]%nat Sample.at_root
           [1; 2; 3; 4; 5]%nat).
  - apply sample_queue; auto.
  - apply sample_frontier.
  - repeat constructor; simpl; lia.
Defined.

(** Bumping variable 3 in the sample state [at_level_3]. *)
Lemma bump_variable_effect_witness :
  ∃ s' v', bump_variable 3 Sample.at_level_3 = Some s' ∧
    s' ≠ Sample.at_level_3 ∧
    queue_repr s' [1; 2; 4; 5; 3]%nat ∧
    vtab s' !! 3%nat = Some v' ∧ Var.next v' = None ∧
    Var.bumped v' = 1 ∧ Var.score v' = 1%float.
Proof.
  destruct (bump_variable_effect Sample.at_level_3 [1; 2; 3; 4; 5]%nat 3
              (Sample.assigned_var 3 3 None (Some 2%nat) (Some 4%nat)))
    as (_ & _ & _ & H); [apply sample_queue; auto | done |].
  destruct H as (s' & v' & Hrun & Hne & Hq & _ & Hv' & Hn & Hb & _ & _ & Hsc).
  - by apply (bool_decide_unpack _).
  - done.
  - by exists s', v'.
Defined.

(** C7, the statement refuted: variable 5 is linked in the queue of the
    sample state, as its last variable, and [bump_variable] leaves the
    state as it is: the score of the variable is not incremented and it
    gets no new stamp. *)
Lemma bump_variable_skips_last :
  queue_repr Sample.at_level_3 [1; 2; 3; 4; 5]%nat ∧
  5%nat ∈ [1; 2; 3; 4; 5]%nat ∧
  Queue.last (queue Sample.at_level_3) = Some 5%nat ∧
  bump_variable 5 Sample.at_level_3 = Some Sample.at_level_3.
Proof.
  split; [apply sample_queue; auto |].
  split; [by apply (bool_decide_unpack _) | done].
Qed.

(** ** The recency stamps of clauses *)

(** What [resolve_clause] itself does: the clause is appended to
    [resolved] exactly when it is redundant, longer than [keepsize] and of
    higher glue than [keepglue]; nothing else changes. *)
Lemma resolve_clause_spec (s : Internal) (c : nat) (cl : Clause.t) :
  deref s c = Some cl →
  resolve_clause c s =
  Some (if Clause.redundant cl && (Opts.keepsize (opts s) <? Clause.size cl)
           && (Opts.keepglue (opts s) <? Clause.glue cl)
        then set_resolved (resolved s ++ [c]) s else s).
Proof.
  intros Hcl. unfold resolve_clause. rewrite Hcl. simpl.
  destruct (Clause.redundant cl); simpl; [| done].
  destruct (Z.leb_spec (Clause.size cl) (Opts.keepsize (opts s))),
           (Z.ltb_spec (Opts.keepsize (opts s)) (Clause.size cl));
    try lia; simpl; [done |].
  destruct (Z.leb_spec (Clause.glue cl) (Opts.keepglue (opts s))),
           (Z.ltb_spec (Opts.keepglue (opts s)) (Clause.glue cl));
    try lia; done.
Qed.

(** The loop of [bump_resolved_clauses] on distinct clauses: the clause at
    index [i] of the vector gets the stamp [stats.resolved + i + 1]. *)
Lemma stamp_resolved_spec (cs : list nat) :
  ∀ s : Internal, NoDup cs → Forall (λ c, is_Some (deref s c)) cs →
  ∃ s', stamp_resolved cs s = Some s' ∧
    Stats.resolved (stats s') =
      Stats.resolved (stats s) + Z.of_nat (length cs) ∧
    length (clauses s') = length (clauses s) ∧
    resolved s' = resolved s ∧
    (∀ i c, cs !! i = Some c →
       ∃ cl, deref s c = Some cl ∧
         deref s' c =
           Some (Clause.set_resolved
                   (Stats.resolved (stats s) + Z.of_nat i + 1) cl)) ∧
    (∀ c, c ∉ cs → deref s' c = deref s c).
Proof.
  induction cs as [| c cs IH]; intros s Hnd Hall.
  - exists s. repeat split; try done. simpl. lia.
  - apply NoDup_cons in Hnd as [Hc Hnd].
    apply Forall_cons in Hall as [[cl Hcl] Hall].
    simpl. rewrite Hcl. simpl.
    set (n := Stats.resolved (stats s) + 1).
    set (s1 := set_clauses _ _).
    assert (Hother : ∀ c', c' ≠ c → deref s1 c' = deref s c').
    { intros c' Hne. unfold deref, s1. simpl.
      by rewrite list_lookup_insert_ne. }
    destruct (IH s1 Hnd) as (s' & Hrun & Hst & Hlen & Hres & Hstamp & Hrest).
    { rewrite Forall_forall in Hall. apply Forall_forall. intros c' Hc'.
      rewrite Hother; [by apply Hall |]. by intros ->. }
    exists s'. split; [done |]. split.
    { rewrite Hst. unfold s1. simpl. lia. }
    split. { rewrite Hlen. unfold s1. simpl. by rewrite length_insert. }
    split; [done |]. split.
    + intros i c' Hi. destruct i as [| i]; simpl in Hi.
      * injection Hi as <-. exists cl. split; [done |].
        rewrite Hrest by done. unfold deref, s1. simpl.
        rewrite list_lookup_insert_eq by (by eapply lookup_lt_Some).
        f_equal. f_equal. lia.
      * destruct (Hstamp i c' Hi) as (cl' & Hcl' & Hs').
        assert (Hne : c' ≠ c).
        { intros ->. apply Hc. by eapply list_elem_of_lookup_2. }
        rewrite Hother in Hcl' by done.
        exists cl'. split; [done |]. rewrite Hs'. f_equal. f_equal.
        unfold s1. simpl. lia.
    + intros c' Hc'. rewrite Hrest.
      * apply Hother. intros ->. apply Hc'. by left.
      * intros ?. apply Hc'. by right.
Qed.

(** What [bump_resolved_clauses] does to a vector of distinct clauses: the
    vector is sorted by the stamps the clauses have, ascending; the clause
    at index [i] of the sorted vector gets the stamp
    [stats.resolved + i + 1], so the new stamps increase strictly along
    the vector and exceed the counter of before; the counter advances by
    the length of the vector, and the vector is cleared. *)
Lemma bump_resolved_clauses_stamps (s : Internal) :
  NoDup (resolved s) → Forall (λ c, is_Some (deref s c)) (resolved s) →
  ∃ s' sorted, bump_resolved_clauses s = Some s' ∧
    sorted ≡ₚ resolved s ∧
    StronglySorted
      (λ a b, ∃ ca cb, deref s a = Some ca ∧ deref s b = Some cb ∧
                       Clause.resolved ca ≤ Clause.resolved cb) sorted ∧
    resolved s' = [] ∧
    Stats.resolved (stats s') =
      Stats.resolved (stats s) + Z.of_nat (length (resolved s)) ∧
    (∀ i c, sorted !! i = Some c →
       ∃ cl, deref s c = Some cl ∧
         deref s' c =
           Some (Clause.set_resolved
                   (Stats.resolved (stats s) + Z.of_nat i + 1) cl)) ∧
    (∀ c, c ∉ resolved s → deref s' c = deref s c).
Proof.
  intros Hnd Hall. unfold bump_resolved_clauses.
  destruct (sort_by_is_Some resolved_earlier
              (λ c, cl ← deref s c; Some (Clause.resolved cl)) (resolved s))
    as [sorted Hsort].
  { eapply Forall_impl; [exact Hall |]. intros c [cl Hcl]. simpl.
    rewrite Hcl. by eexists. }
  rewrite Hsort. cbn [mbind option_bind].
  pose proof (sort_by_Permutation _ _ _ _ Hsort) as Hperm.
  destruct (stamp_resolved_spec sorted (set_resolved sorted s))
    as (s1 & Hrun & Hst & _ & Hres & Hstamp & Hrest).
  { by rewrite Hperm. }
  { by rewrite Hperm. }
  rewrite Hrun. cbn [mbind option_bind].
  eexists _, sorted. split; [done |]. split; [done |]. split.
  { eapply StronglySorted_impl;
      [| eapply (sort_by_StronglySorted resolved_earlier); [| | exact Hsort]].
    - intros a b _ _ (ka & kb & Ha & Hb & Hk).
      destruct (deref s a) as [ca |]; [| done].
      destruct (deref s b) as [cb |]; [| done].
      simpl in *. injection Ha as <-. injection Hb as <-.
      exists ca, cb. repeat split. unfold resolved_earlier in Hk. lia.
    - unfold resolved_earlier. intros a b. lia.
    - unfold resolved_earlier. intros a b c. lia. }
  split; [done |]. split.
  { simpl. rewrite Hst. simpl. by rewrite Hperm. }
  split; [exact Hstamp |].
  intros c Hc. apply Hrest. by rewrite Hperm.
Qed.

(** C9, on the sample state: clause 1 is learned, longer than [keepsize]
    and of higher glue than [keepglue], and it is the reason the analysis
    resolves on (its literals [-1] and [-2] enter the learned clause); yet
    it is never handed to [resolve_clause], the vector [resolved] stays
    empty, and after [bump_resolved_clauses] neither its stamp nor the
    counter [stats.resolved] has changed. *)
Theorem reason_clause_not_collected :
  ∃ cl v uip s s',
    deref Sample.at_level_3 1 = Some cl ∧
    Clause.redundant cl = true ∧
    Opts.keepsize (opts Sample.at_level_3) < Clause.size cl ∧
    Opts.keepglue (opts Sample.at_level_3) < Clause.glue cl ∧
    var Sample.at_level_3 4 = Some v ∧ Var.reason v = Some 1%nat ∧
    first_uip_clause Sample.at_level_3 = Some (uip, s) ∧
    clause s = [-1; -2; -3] ∧
    (∃ w, var s 4 = Some w ∧ Var.seen w = true) ∧
    resolved s = [] ∧
    bump_resolved_clauses s = Some s' ∧
    deref s' 1 = Some cl ∧
    Stats.resolved (stats s') = Stats.resolved (stats Sample.at_level_3).
Proof.
  destruct (first_uip_clause Sample.at_level_3) as [[uip s] |] eqn:Hrun;
    vm_compute in Hrun; [| discriminate].
  injection Hrun as <- <-.
  exists (Clause.mk true true 4 3 0 [4; -1; -2; -3]),
    (Sample.assigned_var 3 4 (Some 1%nat) (Some 3%nat) (Some 5%nat)).
  eexists _, _, _.
  split; [reflexivity |]. split; [reflexivity |].
  split; [reflexivity |]. split; [reflexivity |].
  split; [reflexivity |]. split; [reflexivity |].
  split; [reflexivity |]. split; [reflexivity |].
  split; [eexists; split; reflexivity |]. split; [reflexivity |].
  split; [vm_compute; reflexivity |]. split; reflexivity.
Qed.


(** ** Binary64 division keeps the order *)

Lemma digits2_pos_bounds (m : positive) :
  2 ^ (Zpos (digits2_pos m) - 1) ≤ Zpos m < 2 ^ Zpos (digits2_pos m).
Proof.
  induction m as [m IH | m IH |]; simpl digits2_pos.
  - rewrite Pos2Z.inj_succ, (Pos2Z.inj_xI m).
    replace (Z.succ (Zpos (digits2_pos m)) - 1)
      with (Z.succ (Zpos (digits2_pos m) - 1)) by lia.
    rewrite !Z.pow_succ_r by lia. lia.
  - rewrite Pos2Z.inj_succ, (Pos2Z.inj_xO m).
    replace (Z.succ (Zpos (digits2_pos m)) - 1)
      with (Z.succ (Zpos (digits2_pos m) - 1)) by lia.
    rewrite !Z.pow_succ_r by lia. lia.
  - simpl. lia.
Qed.

Lemma Zdigits2_bounds (q : Z) :
  0 < q → 0 < Zdigits2 q ∧ 2 ^ (Zdigits2 q - 1) ≤ q < 2 ^ Zdigits2 q.
Proof.
  destruct q as [| p | p]; try lia. intros _. simpl.
  split; [lia |]. apply digits2_pos_bounds.
Qed.

Lemma shr_1_inbetween (n w : Z) (mrs : shr_record) :
  inbetween n w mrs → inbetween n (2 * w) (shr_1 mrs).
Proof.
  intros (Hw & Hn & Hm & Hr & Hs).
  destruct mrs as [m r s]. simpl in Hm, Hr, Hs.
  assert (Hrho : 0 ≤ n mod w < w) by (apply Z.mod_pos_bound; lia).
  assert (Hdiv : n / (2 * w) = m / 2).
  { rewrite Hm, Z.mul_comm. symmetry. apply Z.div_div; lia. }
  assert (Hmod : n mod (2 * w) = n mod w + w * (m mod 2)).
  { rewrite Hm, (Z.mul_comm 2 w). apply Z.rem_mul_r; lia. }
  assert (Hm0 : 0 ≤ m) by (rewrite Hm; apply Z.div_pos; lia).
  assert (Hor : orb r s = true ↔ n mod w ≠ 0).
  { split.
    - intros H. apply orb_true_iff in H as [-> | ->].
      + assert (w ≤ 2 * (n mod w)) by (by apply Hr). lia.
      + assert (n mod w ≠ 0 ∧ 2 * (n mod w) ≠ w) by (by apply Hs). lia.
    - intros H. destruct (decide (2 * (n mod w) = w)) as [He | He].
      + assert (r = true) as -> by (apply Hr; lia). done.
      + assert (s = true) as -> by (apply Hs; lia). by destruct r. }
  assert (Hbit : m mod 2 = 0 ∨ m mod 2 = 1).
  { pose proof (Z.mod_pos_bound m 2). lia. }
  unfold inbetween. rewrite Hdiv, Hmod.
  split; [lia |]. split; [done |].
  destruct m as [| [p | p |] |]; try lia; simpl.
  - (* 0 *)
    change (0 / 2) with 0. change (0 mod 2) with 0.
    split; [done |]. split; [split; [done | lia] |].
    rewrite Hor. lia.
  - (* 2p+1 *)
    assert (H1 : Zpos p~1 / 2 = Zpos p).
    { rewrite (Pos2Z.inj_xI p). symmetry.
      apply (Z.div_unique _ 2 _ 1); lia. }
    assert (H2 : Zpos p~1 mod 2 = 1).
    { rewrite (Pos2Z.inj_xI p). symmetry.
      apply (Z.mod_unique _ 2 (Zpos p) 1); lia. }
    rewrite H1, H2. split; [done |]. split; [split; [lia | done] |].
    rewrite Hor. lia.
  - (* 2p *)
    assert (H1 : Zpos p~0 / 2 = Zpos p).
    { rewrite (Pos2Z.inj_xO p), Z.mul_comm. apply Z.div_mul. lia. }
    assert (H2 : Zpos p~0 mod 2 = 0).
    { rewrite (Pos2Z.inj_xO p), Z.mul_comm. apply Z.mod_mul. lia. }
    rewrite H1, H2. split; [done |]. split; [split; [done | lia] |].
    rewrite Hor. lia.
  - (* 1 *)
    change (1 / 2) with 0. change (1 mod 2) with 1.
    split; [done |]. split; [split; [lia | done] |].
    rewrite Hor. lia.
Qed.

Lemma iter_shr_1_inbetween (p : positive) :
  ∀ (n w : Z) (mrs : shr_record),
  inbetween n w mrs → inbetween n (w * 2 ^ Zpos p) (SpecFloat.iter_pos shr_1 p mrs).
Proof.
  induction p as [p IH | p IH |]; intros n w mrs Hin; simpl SpecFloat.iter_pos.
  - apply shr_1_inbetween, IH, IH in Hin.
    replace (w * 2 ^ Zpos p~1) with (2 * w * 2 ^ Zpos p * 2 ^ Zpos p);
      [done |].
    rewrite (Pos2Z.inj_xI p), Z.pow_add_r, Z.pow_twice_r by lia. lia.
  - apply IH, IH in Hin.
    replace (w * 2 ^ Zpos p~0) with (w * 2 ^ Zpos p * 2 ^ Zpos p); [done |].
    rewrite (Pos2Z.inj_xO p), Z.pow_twice_r. lia.
  - apply shr_1_inbetween in Hin. by rewrite Z.mul_comm.
Qed.

(** [shr] by [k] places divides by [2 ^ k]; the exponent grows by [k]. *)
Lemma shr_inbetween (n w : Z) (mrs : shr_record) (e k : Z) :
  inbetween n w mrs →
  ∃ mrs', shr mrs e k = (mrs', e + Z.max k 0) ∧
    inbetween n (w * 2 ^ Z.max k 0) mrs'.
Proof.
  intros Hin. destruct k as [| p | p]; simpl shr.
  - exists mrs. rewrite Z.add_0_r. split; [done |].
    change (2 ^ Z.max 0 0) with 1. by rewrite Z.mul_1_r.
  - exists (SpecFloat.iter_pos shr_1 p mrs). split; [done |].
    replace (Z.max (Zpos p) 0) with (Zpos p) by lia.
    by apply iter_shr_1_inbetween.
  - exists mrs. replace (Z.max (Zneg p) 0) with 0 by lia.
    rewrite Z.add_0_r. split; [done |].
    change (2 ^ 0) with 1. by rewrite Z.mul_1_r.
Qed.

(** The location [new_location] computes from a remainder. *)
Lemma new_location_inbetween (m w : Z) :
  0 ≤ m → 0 < w →
  inbetween m w (shr_record_of_loc (m / w) (new_location w (m mod w))).
Proof.
  intros Hm Hw.
  assert (Hrho : 0 ≤ m mod w < w) by (apply Z.mod_pos_bound; lia).
  unfold inbetween. split; [done |]. split; [done |].
  set (r := m mod w) in *. unfold new_location.
  destruct (Z.even w) eqn:Hev.
  - unfold new_location_even. destruct (Z.eqb_spec r 0) as [H0 | H0].
    + simpl. split; [done |]. split; split; try done; lia.
    + destruct (Z.compare_spec (2 * r) w); simpl;
        (split; [done |]); split; split; try done; lia.
  - unfold new_location_odd. destruct (Z.eqb_spec r 0) as [H0 | H0].
    + simpl. split; [done |]. split; split; try done; lia.
    + assert (Hodd : w ≠ 2 * r).
      { intros Heq. rewrite Heq, Z.even_mul in Hev. done. }
      destruct (Z.compare_spec (2 * r + 1) w); simpl;
        (split; [done |]); split; split; try done; lia.
Qed.

(** Rounding the record of a position gives [nearest_even]. *)
Lemma round_nearest_even_inbetween (n w : Z) (mrs : shr_record) :
  inbetween n w mrs →
  round_nearest_even (shr_m mrs) (loc_of_shr_record mrs) =
  nearest_even (n / w) (n mod w) w.
Proof.
  intros (Hw & Hn & Hm & Hr & Hs). destruct mrs as [m r s].
  simpl in *. subst m.
  assert (Hrho : 0 ≤ n mod w < w) by (apply Z.mod_pos_bound; lia).
  unfold nearest_even.
  destruct (Z.ltb_spec (2 * (n mod w)) w) as [Hlt | Hge].
  - assert (r = false) as ->.
    { destruct r; [| done]. assert (w ≤ 2 * (n mod w)) by (by apply Hr). lia. }
    by destruct s.
  - assert (r = true) as -> by (apply Hr; lia).
    destruct (Z.eqb_spec (2 * (n mod w)) w) as [He | He].
    + assert (s = false) as ->.
      { destruct s; [| done].
        assert (n mod w ≠ 0 ∧ 2 * (n mod w) ≠ w) by (by apply Hs). lia. }
      done.
    + assert (s = true) as -> by (apply Hs; lia). done.
Qed.

Lemma fexp_binary64 (e : Z) : fexp prec emax e = Z.max (e - 53) (-1074).
Proof. reflexivity. Qed.

Lemma pow2_pos (k : Z) : 0 ≤ k → 0 < 2 ^ k.
Proof. intros. apply Z.pow_pos_nonneg; lia. Qed.

Lemma pow2_le (a b : Z) : 0 ≤ a ≤ b → 2 ^ a ≤ 2 ^ b.
Proof. intros. apply Z.pow_le_mono_r; lia. Qed.

Lemma pow2_add (a b : Z) : 0 ≤ a → 0 ≤ b → 2 ^ (a + b) = 2 ^ a * 2 ^ b.
Proof. intros. by apply Z.pow_add_r. Qed.

Lemma nearest_even_bounds (t r w : Z) :
  t ≤ nearest_even t r w ≤ t + 1.
Proof.
  unfold nearest_even.
  destruct (2 * r <? w); [lia |]. destruct (2 * r =? w); [| lia].
  destruct (Z.even t); lia.
Qed.

(** The quotient of the integer division in [SFdiv_core_binary] has enough
    digits. *)
Lemma core_quotient_bounds (mx my : positive) (s : Z) :
  0 ≤ s →
  let d := Zpos (digits2_pos mx) + s - Zpos (digits2_pos my) in
  (1 ≤ d → 2 ^ (d - 1) ≤ Zpos mx * 2 ^ s / Zpos my) ∧
  (Zpos mx * 2 ^ s / Zpos my = 0 → d ≤ 0).
Proof.
  intros Hs d.
  pose proof (digits2_pos_bounds mx) as [Hx1 Hx2].
  pose proof (digits2_pos_bounds my) as [Hy1 Hy2].
  set (d1 := Zpos (digits2_pos mx)) in *.
  set (d2 := Zpos (digits2_pos my)) in *.
  assert (Hd1 : 1 ≤ d1) by (unfold d1; lia).
  assert (Hd2 : 1 ≤ d2) by (unfold d2; lia).
  pose proof (pow2_pos s Hs) as Hps.
  assert (Hlow : ∀ k, 0 ≤ k → k + d2 ≤ d1 - 1 + s →
            Zpos my * 2 ^ k ≤ Zpos mx * 2 ^ s).
  { intros k Hk Hle.
    assert (H1 : 2 ^ (k + d2) ≤ 2 ^ (d1 - 1 + s)) by (apply pow2_le; lia).
    rewrite !pow2_add in H1 by lia.
    pose proof (pow2_pos k Hk). pose proof (pow2_pos (d1 - 1) ltac:(lia)).
    nia. }
  split.
  - intros Hd. apply Z.div_le_lower_bound; [lia |].
    apply Hlow; unfold d in *; lia.
  - intros Hq. destruct (Z.le_gt_cases d 0) as [| Hd]; [done |].
    exfalso.
    assert (H1 : Zpos my * 2 ^ 0 ≤ Zpos mx * 2 ^ s)
      by (apply Hlow; unfold d in *; lia).
    change (2 ^ 0) with 1 in H1.
    assert (1 ≤ Zpos mx * 2 ^ s / Zpos my).
    { apply Z.div_le_lower_bound; lia. }
    lia.
Qed.

(** [SFdiv_core_binary] on two mantissas: the exponent it chooses and the
    integer division it makes. *)
Lemma SFdiv_core_binary_eq (mx my : positive) (ex ey : Z) :
  let b := Z.min (fexp prec emax (Zpos (digits2_pos mx) + ex
                                  - (Zpos (digits2_pos my) + ey)))
             (ex - ey) in
  let m' := Zpos mx * 2 ^ (ex - ey - b) in
  SFdiv_core_binary prec emax (Zpos mx) ex (Zpos my) ey =
  (m' / Zpos my, b, new_location (Zpos my) (m' mod Zpos my)).
Proof.
  intros b m'. unfold SFdiv_core_binary. cbv zeta.
  change (Zdigits2 (Zpos mx)) with (Zpos (digits2_pos mx)).
  change (Zdigits2 (Zpos my)) with (Zpos (digits2_pos my)).
  fold b.
  assert (Hs : 0 ≤ ex - ey - b) by (unfold b; lia).
  assert (Hm : match ex - ey - b with
               | 0 => Zpos mx
               | Zpos _ => Z.shiftl (Zpos mx) (ex - ey - b)
               | Zneg _ => 0
               end = m').
  { unfold m'. destruct (ex - ey - b) as [| p | p] eqn:Hsb.
    - change (2 ^ 0) with 1. lia.
    - apply Z.shiftl_mul_pow2. lia.
    - lia. }
  rewrite Hm. unfold Z.div, Z.modulo.
  by destruct (Z.div_eucl m' (Zpos my)).
Qed.

(** The quotient of two finite binary64 numbers: the exact quotient of
    the mantissas is cut at a binary exponent [b + g] not below -1074, so
    that at most 53 bits remain, and exactly 53 when the exponent is above
    -1074; the integer part is rounded to the nearest, ties to even. *)
Lemma SF64div_finite (sx sy : bool) (mx my : positive) (ex ey : Z) :
  ∃ b g t,
    b ≤ ex - ey ∧ 0 ≤ g ∧ -1074 ≤ b + g ∧
    t = Zpos mx * 2 ^ (ex - ey - b) / (Zpos my * 2 ^ g) ∧
    0 ≤ t < 2 ^ 53 ∧ (-1074 < b + g → 2 ^ 52 ≤ t) ∧
    SF64div (S754_finite sx mx ex) (S754_finite sy my ey) =
      SFencode (xorb sx sy)
        (nearest_even t
           (Zpos mx * 2 ^ (ex - ey - b) mod (Zpos my * 2 ^ g))
           (Zpos my * 2 ^ g))
        (b + g).
Proof.
  pose proof (SFdiv_core_binary_eq mx my ex ey) as Hcore. cbv zeta in Hcore.
  set (dl := Zpos (digits2_pos mx) + ex - (Zpos (digits2_pos my) + ey)) in *.
  set (b := Z.min (fexp prec emax dl) (ex - ey)) in *.
  set (m' := Zpos mx * 2 ^ (ex - ey - b)) in *.
  set (q := m' / Zpos my) in *.
  assert (Hs : 0 ≤ ex - ey - b) by (unfold b; lia).
  assert (Hm' : 0 < m').
  { unfold m'. pose proof (pow2_pos _ Hs). lia. }
  assert (Hq0 : 0 ≤ q) by (apply Z.div_pos; lia).
  destruct (core_quotient_bounds mx my (ex - ey - b) Hs) as [Hqlow Hqzero].
  fold m' q in Hqlow, Hqzero.
  assert (Hdl : Zpos (digits2_pos mx) + (ex - ey - b) - Zpos (digits2_pos my)
                = dl - b) by (unfold dl; lia).
  rewrite Hdl in Hqlow, Hqzero.
  assert (Hbf : b ≤ Z.max (dl - 53) (-1074)).
  { unfold b. rewrite fexp_binary64. lia. }
  (* the first shift *)
  set (k := fexp prec emax (Zdigits2 q + b) - b).
  pose proof (new_location_inbetween m' (Zpos my) ltac:(lia) ltac:(lia)) as Hin.
  fold q in Hin.
  destruct (shr_inbetween _ _ _ b k Hin) as (mrs1 & Hshr1 & Hin1).
  set (g := Z.max k 0) in *.
  set (w := Zpos my * 2 ^ g) in *.
  assert (Hg : 0 ≤ g) by (unfold g; lia).
  pose proof (pow2_pos g Hg) as Hpg.
  assert (Hw : 0 < w) by (unfold w; lia).
  set (t := m' / w).
  assert (Ht : t = q / 2 ^ g).
  { unfold t, q, w. symmetry. apply Z.div_div; lia. }
  assert (Ht0 : 0 ≤ t) by (apply Z.div_pos; lia).
  assert (Hk : k = Z.max (Zdigits2 q + b - 53) (-1074) - b).
  { unfold k. by rewrite fexp_binary64. }
  assert (Hbounds : -1074 ≤ b + g ∧ t < 2 ^ 53 ∧ (-1074 < b + g → 2 ^ 52 ≤ t)).
  { destruct (Z.eq_dec q 0) as [Hqz | Hqnz].
    - (* the quotient is below one unit *)
      pose proof (Hqzero Hqz) as Hdle.
      assert (Hb : b ≤ -1074) by lia.
      rewrite Hqz in Hk. simpl Zdigits2 in Hk.
      assert (Hbg : b + g = -1074) by (unfold g; lia).
      assert (t = 0) as -> by (rewrite Ht, Hqz; apply Z.div_0_l; lia).
      split; [lia |]. split; [lia |]. lia.
    - destruct (Zdigits2_bounds q ltac:(lia)) as (Hd0 & Hd1 & Hd2).
      set (d := Zdigits2 q) in *.
      destruct (Z.le_gt_cases k 0) as [Hk0 | Hk0].
      + (* no shift *)
        assert (g = 0) as Hg0 by (unfold g; lia).
        assert (t = q) as Htq.
        { rewrite Ht, Hg0. change (2 ^ 0) with 1. apply Z.div_1_r. }
        rewrite Htq, Hg0, Z.add_0_r.
        split; [lia |]. split.
        * assert (2 ^ d ≤ 2 ^ 53) by (apply pow2_le; lia). lia.
        * intros Hb.
          assert (2 ^ 52 ≤ 2 ^ (dl - b - 1)) by (apply pow2_le; lia).
          assert (2 ^ (dl - b - 1) ≤ q) by (apply Hqlow; lia). lia.
      + (* a shift by [k] places *)
        assert (g = k) as Hgk by (unfold g; lia).
        split; [lia |]. split.
        * rewrite Ht. apply Z.div_lt_upper_bound; [lia |].
          assert (2 ^ d ≤ 2 ^ (g + 53)) by (apply pow2_le; lia).
          rewrite pow2_add in * by lia. lia.
        * intros Hb. assert (Hgd : g = d - 53) by lia.
          rewrite Ht. apply Z.div_le_lower_bound; [lia |].
          assert (Hp : 2 ^ (d - 1) = 2 ^ g * 2 ^ 52).
          { rewrite <- pow2_add by lia. f_equal. lia. }
          lia. }
  destruct Hbounds as (HE & Ht53 & Ht52).
  exists b, g, t. split; [unfold b; lia |]. split; [done |].
  split; [done |]. split; [done |]. split; [done |]. split; [done |].
  (* the rounding *)
  unfold SF64div, SFdiv. rewrite Hcore. cbv iota beta.
  unfold binary_round_aux.
  assert (Hfe1 : shr_fexp prec emax q b
                   (new_location (Zpos my) (m' mod Zpos my)) = (mrs1, b + g))
    by exact Hshr1.
  rewrite Hfe1. cbv iota beta.
  rewrite (round_nearest_even_inbetween _ _ _ Hin1). fold t m' w.
  set (m := nearest_even t (m' mod w) w).
  pose proof (nearest_even_bounds t (m' mod w) w) as Hmb. fold m in Hmb.
  set (E := b + g) in *.
  assert (Hfe2 : ∀ mrs2 k2,
            k2 = Z.max (Zdigits2 m + E - 53) (-1074) - E →
            shr {| shr_m := m; shr_r := false; shr_s := false |} E k2 = mrs2 →
            shr_fexp prec emax m E loc_Exact = mrs2).
  { intros mrs2 k2 -> <-. unfold shr_fexp. by rewrite fexp_binary64. }
  unfold SFencode.
  destruct m as [| p | p] eqn:Hm; [| | lia].
  - (* zero *)
    rewrite (Hfe2 ({| shr_m := 0; shr_r := false; shr_s := false |}, E)
               _ eq_refl); [done |].
    simpl Zdigits2.
    destruct (Z.max (0 + E - 53) (-1074) - E) as [| p | p] eqn:Hk2;
      try done. lia.
  - destruct (Z.ltb_spec (Zpos p) (2 ^ prec)) as [Hlt | Hge].
    + (* no renormalization *)
      change (2 ^ prec) with (2 ^ 53) in Hlt.
      pose proof (digits2_pos_bounds p) as [Hp1 Hp2].
      assert (Hdp : Zpos (digits2_pos p) ≤ 53).
      { destruct (Z.le_gt_cases (Zpos (digits2_pos p)) 53) as [| Hgt];
          [done |].
        assert (2 ^ 53 ≤ 2 ^ (Zpos (digits2_pos p) - 1))
          by (apply pow2_le; lia). lia. }
      rewrite (Hfe2 ({| shr_m := Zpos p; shr_r := false; shr_s := false |}, E)
                 _ eq_refl); [done |].
      simpl Zdigits2.
      destruct (Z.max (Zpos (digits2_pos p) + E - 53) (-1074) - E)
        as [| p2 | p2] eqn:Hk2; try done. lia.
    + (* the mantissa is 2 ^ 53 *)
      change (2 ^ prec) with (2 ^ 53) in Hge.
      assert (Hp : Zpos p = 2 ^ 53) by lia.
      assert (Hpp : p = Z.to_pos (2 ^ 53)) by (rewrite <- Hp; done).
      rewrite (Hfe2 ({| shr_m := 2 ^ 52; shr_r := false; shr_s := false |},
                     E + 1) 1); [done | |].
      * rewrite Hpp. simpl Zdigits2. lia.
      * rewrite Hpp. done.
Qed.

Lemma nearest_even_scale (t r w c : Z) :
  0 < c → nearest_even t (r * c) (w * c) = nearest_even t r w.
Proof.
  intros Hc. unfold nearest_even.
  destruct (Z.ltb_spec (2 * (r * c)) (w * c)),
           (Z.ltb_spec (2 * r) w); try nia; try done.
  destruct (Z.eqb_spec (2 * (r * c)) (w * c)),
           (Z.eqb_spec (2 * r) w); try nia; done.
Qed.

Lemma nearest_even_mono (t r1 r2 w : Z) :
  r1 ≤ r2 → nearest_even t r1 w ≤ nearest_even t r2 w.
Proof.
  intros Hr. unfold nearest_even.
  destruct (Z.ltb_spec (2 * r1) w), (Z.ltb_spec (2 * r2) w); try lia;
    destruct (Z.eqb_spec (2 * r1) w), (Z.eqb_spec (2 * r2) w); try lia;
    destruct (Z.even t); lia.
Qed.

(** Cutting two quotients [n1 / d] and [n2 / d] with [n1 ≤ n2] at the
    exponents of their own size and rounding them to nearest keeps their
    order.  The quotients are given at a common scale: [h1] and [h2] are
    the exponents of the cuts above it. *)
Lemma cut_round_mono (n1 n2 d h1 h2 t1 t2 : Z) :
  0 < d → 0 ≤ n1 ≤ n2 → 0 ≤ h1 → 0 ≤ h2 →
  t1 = n1 / (d * 2 ^ h1) → t2 = n2 / (d * 2 ^ h2) →
  t1 < 2 ^ 53 → t2 < 2 ^ 53 →
  (h2 < h1 → 2 ^ 52 ≤ t1) → (h1 < h2 → 2 ^ 52 ≤ t2) →
  h1 ≤ h2 ∧
  nearest_even t1 (n1 mod (d * 2 ^ h1)) (d * 2 ^ h1) ≤
  nearest_even t2 (n2 mod (d * 2 ^ h2)) (d * 2 ^ h2) * 2 ^ (h2 - h1).
Proof.
  intros Hd Hn Hh1 Hh2 Ht1 Ht2 Hb1 Hb2 Hl1 Hl2.
  pose proof (pow2_pos h1 Hh1) as Hp1. pose proof (pow2_pos h2 Hh2) as Hp2.
  set (w1 := d * 2 ^ h1) in *. set (w2 := d * 2 ^ h2) in *.
  assert (Hw1 : 0 < w1) by (unfold w1; nia).
  assert (Hw2 : 0 < w2) by (unfold w2; nia).
  assert (Hdm1 : n1 = w1 * t1 + n1 mod w1 ∧ 0 ≤ n1 mod w1 < w1).
  { split; [rewrite Ht1; apply Z.div_mod; lia | apply Z.mod_pos_bound; lia]. }
  assert (Hdm2 : n2 = w2 * t2 + n2 mod w2 ∧ 0 ≤ n2 mod w2 < w2).
  { split; [rewrite Ht2; apply Z.div_mod; lia | apply Z.mod_pos_bound; lia]. }
  destruct Hdm1 as [Hn1 Hr1]. destruct Hdm2 as [Hn2 Hr2].
  assert (Ht10 : 0 ≤ t1) by (rewrite Ht1; apply Z.div_pos; lia).
  assert (Ht20 : 0 ≤ t2) by (rewrite Ht2; apply Z.div_pos; lia).
  pose proof (nearest_even_bounds t1 (n1 mod w1) w1) as Hm1.
  pose proof (nearest_even_bounds t2 (n2 mod w2) w2) as Hm2.
  destruct (Z.lt_trichotomy h1 h2) as [Hlt | [Heq | Hgt]].
  - (* the second cut is coarser *)
    split; [lia |].
    assert (H52 : 2 ^ 52 ≤ t2) by (by apply Hl2).
    assert (Hp : 2 ≤ 2 ^ (h2 - h1)).
    { change 2 with (2 ^ 1) at 1. apply pow2_le. lia. }
    change (2 ^ 53) with (2 * 2 ^ 52) in *. nia.
  - (* the same cut *)
    split; [lia |]. subst h2. rewrite Z.sub_diag. change (2 ^ 0) with 1.
    rewrite Z.mul_1_r. fold w1 in w2. subst w2.
    assert (Hle : t1 ≤ t2).
    { rewrite Ht1, Ht2. apply Z.div_le_mono; lia. }
    destruct (Z.eq_dec t1 t2) as [Hte | Htne].
    + rewrite <- Hte in *. apply nearest_even_mono. nia.
    + lia.
  - (* the first cut would be coarser: impossible *)
    exfalso.
    assert (H52 : 2 ^ 52 ≤ t1) by (by apply Hl1).
    assert (Hp : 2 ^ h1 = 2 ^ h2 * 2 ^ (h1 - h2)).
    { rewrite <- pow2_add by lia. f_equal. lia. }
    assert (Hp' : 2 ≤ 2 ^ (h1 - h2)).
    { change 2 with (2 ^ 1) at 1. apply pow2_le. lia. }
    assert (Hw : 2 * w2 ≤ w1) by (unfold w1, w2; nia).
    change (2 ^ 53) with (2 * 2 ^ 52) in *.
    assert (n2 < 2 * 2 ^ 52 * w2) by nia.
    assert (2 ^ 52 * w1 ≤ n1) by nia.
    nia.
Qed.

(** Dividing two finite numbers, the first not larger in magnitude than the
    second, by the same finite number: the magnitudes of the quotients,
    as mantissa and exponent, are in the same order. *)
Lemma SF64div_finite_mono (s1 s2 sy : bool) (m1 m2 my : positive)
    (e1 e2 ey : Z) :
  Zpos m1 * 2 ^ (e1 - Z.min e1 e2) ≤ Zpos m2 * 2 ^ (e2 - Z.min e1 e2) →
  ∃ M1 E1 M2 E2,
    SF64div (S754_finite s1 m1 e1) (S754_finite sy my ey)
      = SFencode (xorb s1 sy) M1 E1 ∧
    SF64div (S754_finite s2 m2 e2) (S754_finite sy my ey)
      = SFencode (xorb s2 sy) M2 E2 ∧
    canonic M1 E1 ∧ canonic M2 E2 ∧
    E1 ≤ E2 ∧ M1 ≤ M2 * 2 ^ (E2 - E1).
Proof.
  intros Hle.
  destruct (SF64div_finite s1 sy m1 my e1 ey)
    as (b1 & g1 & t1 & Hb1 & Hg1 & HE1 & Ht1 & Ht1b & Ht1l & Hdiv1).
  destruct (SF64div_finite s2 sy m2 my e2 ey)
    as (b2 & g2 & t2 & Hb2 & Hg2 & HE2 & Ht2 & Ht2b & Ht2l & Hdiv2).
  set (N1 := Zpos m1 * 2 ^ (e1 - ey - b1)) in *.
  set (N2 := Zpos m2 * 2 ^ (e2 - ey - b2)) in *.
  set (W1 := Zpos my * 2 ^ g1) in *. set (W2 := Zpos my * 2 ^ g2) in *.
  set (c0 := Z.min b1 b2). set (e0 := Z.min e1 e2) in *.
  assert (Hc0 : c0 ≤ b1 ∧ c0 ≤ b2) by (unfold c0; lia).
  assert (He0 : e0 ≤ e1 ∧ e0 ≤ e2 ∧ (e0 = e1 ∨ e0 = e2)) by lia.
  clearbody c0 e0.
  set (u1 := b1 - c0). set (u2 := b2 - c0).
  assert (Hu1 : 0 ≤ u1) by (unfold u1; lia).
  assert (Hu2 : 0 ≤ u2) by (unfold u2; lia).
  pose proof (pow2_pos u1 Hu1) as Hpu1. pose proof (pow2_pos u2 Hu2) as Hpu2.
  pose proof (pow2_pos g1 Hg1) as Hpg1. pose proof (pow2_pos g2 Hg2) as Hpg2.
  assert (HW1 : 0 < W1) by (unfold W1; lia).
  assert (HW2 : 0 < W2) by (unfold W2; lia).
  set (n1 := Zpos m1 * 2 ^ (e1 - ey - c0)).
  set (n2 := Zpos m2 * 2 ^ (e2 - ey - c0)).
  set (h1 := b1 + g1 - c0). set (h2 := b2 + g2 - c0).
  assert (Hn1 : n1 = N1 * 2 ^ u1).
  { unfold n1, N1, u1. rewrite <- Z.mul_assoc, <- pow2_add by lia.
    do 2 f_equal. lia. }
  assert (Hn2 : n2 = N2 * 2 ^ u2).
  { unfold n2, N2, u2. rewrite <- Z.mul_assoc, <- pow2_add by lia.
    do 2 f_equal. lia. }
  assert (Hd1 : Zpos my * 2 ^ h1 = W1 * 2 ^ u1).
  { unfold h1, W1, u1. rewrite <- Z.mul_assoc, <- pow2_add by lia.
    do 2 f_equal. lia. }
  assert (Hd2 : Zpos my * 2 ^ h2 = W2 * 2 ^ u2).
  { unfold h2, W2, u2. rewrite <- Z.mul_assoc, <- pow2_add by lia.
    do 2 f_equal. lia. }
  assert (Hn12 : 0 ≤ n1 ≤ n2).
  { assert (Hk : 0 ≤ e0 - ey - c0) by lia.
    pose proof (pow2_pos _ Hk) as Hpk.
    assert (Ha1 : n1 = Zpos m1 * 2 ^ (e1 - e0) * 2 ^ (e0 - ey - c0)).
    { unfold n1. rewrite <- Z.mul_assoc, <- pow2_add by lia.
      do 2 f_equal. lia. }
    assert (Ha2 : n2 = Zpos m2 * 2 ^ (e2 - e0) * 2 ^ (e0 - ey - c0)).
    { unfold n2. rewrite <- Z.mul_assoc, <- pow2_add by lia.
      do 2 f_equal. lia. }
    pose proof (pow2_pos (e1 - e0) ltac:(lia)) as Hp1.
    rewrite Ha1, Ha2. split.
    - apply Z.mul_nonneg_nonneg; [| lia]. apply Z.mul_nonneg_nonneg; lia.
    - apply Z.mul_le_mono_nonneg_r; [lia | exact Hle]. }
  assert (Hh1 : 0 ≤ h1) by (unfold h1; lia).
  assert (Hh2 : 0 ≤ h2) by (unfold h2; lia).
  assert (Hq1 : t1 = n1 / (Zpos my * 2 ^ h1)).
  { rewrite Hd1, Hn1, Ht1. symmetry. apply Z.div_mul_cancel_r; lia. }
  assert (Hq2 : t2 = n2 / (Zpos my * 2 ^ h2)).
  { rewrite Hd2, Hn2, Ht2. symmetry. apply Z.div_mul_cancel_r; lia. }
  assert (Hl1 : h2 < h1 → 2 ^ 52 ≤ t1).
  { intros Hlt. apply Ht1l. unfold h1, h2 in Hlt. lia. }
  assert (Hl2 : h1 < h2 → 2 ^ 52 ≤ t2).
  { intros Hlt. apply Ht2l. unfold h1, h2 in Hlt. lia. }
  destruct (cut_round_mono n1 n2 (Zpos my) h1 h2 t1 t2 ltac:(lia) Hn12 Hh1 Hh2
              Hq1 Hq2 ltac:(lia) ltac:(lia) Hl1 Hl2) as [Hh Hm].
  rewrite Hd1, Hd2, Hn1, Hn2 in Hm.
  rewrite !Z.mul_mod_distr_r, !nearest_even_scale in Hm by lia.
  pose proof (nearest_even_bounds t1 (N1 mod W1) W1) as HM1.
  pose proof (nearest_even_bounds t2 (N2 mod W2) W2) as HM2.
  exists (nearest_even t1 (N1 mod W1) W1), (b1 + g1),
         (nearest_even t2 (N2 mod W2) W2), (b2 + g2).
  split; [done |]. split; [done |].
  split. { split; [lia |]. split; [lia |]. intros H. specialize (Ht1l H). lia. }
  split. { split; [lia |]. split; [lia |]. intros H. specialize (Ht2l H). lia. }
  split; [unfold h1, h2 in Hh; lia |].
  replace (b2 + g2 - (b1 + g1)) with (h2 - h1) by (unfold h1, h2; lia).
  done.
Qed.

(** The number [SFencode] builds, with its mantissa below [2 ^ 53]. *)
Lemma SFencode_cases (m e : Z) :
  canonic m e →
  (m = 0 ∧ ∀ s, SFencode s m e = S754_zero s) ∨
  ∃ p e', Zpos p * 2 ^ (e' - e) = m ∧ e ≤ e' ∧ Zpos p < 2 ^ 53 ∧
    -1074 ≤ e' ∧ (-1074 < e' → 2 ^ 52 ≤ Zpos p) ∧
    ∀ s, SFencode s m e =
      if e' <=? 971 then S754_finite s p e' else S754_infinity s.
Proof.
  intros (Hm & He & Hl). unfold SFencode.
  destruct m as [| p | p]; [by left | | lia]. right.
  change (2 ^ prec) with (2 ^ 53). change (emax - prec) with 971.
  change (prec - 1) with 52.
  destruct (Z.ltb_spec (Zpos p) (2 ^ 53)) as [Hlt | Hge].
  - exists p, e. rewrite Z.sub_diag. change (2 ^ 0) with 1.
    split; [lia |]. split; [lia |]. split; [done |]. split; [done |].
    split; [done |]. done.
  - exists (Z.to_pos (2 ^ 52)), (e + 1).
    replace (e + 1 - e) with 1 by lia.
    split; [change (Zpos (Z.to_pos (2 ^ 52)) * 2 ^ 1) with (2 ^ 53); lia |].
    split; [lia |]. split; [done |]. split; [lia |]. split; [done |]. done.
Qed.

(** The order of two numbers built by [SFencode] follows the order of the
    values. *)
Lemma SFencode_le (M1 E1 M2 E2 : Z) :
  canonic M1 E1 → canonic M2 E2 → E1 ≤ E2 → M1 ≤ M2 * 2 ^ (E2 - E1) →
  SFleb (SFencode false M1 E1) (SFencode false M2 E2) = true ∧
  SFleb (SFencode true M2 E2) (SFencode true M1 E1) = true.
Proof.
  intros Hc1 Hc2 HE Hle.
  assert (Hpos : 0 < 2 ^ (E2 - E1)) by (apply pow2_pos; lia).
  destruct (SFencode_cases M1 E1 Hc1)
    as [[Hz1 Hf1] | (p1 & e1 & Hv1 & He1 & Hp1 & Hn1 & Hl1 & Hf1)];
    destruct (SFencode_cases M2 E2 Hc2)
      as [[Hz2 Hf2] | (p2 & e2 & Hv2 & He2 & Hp2 & Hn2 & Hl2 & Hf2)];
    rewrite !Hf1, !Hf2.
  - done.
  - by destruct (e2 <=? 971).
  - (* the second quotient is zero, the first is not *)
    exfalso. pose proof (pow2_pos (e1 - E1) ltac:(lia)). nia.
  - assert (Hord : e1 < e2 ∨ (e1 = e2 ∧ Zpos p1 ≤ Zpos p2)).
    { revert Hle. rewrite <- Hv1, <- Hv2. intros Hle.
      assert (Hv2' : Zpos p2 * 2 ^ (e2 - E2) * 2 ^ (E2 - E1)
                     = Zpos p2 * 2 ^ (e2 - E1)).
      { rewrite <- Z.mul_assoc, <- pow2_add by lia. do 2 f_equal. lia. }
      rewrite Hv2' in Hle.
      destruct (Z.lt_trichotomy e1 e2) as [Hlt | [Heq | Hgt]]; [by left | |].
      - right. split; [done |]. subst e2.
        pose proof (pow2_pos (e1 - E1) ltac:(lia)). nia.
      - exfalso. assert (H52 : 2 ^ 52 ≤ Zpos p1) by (apply Hl1; lia).
        assert (Hp : 2 ^ (e1 - E1) = 2 ^ (e2 - E1) * 2 ^ (e1 - e2)).
        { rewrite <- pow2_add by lia. f_equal. lia. }
        assert (Hp' : 2 ≤ 2 ^ (e1 - e2)).
        { change 2 with (2 ^ 1) at 1. apply pow2_le. lia. }
        pose proof (pow2_pos (e2 - E1) ltac:(lia)).
        change (2 ^ 53) with (2 * 2 ^ 52) in *. nia. }
    clear Hle HE Hv1 Hv2.
    destruct (Z.leb_spec e1 971), (Z.leb_spec e2 971); try done; [| lia].
    unfold SFleb, SFcompare.
    destruct Hord as [Hlt | [-> Hp]].
    + rewrite (proj2 (Z.compare_lt_iff e1 e2)) by lia.
      rewrite (proj2 (Z.compare_gt_iff e2 e1)) by lia. done.
    + rewrite Z.compare_refl.
      change (Pos.compare_cont Eq p1 p2) with (Pos.compare p1 p2).
      change (Pos.compare_cont Eq p2 p1) with (Pos.compare p2 p1).
      destruct (Pos.compare_spec p1 p2), (Pos.compare_spec p2 p1);
        simpl; try done; lia.
Qed.

Lemma bounded_canonical (m : positive) (e : Z) :
  bounded prec emax m e = true →
  Z.max (Zpos (digits2_pos m) + e - 53) (-1074) = e.
Proof.
  unfold bounded, canonical_mantissa. intros [H _]%andb_true_iff.
  apply Z.eqb_eq in H. by rewrite fexp_binary64 in H.
Qed.

(** The order of two finite numbers of the format, by exponent and then
    by mantissa, is the order of their magnitudes. *)
Lemma bounded_lt_values (m1 m2 : positive) (e1 e2 : Z) :
  bounded prec emax m1 e1 = true → bounded prec emax m2 e2 = true →
  e1 < e2 ∨ (e1 = e2 ∧ Zpos m1 < Zpos m2) →
  Zpos m1 * 2 ^ (e1 - Z.min e1 e2) ≤ Zpos m2 * 2 ^ (e2 - Z.min e1 e2).
Proof.
  intros Hb1%bounded_canonical Hb2%bounded_canonical [Hlt | [-> Hm]].
  - replace (Z.min e1 e2) with e1 by lia. rewrite Z.sub_diag.
    change (2 ^ 0) with 1. rewrite Z.mul_1_r.
    pose proof (digits2_pos_bounds m1) as [_ H1].
    pose proof (digits2_pos_bounds m2) as [H2 _].
    assert (Hd2 : Zpos (digits2_pos m2) = 53) by lia.
    rewrite Hd2 in H2. change (2 ^ (53 - 1)) with (2 ^ 52) in H2.
    assert (H1' : 2 ^ Zpos (digits2_pos m1) ≤ 2 ^ 53)
      by (apply pow2_le; lia).
    assert (Hp : 2 ≤ 2 ^ (e2 - e1)).
    { change 2 with (2 ^ 1) at 1. apply pow2_le. lia. }
    change (2 ^ 53) with (2 * 2 ^ 52) in *. nia.
  - replace (Z.min e2 e2) with e2 by lia. rewrite Z.sub_diag.
    change (2 ^ 0) with 1. lia.
Qed.

Lemma SFltb_finite (s1 s2 : bool) (m1 m2 : positive) (e1 e2 : Z) :
  SFltb (S754_finite s1 m1 e1) (S754_finite s2 m2 e2) = true →
  (s1 = true ∧ s2 = false) ∨
  (s1 = false ∧ s2 = false ∧ (e1 < e2 ∨ (e1 = e2 ∧ Zpos m1 < Zpos m2))) ∨
  (s1 = true ∧ s2 = true ∧ (e2 < e1 ∨ (e2 = e1 ∧ Zpos m2 < Zpos m1))).
Proof.
  unfold SFltb, SFcompare.
  change (Pos.compare_cont Eq m1 m2) with (Pos.compare m1 m2).
  destruct s1, s2; try done; intros H.
  - right. right. split; [done |]. split; [done |].
    destruct (Z.compare_spec e1 e2); try done; [| by left].
    right. split; [done |].
    destruct (Pos.compare_spec m1 m2); try done; lia.
  - by left.
  - right. left. split; [done |]. split; [done |].
    destruct (Z.compare_spec e1 e2); try done; [| by left].
    right. split; [done |].
    destruct (Pos.compare_spec m1 m2); try done; lia.
Qed.

Lemma SFencode_shape (s : bool) (m e : Z) :
  canonic m e →
  SFencode s m e = S754_zero s ∨ (∃ p e', SFencode s m e = S754_finite s p e') ∨
  SFencode s m e = S754_infinity s.
Proof.
  intros Hc. destruct (SFencode_cases m e Hc)
    as [[_ H] | (p & e' & _ & _ & _ & _ & _ & H)]; rewrite H.
  - by left.
  - destruct (e' <=? 971); [right; left; by eexists _, _ | by right; right].
Qed.

Lemma SF64div_finite_shape (s : bool) (m md : positive) (e ed : Z) :
  SF64div (S754_finite s m e) (S754_finite false md ed) = S754_zero s ∨
  (∃ p e', SF64div (S754_finite s m e) (S754_finite false md ed)
           = S754_finite s p e') ∨
  SF64div (S754_finite s m e) (S754_finite false md ed) = S754_infinity s.
Proof.
  destruct (SF64div_finite_mono s s false m m md e e ed ltac:(lia))
    as (M & E & _ & _ & -> & _ & Hc & _).
  rewrite xorb_false_r. by apply SFencode_shape.
Qed.

(** Division by a positive finite number keeps the order of any two
    numbers of the format, weakly. *)
Lemma SF64div_mono (x y : spec_float) (md : positive) (ed : Z) :
  valid_binary x = true → valid_binary y = true →
  SFltb x y = true →
  SFleb (SF64div x (S754_finite false md ed))
        (SF64div y (S754_finite false md ed)) = true.
Proof.
  intros Hx Hy Hlt.
  destruct x as [sx | sx | | sx mx ex], y as [sy | sy | | sy my ey];
    try discriminate Hlt.
  - (* zero, infinity *)
    destruct sx, sy; try discriminate Hlt; done.
  - (* zero, finite *)
    assert (sy = false) as -> by (destruct sx, sy; by try discriminate Hlt).
    destruct (SF64div_finite_shape false my md ey ed)
      as [H | [(p & e' & H) | H]]; rewrite H; by destruct sx.
  - (* infinity, zero *)
    destruct sx, sy; try discriminate Hlt; done.
  - (* infinity, infinity *)
    destruct sx, sy; try discriminate Hlt; done.
  - (* infinity, finite *)
    assert (sx = true) as -> by (destruct sx, sy; by try discriminate Hlt).
    destruct (SF64div_finite_shape sy my md ey ed)
      as [H | [(p & e' & H) | H]]; rewrite H; by destruct sy.
  - (* finite, zero *)
    assert (sx = true) as -> by (destruct sx, sy; by try discriminate Hlt).
    destruct (SF64div_finite_shape true mx md ex ed)
      as [H | [(p & e' & H) | H]]; rewrite H; by destruct sy.
  - (* finite, infinity *)
    assert (sy = false) as -> by (destruct sx, sy; by try discriminate Hlt).
    destruct (SF64div_finite_shape sx mx md ex ed)
      as [H | [(p & e' & H) | H]]; rewrite H; by destruct sx.
  - (* finite, finite *)
    simpl in Hx, Hy.
    destruct (SFltb_finite _ _ _ _ _ _ Hlt)
      as [[-> ->] | [(-> & -> & Hord) | (-> & -> & Hord)]].
    + destruct (SF64div_finite_shape true mx md ex ed)
        as [H1 | [(p1 & e1 & H1) | H1]];
        destruct (SF64div_finite_shape false my md ey ed)
          as [H2 | [(p2 & e2 & H2) | H2]]; by rewrite H1, H2.
    + pose proof (bounded_lt_values mx my ex ey Hx Hy Hord) as Hv.
      destruct (SF64div_finite_mono false false false mx my md ex ey ed Hv)
        as (M1 & E1 & M2 & E2 & -> & -> & Hc1 & Hc2 & HE & HM).
      by apply SFencode_le.
    + pose proof (bounded_lt_values my mx ey ex Hy Hx Hord) as Hv.
      destruct (SF64div_finite_mono true true false my mx md ey ex ed Hv)
        as (M1 & E1 & M2 & E2 & -> & -> & Hc1 & Hc2 & HE & HM).
      by apply SFencode_le.
Qed.

(** Two numbers that compare equal are two zeros or the same number. *)
Lemma SFcompare_Eq (x y : spec_float) :
  SFcompare x y = Some Eq →
  (∃ s1 s2, x = S754_zero s1 ∧ y = S754_zero s2) ∨
  (x = y ∧ x ≠ S754_nan).
Proof.
  destruct x as [sx | sx | | sx mx ex], y as [sy | sy | | sy my ey];
    simpl; try done.
  - intros _. left. by eexists _, _.
  - by destruct sy.
  - by destruct sy.
  - by destruct sx.
  - destruct sx, sy; try done; intros _; by right.
  - by destruct sx.
  - by destruct sx.
  - by destruct sy.
  - change (Pos.compare_cont Eq mx my) with (Pos.compare mx my).
    destruct sx, sy; try done;
      destruct (Z.compare_spec ex ey) as [-> | |]; try done;
      destruct (Pos.compare_spec mx my) as [-> | |]; try done;
      intros _; by right.
Qed.

Lemma SFleb_refl (x : spec_float) : x ≠ S754_nan → SFleb x x = true.
Proof.
  destruct x as [s | s | | s m e]; try done; intros _.
  - by destruct s.
  - unfold SFleb, SFcompare.
    change (Pos.compare_cont Eq m m) with (Pos.compare m m).
    rewrite Z.compare_refl, Pos.compare_refl. by destruct s.
Qed.

(** Division by a positive finite number keeps the weak order too. *)
Lemma SF64div_mono_le (x y : spec_float) (md : positive) (ed : Z) :
  valid_binary x = true → valid_binary y = true →
  SFleb x y = true →
  SFleb (SF64div x (S754_finite false md ed))
        (SF64div y (S754_finite false md ed)) = true.
Proof.
  intros Hx Hy Hle. unfold SFleb in Hle.
  destruct (SFcompare x y) as [[| |] |] eqn:Hc; try done.
  - apply SFcompare_Eq in Hc as [(s1 & s2 & -> & ->) | [<- Hn]].
    + by destruct s1, s2.
    + apply SFleb_refl.
      destruct x as [s | s | | s m e]; try done.
      destruct (SF64div_finite_shape s m md e ed)
        as [H | [(p & e' & H) | H]]; by rewrite H.
  - apply SF64div_mono; [done | done |]. unfold SFltb. by rewrite Hc.
Qed.

Lemma float_positive_finite (d : float) :
  (0 <? d)%float = true → (d <? infinity)%float = true →
  ∃ md ed, Prim2SF d = S754_finite false md ed.
Proof.
  rewrite !ltb_spec. intros Hd0 Hdi.
  change (Prim2SF 0) with (S754_zero false) in Hd0.
  change (Prim2SF infinity) with (S754_infinity false) in Hdi.
  destruct (Prim2SF d) as [s | s | | s md ed]; try discriminate Hd0.
  - destruct s; discriminate.
  - destruct s; [discriminate |]. by eexists _, _.
Qed.

(** Binary64 division by a positive finite number is monotone: it never
    reverses the order of two numbers, though it can make them equal. *)
Lemma float_div_mono (a b d : float) :
  (0 <? d)%float = true → (d <? infinity)%float = true →
  (a <? b)%float = true → (a / d <=? b / d)%float = true.
Proof.
  intros Hd0 Hdi.
  destruct (float_positive_finite d Hd0 Hdi) as (md & ed & Hd).
  rewrite ltb_spec, leb_spec, !div_spec, Hd.
  apply SF64div_mono; apply Prim2SF_valid.
Qed.

Lemma float_div_mono_le (a b d : float) :
  (0 <? d)%float = true → (d <? infinity)%float = true →
  (a <=? b)%float = true → (a / d <=? b / d)%float = true.
Proof.
  intros Hd0 Hdi.
  destruct (float_positive_finite d Hd0 Hdi) as (md & ed & Hd).
  rewrite !leb_spec, !div_spec, Hd.
  apply SF64div_mono_le; apply Prim2SF_valid.
Qed.

(** Neither condition on the divisor can be dropped: an infinite divisor
    or a zero one makes a quotient undefined, a negative one reverses the
    order. *)
Example float_div_mono_sharp :
  (1 <? infinity)%float = true ∧
  (1 / infinity <=? infinity / infinity)%float = false ∧
  (0 <? 1)%float = true ∧ (0 / 0 <=? 1 / 0)%float = false ∧
  (1 <? 2)%float = true ∧ (1 / -1 <=? 2 / -1)%float = false.
Proof. repeat split; reflexivity. Qed.

(** A number above the threshold of the rescale pass is positive. *)
Lemma above_threshold_positive (x : float) :
  (1e100 <? x)%float = true → (0 <? x)%float = true.
Proof.
  rewrite !ltb_spec.
  change (Prim2SF 0) with (S754_zero false).
  set (c := Prim2SF 1e100). vm_compute in c. subst c.
  destruct (Prim2SF x) as [s | s | | s m e]; try done; by destruct s.
Qed.

(** ** Rescaling the scores *)

(** C8, as the code has it: [rescore] divides the score of every variable
    from 1 to [max_var] by [scinc], in binary64 arithmetic, sets [scinc]
    to 1 and counts the pass; no other record changes, and variables with
    equal scores keep equal scores.  With a positive finite [scinc] the
    pass never reverses the order of two scores: a score below another, or
    not above it, is not above it afterwards; the two may have become
    equal.  A [scinc] above 1e100 is positive.  The pass runs inside
    [bump_variable] when the bumped score exceeds 1e100, and at the end of
    [bump_and_clear_seen_variables] when the decayed [scinc] does. *)
Theorem rescore_effect (s : Internal) :
  (Z.to_nat (max_var s) < length (vtab s))%nat →
  (∃ s', rescore s = Some s' ∧ scinc s' = 1%float ∧
     Stats.rescored (stats s') = Stats.rescored (stats s) + 1 ∧
     (∀ idx v, (1 ≤ idx ≤ Z.to_nat (max_var s))%nat →
        vtab s !! idx = Some v →
        vtab s' !! idx =
          Some (Var.set_score (Var.score v / scinc s)%float v)) ∧
     (∀ idx, ¬ (1 ≤ idx ≤ Z.to_nat (max_var s))%nat →
        vtab s' !! idx = vtab s !! idx) ∧
     (∀ a b va vb va' vb',
        (1 ≤ a ≤ Z.to_nat (max_var s))%nat →
        (1 ≤ b ≤ Z.to_nat (max_var s))%nat →
        vtab s !! a = Some va → vtab s !! b = Some vb →
        vtab s' !! a = Some va' → vtab s' !! b = Some vb' →
        Var.score va = Var.score vb → Var.score va' = Var.score vb') ∧
     ((0 <? scinc s)%float = true → (scinc s <? infinity)%float = true →
      ∀ a b va vb va' vb',
        (1 ≤ a ≤ Z.to_nat (max_var s))%nat →
        (1 ≤ b ≤ Z.to_nat (max_var s))%nat →
        vtab s !! a = Some va → vtab s !! b = Some vb →
        vtab s' !! a = Some va' → vtab s' !! b = Some vb' →
        ((Var.score va <? Var.score vb)%float = true →
         (Var.score va' <=? Var.score vb')%float = true) ∧
        ((Var.score va <=? Var.score vb)%float = true →
         (Var.score va' <=? Var.score vb')%float = true))) ∧
  (∀ q1 q2 x v,
     queue_repr s (q1 ++ x :: q2) → q2 ≠ [] → vtab s !! x = Some v →
     (1e100 <? Var.score v + scinc s)%float = true →
     ∃ s', bump_variable x s = Some s' ∧ scinc s' = 1%float ∧
       Stats.rescored (stats s') = Stats.rescored (stats s) + 1 ∧
       ∀ y w, (1 ≤ y ≤ Z.to_nat (max_var s))%nat → vtab s !! y = Some w →
         ∃ w', vtab s' !! y = Some w' ∧
           Var.score w' =
             ((if bool_decide (y = x) then Var.score w + scinc s
               else Var.score w) / scinc s)%float) ∧
  (∀ s', bump_and_clear_seen_variables s = Some s' →
     ∃ sb, (sort_seen s ≫= λ sa, bump_seen (seen sa) sa) = Some sb ∧
       let sd := set_scinc (scinc sb / Opts.decay (opts sb))%float
                   (set_seen [] sb) in
       if (1e100 <? scinc sd)%float then rescore sd = Some s'
       else s' = sd) ∧
  ((1e100 <? scinc s)%float = true → (0 <? scinc s)%float = true).
Proof.
  intros Hlen. split; [| split; [| split]].
  - destruct (rescore_spec s Hlen) as (s' & Hrun & Hsc & Hst & _ & Hvt & _).
    exists s'. split; [done |]. split; [done |].
    split; [by rewrite Hst |]. split; [| split; [| split]].
    + intros idx v Hidx Hv. rewrite Hvt, Hv.
      by rewrite bool_decide_eq_true_2.
    + intros idx Hidx. rewrite Hvt. by rewrite bool_decide_eq_false_2.
    + intros a b va vb va' vb' Ha Hb Hva Hvb Hva' Hvb' Heq.
      rewrite Hvt, Hva, bool_decide_eq_true_2 in Hva' by done.
      rewrite Hvt, Hvb, bool_decide_eq_true_2 in Hvb' by done.
      simpl in *. injection Hva' as <-. injection Hvb' as <-. simpl.
      by rewrite Heq.
    + intros Hpos Hfin a b va vb va' vb' Ha Hb Hva Hvb Hva' Hvb'.
      rewrite Hvt, Hva, bool_decide_eq_true_2 in Hva' by done.
      rewrite Hvt, Hvb, bool_decide_eq_true_2 in Hvb' by done.
      simpl in Hva', Hvb'. injection Hva' as <-. injection Hvb' as <-.
      simpl. split; intros Hord.
      * by apply float_div_mono.
      * by apply float_div_mono_le.
  - intros q1 q2 x v Hq Hq2 Hv Hbig.
    assert (Hx : x ∈ q1 ++ x :: q2).
    { apply elem_of_app. right. by left. }
    destruct (lookup_lt_is_Some_2 (vals s) x) as [val Hval].
    { pose proof (qr_vals _ _ Hq). pose proof (qr_range _ _ Hq x Hx). lia. }
    destruct (bump_variable_moves s q1 q2 x v val Hq Hq2 Hv Hval)
      as (s' & sc & Hrun & _ & Hxv & Hsc & _ & _ & _ & _ & _ & Hoth & Hsc'
          & Hres).
    rewrite Hbig in Hoth, Hsc', Hres. simpl in Hsc. rewrite Hbig in Hsc.
    exists s'. split; [done |]. split; [done |]. split; [done |].
    intros y w Hy Hw. destruct (bool_decide_reflect (y = x)) as [-> | Hne].
    + eexists. split; [exact Hxv |]. simpl.
      assert (w = v) as -> by congruence. done.
    + destruct (Hoth y w Hne Hw) as (w' & Hw' & _ & Hs).
      exists w'. split; [done |]. by apply Hs.
  - intros s' Hrun. unfold bump_and_clear_seen_variables in Hrun.
    destruct (sort_seen s) as [sa |]; [| done]. simpl in *.
    destruct (bump_seen (seen sa) sa) as [sb |]; [| done]. simpl in *.
    exists sb. split; [done |].
    destruct (1e100 <? scinc sb / Opts.decay (opts sb))%float;
      [done | by injection Hrun].
  - apply above_threshold_positive.
Qed.

(** The rescale pass on the sample state [before_rescale], where [scinc]
    is 1.02e100: every score is divided, and no two scores change
    places. *)
Lemma rescore_effect_witness :
  ∃ s', rescore Sample.before_rescale = Some s' ∧ scinc s' = 1%float ∧
    Stats.rescored (stats s') = 1 ∧
    (∀ idx v, (1 ≤ idx ≤ 5)%nat →
       vtab Sample.before_rescale !! idx = Some v →
       vtab s' !! idx =
         Some (Var.set_score (Var.score v / 1.02e100)%float v)) ∧
    (∀ a b va vb va' vb', (1 ≤ a ≤ 5)%nat → (1 ≤ b ≤ 5)%nat →
       vtab Sample.before_rescale !! a = Some va →
       vtab Sample.before_rescale !! b = Some vb →
       vtab s' !! a = Some va' → vtab s' !! b = Some vb' →
       (Var.score va <? Var.score vb)%float = true →
       (Var.score va' <=? Var.score vb')%float = true).
Proof.
  destruct (rescore_effect Sample.before_rescale) as [H _];
    [simpl; lia |].
  destruct H as (s' & Hrun & Hsc & Hst & Hvt & _ & _ & Hord).
  exists s'. split; [done |]. split; [done |]. split; [done |].
  split; [done |].
  intros a b va vb va' vb' Ha Hb Hva Hvb Hva' Hvb'.
  by apply (Hord eq_refl eq_refl a b va vb va' vb').
Defined.

(** C8, the statement refuted: in the sample state [scinc] exceeds 1e100;
    the score of variable 1 is below the score of variable 2, and the
    score of variable 3 is below the score of variable 4, and after
    [rescore] neither is: the first two quotients underflow to 0 and the
    last two round to the same number. *)
Lemma rescore_merges_scores :
  ∃ s' v1 v2 v3 v4 w1 w2 w3 w4,
    (1e100 <? scinc Sample.before_rescale)%float = true ∧
    rescore Sample.before_rescale = Some s' ∧
    vtab Sample.before_rescale !! 1%nat = Some v1 ∧
    vtab Sample.before_rescale !! 2%nat = Some v2 ∧
    vtab Sample.before_rescale !! 3%nat = Some v3 ∧
    vtab Sample.before_rescale !! 4%nat = Some v4 ∧
    vtab s' !! 1%nat = Some w1 ∧ vtab s' !! 2%nat = Some w2 ∧
    vtab s' !! 3%nat = Some w3 ∧ vtab s' !! 4%nat = Some w4 ∧
    (Var.score v1 <? Var.score v2)%float = true ∧
    (Var.score w1 <? Var.score w2)%float = false ∧
    (Var.score v3 <? Var.score v4)%float = true ∧
    (Var.score w3 <? Var.score w4)%float = false.
Proof.
  destruct (rescore Sample.before_rescale) as [s' |] eqn:Hrun;
    vm_compute in Hrun; [| discriminate].
  injection Hrun as <-.
  eexists _, _, _, _, _, _, _, _, _.
  split; [reflexivity |]. split; [reflexivity |].
  split; [reflexivity |]. split; [reflexivity |].
  split; [reflexivity |]. split; [reflexivity |].
  split; [reflexivity |]. split; [reflexivity |].
  split; [reflexivity |]. split; [reflexivity |].
  split; [reflexivity |]. split; [reflexivity |].
  split; reflexivity.
Qed.

(** ** The trail walk and the marks of the analysis *)

(** X1: the walk back over the trail stops at the nearest position below
    the iterator whose variable is marked seen, and every position it
    stepped over is unseen; it leaves the trail at its start (undefined in
    the source) exactly when no variable below the iterator is seen. *)
Theorem previous_seen_nearest (s : Internal) (i : nat) :
  (i ≤ length (trail s))%nat →
  (∀ p t, (p < i)%nat → trail s !! p = Some t → is_Some (var s t)) →
  match previous_seen s i with
  | Some (uip, j) =>
      (j < i)%nat ∧ trail s !! j = Some uip ∧
      (∃ v, var s uip = Some v ∧ Var.seen v = true) ∧
      ∀ k t v, (j < k < i)%nat → trail s !! k = Some t → var s t = Some v →
        Var.seen v = false
  | None =>
      ∀ k t v, (k < i)%nat → trail s !! k = Some t → var s t = Some v →
        Var.seen v = false
  end.
Proof.
  induction i as [| i IH]; intros Hi Hvars; simpl.
  - intros k t v Hk. lia.
  - destruct (lookup_lt_is_Some_2 (trail s) i) as [u Hu]; [lia |].
    rewrite Hu. simpl.
    destruct (Hvars i u) as [w Hw]; [lia | done |]. rewrite Hw. simpl.
    destruct (Var.seen w) eqn:Hs.
    + split; [lia |]. split; [done |]. split; [by exists w |].
      intros k t v Hk. lia.
    + assert (IH' := IH ltac:(lia) (λ p t Hp, Hvars p t ltac:(lia))).
      destruct (previous_seen s i) as [[uip j] |].
      * destruct IH' as (Hj & Hjt & Hjs & Hbetween).
        split; [lia |]. split; [done |]. split; [done |].
        intros k t v Hk Ht Hv. destruct (decide (k = i)) as [-> | Hne].
        -- congruence.
        -- eapply Hbetween; [| done | done]. lia.
      * intros k t v Hk Ht Hv. destruct (decide (k = i)) as [-> | Hne].
        -- congruence.
        -- eapply IH'; [| done | done]. lia.
Qed.

(** The walk from the end of the sample trail, before any variable is
    marked: it finds nothing. *)
Lemma previous_seen_nearest_witness :
  previous_seen Sample.at_level_3 5 = None ∧
  ∀ k t v, (k < 5)%nat → trail Sample.at_level_3 !! k = Some t →
    var Sample.at_level_3 t = Some v → Var.seen v = false.
Proof.
  split; [reflexivity |].
  assert (H := previous_seen_nearest Sample.at_level_3 5).
  simpl in H. apply H; [lia |].
  intros p t Hp. destruct p as [| [| [| [| [| p]]]]]; [.. | lia];
    intros [= <-]; by eexists.
Defined.

(** X2: [analyze_literal] counts a variable once: after a call on a
    literal, a second call on that literal or on its negation returns
    false and changes nothing. *)
Theorem analyze_literal_once (s s' : Internal) (lit : Z) (b : bool) :
  analyze_literal lit s = Some (b, s') →
  analyze_literal lit s' = Some (false, s') ∧
  analyze_literal (- lit) s' = Some (false, s').
Proof.
  intros Hrun.
  assert (H : ∃ w, var s' lit = Some w ∧
                   (Var.seen w = true ∨ Var.level w = 0)).
  { destruct (var s lit) as [v |] eqn:Hv.
    2: { unfold analyze_literal in Hrun. by rewrite Hv in Hrun. }
    destruct (decide (Var.seen v = true ∨ Var.level v = 0)) as [Hold | Hnew].
    { rewrite (analyze_literal_old s lit v Hv Hold) in Hrun.
      injection Hrun as <- <-. by exists v. }
    assert (Hs : Var.seen v = false).
    { destruct (Var.seen v); [| done]. exfalso. apply Hnew. by left. }
    assert (Hl : Var.level v ≠ 0).
    { intros H0. apply Hnew. by right. }
    destruct (control_at s (Var.level v)) as [l |] eqn:Hc.
    - destruct (analyze_literal_fresh s lit v l Hv Hs Hl Hc)
        as (s'' & Hrun' & _ & _ & _ & _ & Hvt & _).
      assert (s'' = s') as -> by congruence.
      exists (Var.set_seen true v). split; [| by left].
      unfold var in *. rewrite Hvt. apply list_lookup_insert_eq.
      by eapply lookup_lt_Some.
    - unfold analyze_literal in Hrun. rewrite Hv in Hrun. simpl in Hrun.
      rewrite Hs in Hrun.
      destruct (Z.eqb_spec (Var.level v) 0) as [| _]; [done |].
      unfold control_at in *.
      destruct (Var.level v <? level s); simpl in Hrun;
        by rewrite Hc in Hrun. }
  destruct H as (w & Hw & Hold). split.
  - by eapply analyze_literal_old.
  - eapply analyze_literal_old; [by rewrite var_opp | done].
Qed.

(** The literal [-3] analyzed twice in the sample state. *)
Lemma analyze_literal_once_witness :
  ∃ s', analyze_literal (-3) Sample.at_level_3 = Some (true, s') ∧
    analyze_literal (-3) s' = Some (false, s') ∧
    analyze_literal 3 s' = Some (false, s').
Proof.
  eexists. split; [reflexivity |].
  exact (analyze_literal_once Sample.at_level_3 _ (-3) true eq_refl).
Defined.

(** ** Stamps, sorting and levels *)

(** X3: [bump_resolved_clauses] on a vector of distinct clauses, when no
    stamp exceeds the counter [stats.resolved]: the vector is cleared, no
    stamp exceeds the new counter, two bumped clauses keep the order their
    stamps had, distinct bumped clauses get distinct stamps, and every
    bumped clause gets a stamp larger than that of any clause that was
    not bumped. *)
Theorem bump_resolved_clauses_order (s : Internal) :
  NoDup (resolved s) → Forall (λ c, is_Some (deref s c)) (resolved s) →
  (∀ c cl, deref s c = Some cl →
     Clause.resolved cl ≤ Stats.resolved (stats s)) →
  ∃ s', bump_resolved_clauses s = Some s' ∧ resolved s' = [] ∧
    (∀ c cl, deref s' c = Some cl →
       Clause.resolved cl ≤ Stats.resolved (stats s')) ∧
    (∀ a b ca cb, a ∈ resolved s → b ∈ resolved s →
       deref s a = Some ca → deref s b = Some cb →
       Clause.resolved ca < Clause.resolved cb →
       ∃ ca' cb', deref s' a = Some ca' ∧ deref s' b = Some cb' ∧
         Clause.resolved ca' < Clause.resolved cb') ∧
    (∀ a b ca' cb', a ∈ resolved s → b ∈ resolved s → a ≠ b →
       deref s' a = Some ca' → deref s' b = Some cb' →
       Clause.resolved ca' ≠ Clause.resolved cb') ∧
    (∀ a c cl, a ∈ resolved s → c ∉ resolved s → deref s' c = Some cl →
       ∃ ca', deref s' a = Some ca' ∧
         Clause.resolved cl < Clause.resolved ca').
Proof.
  intros Hnd Hall Hle.
  destruct (bump_resolved_clauses_stamps s Hnd Hall)
    as (s' & sorted & Hrun & Hperm & Hsorted & Hres & Hst & Hstamp & Hrest).
  assert (Hidx : ∀ a, a ∈ resolved s → ∃ i cl, sorted !! i = Some a ∧
            (i < length (resolved s))%nat ∧ deref s a = Some cl ∧
            deref s' a = Some (Clause.set_resolved
                     (Stats.resolved (stats s) + Z.of_nat i + 1) cl)).
  { intros a Ha. rewrite <- Hperm in Ha.
    apply list_elem_of_lookup_1 in Ha as [i Hi].
    destruct (Hstamp i a Hi) as (cl & Hcl & Hcl').
    exists i, cl. split; [done |]. split; [| done].
    rewrite <- Hperm. by eapply lookup_lt_Some. }
  assert (Hnds : NoDup sorted) by (by rewrite Hperm).
  exists s'. split; [done |]. split; [done |]. split; [| split; [| split]].
  - intros c cl Hcl. rewrite Hst.
    destruct (decide (c ∈ resolved s)) as [Hin | Hout].
    + destruct (Hidx c Hin) as (i & cl0 & _ & Hi & _ & Hc').
      rewrite Hc' in Hcl. injection Hcl as <-. simpl. lia.
    + rewrite Hrest in Hcl by done. specialize (Hle c cl Hcl). lia.
  - intros a b ca cb Ha Hb Hca Hcb Hlt.
    destruct (Hidx a Ha) as (i & ca0 & Hi & _ & Hca0 & Ha').
    destruct (Hidx b Hb) as (j & cb0 & Hj & _ & Hcb0 & Hb').
    assert (Heq : ca0 = ca) by congruence. subst ca0.
    assert (Heq : cb0 = cb) by congruence. subst cb0.
    eexists _, _. split; [done |]. split; [done |]. simpl.
    destruct (lt_eq_lt_dec i j) as [[Hij | ->] | Hji]; [lia | |].
    + assert (Heq : a = b) by congruence. subst b.
      assert (Heq : ca = cb) by congruence. subst cb. lia.
    + destruct (StronglySorted_lookup_le _ _ _ _ _ _ Hsorted Hji Hj Hi)
        as (xb & xa & Hxb & Hxa & Hba).
      assert (Heq : xa = ca) by congruence. subst xa.
      assert (Heq : xb = cb) by congruence. subst xb. lia.
  - intros a b ca' cb' Ha Hb Hab Hca' Hcb'.
    destruct (Hidx a Ha) as (i & ca0 & Hi & _ & _ & Ha').
    destruct (Hidx b Hb) as (j & cb0 & Hj & _ & _ & Hb').
    rewrite Ha' in Hca'. rewrite Hb' in Hcb'.
    injection Hca' as <-. injection Hcb' as <-. simpl.
    intros Heq. assert (Hij : i = j) by lia. subst j. congruence.
  - intros a c cl Ha Hc Hcl.
    destruct (Hidx a Ha) as (i & ca0 & _ & _ & _ & Ha').
    eexists. split; [done |]. simpl.
    rewrite Hrest in Hcl by done. specialize (Hle c cl Hcl). lia.
Qed.

(** Both clauses of the sample state in the vector, clause 1 with the
    older stamp. *)
Lemma bump_resolved_clauses_order_witness :
  ∃ s', bump_resolved_clauses
          (set_resolved [1; 0]%nat Sample.at_level_3) = Some s' ∧
    resolved s' = [] ∧ Stats.resolved (stats s') = 2.
Proof.
  destruct (bump_resolved_clauses_order
              (set_resolved [1; 0]%nat Sample.at_level_3))
    as (s' & Hrun & Hres & _).
  - by apply (bool_decide_unpack _).
  - repeat constructor; by eexists.
  - intros c cl Hc. destruct c as [| [| c]]; simpl in Hc; [| | done];
      by injection Hc as <-.
  - exists s'. split; [done |]. split; [done |].
    vm_compute in Hrun. by injection Hrun as <-.
Defined.

(** X4: [sort_seen] only reorders the vector [seen]: for every value of
    the option [bumpsort] the result is a permutation of the vector and
    nothing else changes.  For the values 1, 2 and 3 the result is
    ordered by the key of the comparator, for 5 it is the vector
    reversed, and for a value outside 1..5 the vector is unchanged. *)
Theorem sort_seen_permutation (s : Internal) :
  Forall (λ lit, is_Some (var s lit)) (seen s) →
  ∃ l, sort_seen s = Some (set_seen l s) ∧ l ≡ₚ seen s ∧
    (Opts.bumpsort (opts s) = 1 →
     StronglySorted (λ a b, ∃ u v, var s a = Some u ∧ var s b = Some v ∧
                              Var.bumped u ≤ Var.bumped v) l) ∧
    (Opts.bumpsort (opts s) = 2 →
     StronglySorted (λ a b, ∃ u v, var s a = Some u ∧ var s b = Some v ∧
                              Var.trail u ≤ Var.trail v) l) ∧
    (Opts.bumpsort (opts s) = 3 →
     StronglySorted (λ a b, ∃ u v, var s a = Some u ∧ var s b = Some v ∧
                              Var.bumped u + Var.trail u ≤
                              Var.bumped v + Var.trail v) l) ∧
    (Opts.bumpsort (opts s) = 5 → l = reverse (seen s)) ∧
    (¬ 1 ≤ Opts.bumpsort (opts s) ≤ 5 → l = seen s).
Proof.
  intros Hall.
  assert (Hkey : ∀ f : Var.t → Z,
            ∃ l, sort_by Z.ltb (λ lit, v ← var s lit; Some (f v)) (seen s)
                 = Some l ∧ l ≡ₚ seen s ∧
              StronglySorted (λ a b, ∃ u v, var s a = Some u ∧
                                var s b = Some v ∧ f u ≤ f v) l).
  { intros f.
    destruct (sort_by_is_Some Z.ltb (λ lit, v ← var s lit; Some (f v))
                (seen s)) as [l Hl].
    { eapply Forall_impl; [exact Hall |]. intros lit [v Hv]. simpl.
      rewrite Hv. by eexists. }
    exists l. split; [done |].
    split; [by eapply sort_by_Permutation |].
    eapply StronglySorted_impl;
      [| eapply (sort_by_StronglySorted Z.ltb); [| | exact Hl]].
    - intros a b _ _ (ka & kb & Ha & Hb & Hk).
      destruct (var s a) as [u |]; [| done].
      destruct (var s b) as [v |]; [| done].
      simpl in *. injection Ha as <-. injection Hb as <-.
      exists u, v. repeat split. lia.
    - intros a b. lia.
    - intros a b c. lia. }
  unfold sort_seen.
  destruct (Z.eqb_spec (Opts.bumpsort (opts s)) 1) as [H1 | H1].
  { destruct (Hkey Var.bumped) as (l & Hl & Hp & Hs).
    unfold bumped_earlier. rewrite Hl. exists l. simpl.
    repeat split; try done; intros; lia. }
  destruct (Z.eqb_spec (Opts.bumpsort (opts s)) 2) as [H2 | H2].
  { destruct (Hkey Var.trail) as (l & Hl & Hp & Hs).
    unfold trail_smaller. rewrite Hl. exists l. simpl.
    repeat split; try done; intros; lia. }
  destruct (Z.eqb_spec (Opts.bumpsort (opts s)) 3) as [H3 | H3].
  { destruct (Hkey (λ v, Var.bumped v + Var.trail v)) as (l & Hl & Hp & Hs).
    unfold bumped_plus_trail_smaller. rewrite Hl. exists l. simpl.
    repeat split; try done; intros; lia. }
  destruct (Z.eqb_spec (Opts.bumpsort (opts s)) 4) as [H4 | H4].
  { destruct (sort_by_is_Some PrimFloat.ltb (score_smaller s) (seen s))
      as [l Hl].
    { eapply Forall_impl; [exact Hall |]. intros lit [v Hv].
      unfold score_smaller. rewrite Hv. by eexists. }
    rewrite Hl. exists l. simpl.
    split; [done |]. split; [by eapply sort_by_Permutation |].
    repeat split; intros; lia. }
  destruct (Z.eqb_spec (Opts.bumpsort (opts s)) 5) as [H5 | H5].
  { exists (reverse (seen s)). split; [done |].
    split; [apply reverse_Permutation |].
    repeat split; try done; intros; lia. }
  exists (seen s). split; [by destruct s |]. split; [done |].
  repeat split; try done; intros; lia.
Qed.

(** The vector [3; -1; 2] in the sample state, whose option is 0. *)
Lemma sort_seen_permutation_witness :
  sort_seen (set_seen [3; -1; 2] Sample.at_level_3)
  = Some (set_seen [3; -1; 2] Sample.at_level_3).
Proof.
  destruct (sort_seen_permutation (set_seen [3; -1; 2] Sample.at_level_3))
    as (l & Hrun & _ & _ & _ & _ & _ & Hl).
  - repeat constructor; by eexists.
  - rewrite Hrun, Hl; [done |]. simpl. lia.
Defined.

Lemma reset_levels_spec (Level_reset : Level.t → Level.t) (ls : list Z) :
  ∀ s : Internal,
  (is_Some (reset_levels Level_reset ls s) ↔
   Forall (λ l, 0 ≤ l < Z.of_nat (length (control s))) ls) ∧
  ∀ s', reset_levels Level_reset ls s = Some s' →
    length (control s') = length (control s) ∧
    s' = set_control (control s') s ∧
    (∀ l, l ∉ ls → control_at s' l = control_at s l) ∧
    (NoDup ls → ∀ l r, l ∈ ls → control_at s l = Some r →
       control_at s' l = Some (Level_reset r)).
Proof.
  induction ls as [| l ls IH]; intros s.
  - split; [split; [constructor | by eexists] |].
    intros s' [= <-]. split; [done |]. split; [by destruct s |].
    split; [done |]. intros _ l r Hl. by apply elem_of_nil in Hl.
  - simpl.
    destruct (control_at s l) as [r |] eqn:Hr; simpl.
    2: { split.
         - split; [by intros [? ?] |]. intros [Hl _]%Forall_cons.
           unfold control_at in Hr.
           destruct (Z.ltb_spec l 0); [lia |].
           apply lookup_ge_None in Hr. lia.
         - done. }
    pose proof Hr as Hr'. apply control_at_Some in Hr' as [Hl0 Hlk].
    set (s1 := set_control _ s).
    destruct (IH s1) as [Hsome Heff].
    assert (Hlen1 : length (control s1) = length (control s))
      by (unfold s1; simpl; by rewrite length_insert).
    assert (Hin : 0 ≤ l < Z.of_nat (length (control s))).
    { apply lookup_lt_Some in Hlk. lia. }
    split.
    + rewrite Hsome, Hlen1. split; [by constructor |].
      by intros [_ ?]%Forall_cons.
    + intros s' Hrun. destruct (Heff s' Hrun) as (Hlen & Hs' & Hout & Hnd).
      split; [congruence |]. split; [by rewrite Hs' |].
      assert (Hother : ∀ l', l' ≠ l → control_at s1 l' = control_at s l').
      { intros l' Hne. unfold control_at, s1. simpl.
        destruct (Z.ltb_spec l' 0); [done |].
        rewrite list_lookup_insert_ne; [done | lia]. }
      assert (Hthis : control_at s1 l = Some (Level_reset r)).
      { unfold control_at, s1. simpl.
        destruct (Z.ltb_spec l 0); [lia |].
        rewrite list_lookup_insert_eq; [done | lia]. }
      split.
      * intros l' Hl'. rewrite Hout.
        -- apply Hother. intros ->. apply Hl'. by left.
        -- intros ?. apply Hl'. by right.
      * intros [Hl Hnd']%NoDup_cons l' r' Hl' Hr'.
        apply elem_of_cons in Hl' as [-> | Hl'].
        -- rewrite Hout by done. rewrite Hthis. congruence.
        -- apply Hnd; [done | done |]. rewrite Hother; [done |].
           by intros ->.
Qed.

(** X5: [clear_levels] is defined exactly when every entry of [levels]
    is an index of [control].  It then empties [levels] and changes
    nothing but [control], which keeps its length: the record of a level
    that is not listed is unchanged, and when no level is listed twice
    the record of a listed level is the old one after [reset ()]. *)
Theorem clear_levels_effect (Level_reset : Level.t → Level.t) (s : Internal) :
  (is_Some (clear_levels Level_reset s) ↔
   Forall (λ l, 0 ≤ l < Z.of_nat (length (control s))) (levels s)) ∧
  ∀ s', clear_levels Level_reset s = Some s' →
    levels s' = [] ∧
    length (control s') = length (control s) ∧
    s' = set_levels [] (set_control (control s') s) ∧
    (∀ l, l ∉ levels s → control_at s' l = control_at s l) ∧
    (NoDup (levels s) → ∀ l r, l ∈ levels s → control_at s l = Some r →
       control_at s' l = Some (Level_reset r)).
Proof.
  destruct (reset_levels_spec Level_reset (levels s) s) as [Hsome Heff].
  unfold clear_levels. split.
  - rewrite <- Hsome.
    destruct (reset_levels Level_reset (levels s) s); simpl;
      split; intros [? ?]; by eexists.
  - intros s' Hrun.
    destruct (reset_levels Level_reset (levels s) s) as [s1 |]; [| done].
    simpl in Hrun. injection Hrun as <-.
    destruct (Heff s1 eq_refl) as (Hlen & Hs1 & Hout & Hnd).
    split; [done |]. split; [done |]. split; [by rewrite Hs1 at 1 |].
    split; [exact Hout | exact Hnd].
Qed.

(** The levels 3 and 1 listed in the sample state, and a state that
    lists a level [control] does not have. *)
Lemma clear_levels_effect_witness :
  (∃ s', clear_levels Sample.reset_level
           (set_levels [3; 1] Sample.at_level_3) = Some s' ∧
         levels s' = []) ∧
  clear_levels Sample.reset_level (set_levels [3; 4] Sample.at_level_3)
  = None.
Proof.
  split.
  - destruct (clear_levels_effect Sample.reset_level
                (set_levels [3; 1] Sample.at_level_3)) as [[_ Hs] He].
    destruct Hs as [s' Hs'].
    + repeat constructor; simpl; lia.
    + exists s'. split; [done |]. by apply He.
  - destruct (clear_levels_effect Sample.reset_level
                (set_levels [3; 4] Sample.at_level_3)) as [[Hs _] _].
    destruct (clear_levels _ _) as [s' |]; [| done].
    exfalso. assert (Hall := Hs (ltac:(by eexists))).
    apply Forall_cons in Hall as [_ Hall].
    apply Forall_cons in Hall as [H4 _]. simpl in H4. lia.
Defined.

(** ** The order of the queue *)

Lemma untouched_refl (s : Internal) : untouched s s.
Proof. by destruct s. Qed.

Lemma untouched_trans (s1 s2 s3 : Internal) :
  untouched s1 s2 → untouched s2 s3 → untouched s1 s3.
Proof.
  unfold untouched. intros H12 H23. rewrite H23. rewrite H12 at 1.
  by destruct s1.
Qed.

Lemma same_assignment_refl (vt : list Var.t) : same_assignment vt vt.
Proof. split; [done |]. intros y w Hw. by exists w. Qed.

Lemma same_assignment_trans (vt1 vt2 vt3 : list Var.t) :
  same_assignment vt1 vt2 → same_assignment vt2 vt3 →
  same_assignment vt1 vt3.
Proof.
  intros [Hl1 H1] [Hl2 H2]. split; [congruence |].
  intros y w Hw. destruct (H1 y w Hw) as (w1 & Hw1 & ? & ? & ? & ?).
  destruct (H2 y w1 Hw1) as (w2 & Hw2 & ? & ? & ? & ?).
  exists w2. repeat split; congruence.
Qed.

Lemma same_assignment_insert (vt : list Var.t) (y : nat) (w w' : Var.t) :
  vt !! y = Some w →
  Var.level w' = Var.level w → Var.trail w' = Var.trail w →
  Var.reason w' = Var.reason w → Var.seen w' = Var.seen w →
  same_assignment vt (<[y := w']> vt).
Proof.
  intros Hw Hl Ht Hr Hs. split; [by rewrite length_insert |].
  intros z u Hu. destruct (decide (z = y)) as [-> | Hne].
  - rewrite list_lookup_insert_eq by (by eapply lookup_lt_Some).
    exists w'. assert (Heq : u = w) by congruence. subst u. done.
  - rewrite list_lookup_insert_ne by done. by exists u.
Qed.

Lemma bump_frame_refl (s : Internal) : bump_frame s s.
Proof. split; [apply untouched_refl | apply same_assignment_refl]. Qed.

Lemma bump_frame_trans (s1 s2 s3 : Internal) :
  bump_frame s1 s2 → bump_frame s2 s3 → bump_frame s1 s3.
Proof.
  intros [? ?] [? ?].
  split; [by eapply untouched_trans | by eapply same_assignment_trans].
Qed.

Lemma update_var_frame (y : nat) (f : Var.t → Var.t) (s s' : Internal) :
  (∀ w, Var.level (f w) = Var.level w ∧ Var.trail (f w) = Var.trail w ∧
        Var.reason (f w) = Var.reason w ∧ Var.seen (f w) = Var.seen w) →
  update_var y f s = Some s' → bump_frame s s'.
Proof.
  intros Hf Hrun. unfold update_var in Hrun.
  destruct (vtab s !! y) as [w |] eqn:Hw; [| done].
  simpl in Hrun. injection Hrun as <-. split; [by destruct s |].
  simpl. destruct (Hf w) as (? & ? & ? & ?).
  by eapply same_assignment_insert.
Qed.

Lemma set_queue_frame (q : Queue.t) (s : Internal) :
  bump_frame s (set_queue q s).
Proof. split; [by destruct s | apply same_assignment_refl]. Qed.

Lemma set_stats_frame (st : Stats.t) (s : Internal) :
  bump_frame s (set_stats st s).
Proof. split; [by destruct s | apply same_assignment_refl]. Qed.

Lemma rescore_from_frame (d : float) (n : nat) :
  ∀ (idx : nat) (vt vt' : list Var.t),
  rescore_from d idx n vt = Some vt' → same_assignment vt vt'.
Proof.
  induction n as [| n IH]; intros idx vt vt' Hrun; simpl in Hrun.
  - injection Hrun as <-. apply same_assignment_refl.
  - unfold rescore_var in Hrun.
    destruct (vt !! idx) as [v |] eqn:Hv; [| done]. simpl in Hrun.
    eapply same_assignment_trans; [| by eapply IH].
    by eapply same_assignment_insert.
Qed.

Lemma rescore_frame (s s' : Internal) : rescore s = Some s' → bump_frame s s'.
Proof.
  unfold rescore. intros Hrun.
  destruct (rescore_from _ _ _ _) as [vt |] eqn:Hvt; [| done].
  simpl in Hrun. injection Hrun as <-. split; [by destruct s |].
  simpl. by eapply rescore_from_frame.
Qed.

Lemma dequeue_frame (x : nat) (s s' : Internal) :
  dequeue x s = Some s' → bump_frame s s'.
Proof.
  unfold dequeue. intros Hrun.
  apply bind_Some in Hrun as (v & Hv & Hrun).
  apply bind_Some in Hrun as (s1 & Hs1 & Hrun).
  apply bind_Some in Hrun as (v1 & Hv1 & Hrun).
  assert (H1 : bump_frame s s1).
  { destruct (Var.prev v).
    - eapply update_var_frame; [| exact Hs1]. done.
    - injection Hs1 as <-. apply set_queue_frame. }
  eapply bump_frame_trans; [exact H1 |].
  destruct (Var.next v1).
  - eapply update_var_frame; [| exact Hrun]. done.
  - injection Hrun as <-. apply set_queue_frame.
Qed.

Lemma enqueue_frame (x : nat) (s s' : Internal) :
  enqueue x s = Some s' → bump_frame s s'.
Proof.
  unfold enqueue. intros Hrun.
  apply bind_Some in Hrun as (s1 & Hs1 & Hrun).
  apply bind_Some in Hrun as (s2 & Hs2 & Hrun).
  eapply bump_frame_trans; [eapply update_var_frame; [| exact Hs1]; done |].
  eapply bump_frame_trans.
  { destruct (Queue.last (queue s)).
    - eapply update_var_frame; [| exact Hs2]. done.
    - injection Hs2 as <-. apply set_queue_frame. }
  eapply bump_frame_trans; [apply set_queue_frame |].
  eapply update_var_frame; [| exact Hrun]. done.
Qed.

(** [bump_variable] writes nothing but queue links, stamps, scores, the
    queue ends, [scinc] and the counters. *)
Lemma bump_variable_frame (x : nat) (s s' : Internal) :
  bump_variable x s = Some s' → bump_frame s s'.
Proof.
  unfold bump_variable. intros Hrun.
  apply bind_Some in Hrun as (v & Hv & Hrun).
  destruct (Var.next v) as [n |].
  2: { injection Hrun as <-. apply bump_frame_refl. }
  set (sa := if bool_decide _ then _ else s) in Hrun.
  assert (Hsa : bump_frame s sa).
  { unfold sa.
    destruct (bool_decide _); [apply set_queue_frame | apply bump_frame_refl]. }
  clearbody sa.
  apply bind_Some in Hrun as (s1 & Hs1 & Hrun).
  apply bind_Some in Hrun as (s2 & Hs2 & Hrun).
  apply bind_Some in Hrun as (s3 & Hs3 & Hrun).
  apply bind_Some in Hrun as (s4 & Hs4 & Hrun).
  apply bind_Some in Hrun as (v4 & Hv4 & Hrun).
  apply bind_Some in Hrun as (s5 & Hs5 & Hrun).
  apply bind_Some in Hrun as (val & Hval & Hrun).
  eapply bump_frame_trans; [exact Hsa |].
  eapply bump_frame_trans; [by eapply dequeue_frame |].
  eapply bump_frame_trans; [by eapply enqueue_frame |].
  eapply bump_frame_trans; [apply set_stats_frame |].
  eapply bump_frame_trans; [eapply update_var_frame; [| exact Hs3]; done |].
  eapply bump_frame_trans; [eapply update_var_frame; [| exact Hs4]; done |].
  eapply bump_frame_trans.
  { destruct (1e100 <? _)%float.
    - by eapply rescore_frame.
    - injection Hs5 as <-. apply bump_frame_refl. }
  injection Hrun as <-.
  destruct (val =? 0); [apply set_queue_frame | apply bump_frame_refl].
Qed.

(** One call of [bump_variable] on a variable of the queue: the variable
    is the last one afterwards, the others keep their order. *)
Lemma bump_variable_step (s : Internal) (q : list nat) (x : nat) :
  queue_repr s q → x ∈ q →
  ∃ s', bump_variable x s = Some s' ∧
    queue_repr s' (filter (λ y, y ≠ x) q ++ [x]) ∧
    (s' = s ∧ last q = Some x ∨
     last q ≠ Some x ∧
     Stats.bumped (stats s') = Stats.bumped (stats s) + 1 ∧
     (∃ v', vtab s' !! x = Some v' ∧
            Var.bumped v' = Stats.bumped (stats s) + 1) ∧
     ∀ y w, y ≠ x → vtab s !! y = Some w →
       ∃ w', vtab s' !! y = Some w' ∧ Var.bumped w' = Var.bumped w).
Proof.
  intros Hq Hx.
  destruct (list_elem_of_split _ _ Hx) as (q1 & q2 & ->).
  destruct (linked_lookup _ _ _ _ _ _ (qr_linked _ _ Hq)) as (v & Hv & _ & Hn).
  rewrite filter_ne_middle by apply Hq.
  destruct (decide (q2 = [])) as [-> | Hq2].
  - exists s. split; [by eapply bump_variable_last |].
    rewrite app_nil_r. split; [done |]. left. by rewrite last_snoc.
  - destruct (lookup_lt_is_Some_2 (vals s) x) as [val Hval].
    { pose proof (qr_vals _ _ Hq). pose proof (qr_range _ _ Hq x Hx). lia. }
    destruct (bump_variable_moves s q1 q2 x v val Hq Hq2 Hv Hval)
      as (s' & sc & Hrun & Hq' & Hxv & _ & Hst & _ & _ & _ & _ & Hoth & _).
    exists s'. split; [done |]. split; [by rewrite <- app_assoc |].
    right. split.
    { rewrite last_app. simpl.
      destruct q2 as [| n q2] using rev_ind; [done |].
      rewrite last_cons, last_snoc. intros [= ->].
      pose proof (qr_nodup _ _ Hq) as Hnd.
      apply NoDup_middle in Hnd as (_ & _ & Hx2 & _).
      apply Hx2. apply elem_of_app. right. by left. }
    split; [done |]. split; [by eexists |].
    intros y w Hy Hw. destruct (Hoth y w Hy Hw) as (w' & Hw' & Hb & _).
    by exists w'.
Qed.

Lemma filter_notin_step (x : nat) (xs q : list nat) :
  x ∉ xs →
  filter (λ y, y ∉ xs) (filter (λ y, y ≠ x) q ++ [x]) ++ xs =
  filter (λ y, y ∉ x :: xs) q ++ x :: xs.
Proof.
  intros Hx. rewrite filter_app, filter_cons_True, filter_nil by done.
  rewrite <- app_assoc. simpl. f_equal.
  induction q as [| z q IH]; [done |].
  destruct (decide (z = x)) as [-> | Hne].
  - rewrite (filter_cons_False (λ y, y ≠ x)) by (by intros ?).
    rewrite (filter_cons_False (λ y, y ∉ x :: xs)); [done |].
    intros H. apply H. by left.
  - rewrite (filter_cons_True (λ y, y ≠ x)) by done.
    destruct (decide (z ∈ xs)) as [Hin | Hout].
    + rewrite (filter_cons_False (λ y, y ∉ xs)) by (by intros ?).
      rewrite (filter_cons_False (λ y, y ∉ x :: xs)); [done |].
      intros H. apply H. by right.
    + rewrite (filter_cons_True (λ y, y ∉ xs)) by done.
      rewrite (filter_cons_True (λ y, y ∉ x :: xs)); [by f_equal |].
      intros [-> | ?]%elem_of_cons; done.
Qed.

Lemma filter_notin_nil (q : list nat) : filter (λ y, y ∉ []) q = q.
Proof.
  induction q as [| z q IH]; [done |].
  rewrite filter_cons_True; [by f_equal |]. apply not_elem_of_nil.
Qed.

(** X6: bumping distinct variables of the queue one after the other
    moves them to the end of the most recently bumped variables, in the
    order of the calls: the last one bumped is the last variable of the
    queue, and the variables that were not bumped keep their order before
    them. *)
Theorem bump_variables_order (xs : list nat) :
  ∀ (s : Internal) (q : list nat),
  queue_repr s q → NoDup xs → Forall (λ x, x ∈ q) xs →
  ∃ s', bump_variables xs s = Some s' ∧
    queue_repr s' (filter (λ y, y ∉ xs) q ++ xs) ∧
    (xs ≠ [] → Queue.last (queue s') = last xs).
Proof.
  induction xs as [| x xs IH]; intros s q Hq Hnd Hin.
  - exists s. split; [done |]. rewrite app_nil_r, filter_notin_nil.
    split; [done |]. done.
  - apply NoDup_cons in Hnd as [Hx Hnd].
    apply Forall_cons in Hin as [Hxq Hin].
    destruct (bump_variable_step s q x Hq Hxq) as (s1 & Hrun & Hq1 & _).
    destruct (IH s1 _ Hq1 Hnd) as (s' & Hrun' & Hq' & _).
    { rewrite Forall_forall in Hin. apply Forall_forall. intros y Hy.
      apply elem_of_app. left. apply list_elem_of_filter.
      split; [by intros -> | by apply Hin]. }
    exists s'. simpl. rewrite Hrun. simpl. split; [done |].
    rewrite filter_notin_step in Hq' by done. split; [done |].
    intros _. rewrite (qr_last _ _ Hq'), last_app.
    destruct (last (x :: xs)) eqn:Hl; [done |]. by apply last_None in Hl.
Qed.

(** Bumping variables 2, 4 and 3 of the sample queue. *)
Lemma bump_variables_order_witness :
  ∃ s', bump_variables [2; 4; 3]%nat Sample.at_root = Some s' ∧
    queue_repr s' [1; 5; 2; 4; 3]%nat ∧
    Queue.last (queue s') = Some 3%nat.
Proof.
  destruct (bump_variables_order [2; 4; 3]%nat Sample.at_root
              [1; 2; 3; 4; 5]%nat) as (s' & Hrun & Hq & Hl).
  - apply sample_queue; auto.
  - by apply (bool_decide_unpack _).
  - repeat constructor; by apply (bool_decide_unpack _).
  - exists s'. split; [done |]. split; [exact Hq | by apply Hl].
Defined.

Lemma StronglySorted_filter_nat (R : relation nat) (P : nat → Prop)
    `{!∀ x, Decision (P x)} (l : list nat) :
  StronglySorted R l → StronglySorted R (filter P l).
Proof.
  intros Hs. induction Hs as [| a l Hs IH Ha]; [constructor |].
  destruct (decide (P a)).
  - rewrite filter_cons_True by done. constructor; [done |].
    rewrite Forall_forall in Ha. apply Forall_forall.
    intros y [_ Hy]%list_elem_of_filter. by apply Ha.
  - by rewrite filter_cons_False.
Qed.

Lemma stamp_ordered_step (s : Internal) (q : list nat) (x : nat) :
  queue_repr s q → stamp_ordered s q → x ∈ q →
  ∃ s', bump_variable x s = Some s' ∧
    queue_repr s' (filter (λ y, y ≠ x) q ++ [x]) ∧
    stamp_ordered s' (filter (λ y, y ≠ x) q ++ [x]).
Proof.
  intros Hq [Hle Hs] Hx.
  destruct (bump_variable_step s q x Hq Hx)
    as (s' & Hrun & Hq' & [[-> Hlast] | (Hlast & Hst & (v' & Hv' & Hb) & Hoth)]).
  { exists s. split; [done |]. split; [done |].
    destruct (list_elem_of_split _ _ Hx) as (q1 & q2 & ->).
    assert (q2 = []) as ->.
    { destruct q2 as [| n q2] using rev_ind; [done |].
      rewrite last_app, last_cons, last_snoc in Hlast. injection Hlast as ->.
      pose proof (qr_nodup _ _ Hq) as Hnd.
      apply NoDup_middle in Hnd as (_ & _ & Hx2 & _).
      exfalso. apply Hx2. apply elem_of_app. right. by left. }
    rewrite filter_ne_middle by apply Hq. rewrite app_nil_r. done. }
  exists s'. split; [done |]. split; [done |].
  assert (Hold : ∀ y, y ∈ filter (λ y, y ≠ x) q → ∃ w w',
            vtab s !! y = Some w ∧ vtab s' !! y = Some w' ∧
            Var.bumped w' = Var.bumped w ∧
            Var.bumped w ≤ Stats.bumped (stats s)).
  { intros y [Hyx Hy]%list_elem_of_filter.
    destruct (lookup_lt_is_Some_2 (vtab s) y) as [w Hw].
    { pose proof (qr_vtab _ _ Hq). pose proof (qr_range _ _ Hq y Hy). lia. }
    destruct (Hoth y w Hyx Hw) as (w' & Hw' & Hbw).
    exists w, w'. repeat split; try done. by eapply Hle. }
  split.
  - intros y w Hy Hw. rewrite Hst.
    apply elem_of_app in Hy as [Hy | ->%list_elem_of_singleton].
    + destruct (Hold y Hy) as (w0 & w' & _ & Hw' & Hb' & Hle').
      assert (Heq : w' = w) by congruence. subst w'. lia.
    + assert (Heq : v' = w) by congruence. subst v'. lia.
  - assert (Hsf : StronglySorted
              (λ a b, ∃ va vb, vtab s' !! a = Some va ∧ vtab s' !! b = Some vb ∧
                               Var.bumped va < Var.bumped vb)
              (filter (λ y, y ≠ x) q)).
    { eapply StronglySorted_impl; [| by apply StronglySorted_filter_nat].
      intros a b Hain Hbin (va & vb & Hva & Hvb & Hlt).
      destruct (Hold a Hain) as (wa & wa' & ? & ? & ? & _).
      destruct (Hold b Hbin) as (wb & wb' & ? & ? & ? & _).
      exists wa', wb'. split; [done |]. split; [done |].
      assert (Heq : wa = va) by congruence. subst wa.
      assert (Heq : wb = vb) by congruence. subst wb. lia. }
    clear Hs. revert Hsf.
    generalize (λ y Hy, Hold y Hy). clear Hold.
    generalize (filter (λ y, y ≠ x) q). intros l Hold Hsf.
    induction Hsf as [| a l Hsf IH Ha]; simpl.
    + repeat constructor.
    + constructor.
      * apply IH. intros y Hy. apply Hold. by right.
      * apply Forall_app. split; [done |]. constructor; [| done].
        destruct (Hold a) as (wa & wa' & _ & Hwa' & Hba & Hlea); [by left |].
        exists wa', v'. split; [done |]. split; [done |]. lia.
Qed.

(** X7: the queue stays ordered by the stamps [bumped] through any
    sequence of calls of [bump_variable] on variables of the queue: when
    the stamps increase strictly along the queue and none exceeds the
    counter [stats.bumped] before, the same holds after, for the queue in
    its new order. *)
Theorem bump_variables_stamps (xs : list nat) :
  ∀ (s : Internal) (q : list nat),
  queue_repr s q → stamp_ordered s q → Forall (λ x, x ∈ q) xs →
  ∃ s' q', bump_variables xs s = Some s' ∧ q' ≡ₚ q ∧
    queue_repr s' q' ∧ stamp_ordered s' q'.
Proof.
  induction xs as [| x xs IH]; intros s q Hq Hst Hin.
  - by exists s, q.
  - apply Forall_cons in Hin as [Hx Hin].
    destruct (stamp_ordered_step s q x Hq Hst Hx) as (s1 & Hrun & Hq1 & Hst1).
    assert (Hp : filter (λ y, y ≠ x) q ++ [x] ≡ₚ q).
    { destruct (list_elem_of_split _ _ Hx) as (q1 & q2 & ->).
      rewrite filter_ne_middle by apply Hq.
      transitivity (x :: q1 ++ q2); [| apply Permutation_middle].
      symmetry. apply Permutation_cons_append. }
    destruct (IH s1 _ Hq1 Hst1) as (s' & q' & Hrun' & Hp' & Hq' & Hst').
    { eapply Forall_impl; [exact Hin |]. intros y Hy. simpl. by rewrite Hp. }
    exists s', q'. simpl. rewrite Hrun. simpl.
    split; [done |]. split; [by rewrite Hp' |]. done.
Qed.

(** The list view of the queue depends on the links, the ends of the
    queue and the sizes of the tables only. *)
Lemma queue_repr_frame (s s' : Internal) (q : list nat) :
  queue_repr s q →
  Queue.first (queue s') = Queue.first (queue s) →
  Queue.last (queue s') = Queue.last (queue s) →
  max_var s' = max_var s → length (vals s') = length (vals s) →
  length (vtab s') = length (vtab s) →
  (∀ y w, vtab s !! y = Some w →
     ∃ w', vtab s' !! y = Some w' ∧ Var.prev w' = Var.prev w ∧
           Var.next w' = Var.next w) →
  queue_repr s' q.
Proof.
  intros [Hnd Hf Hl Hlk Hdet Hr Hvt Hvals] Hf' Hl' Hm Hlv Hlt Hsame.
  split.
  - done.
  - congruence.
  - congruence.
  - eapply linked_frame; [| exact Hlk]. intros x v _. apply Hsame.
  - intros x v' Hv' Hx.
    destruct (lookup_lt_is_Some_2 (vtab s) x) as [w Hw].
    { apply lookup_lt_Some in Hv'. lia. }
    destruct (Hsame x w Hw) as (w' & Hw' & _ & Hn).
    assert (Heq : w' = v') by congruence. subst w'.
    rewrite Hn. by eapply Hdet.
  - intros x Hx. rewrite Hm. by apply Hr.
  - rewrite Hm, Hlt. done.
  - rewrite Hm, Hlv. done.
Qed.

Lemma sample_stamped_queue : queue_repr Sample_stamped [1; 2; 3; 4; 5]%nat.
Proof.
  eapply (queue_repr_frame Sample.at_root); try done.
  - apply sample_queue; auto.
  - intros y w Hw.
    destruct y as [| [| [| [| [| [| y]]]]]]; simpl in Hw; [.. | done];
      injection Hw as <-; by eexists.
Qed.

Lemma sample_stamped_ordered : stamp_ordered Sample_stamped [1; 2; 3; 4; 5]%nat.
Proof.
  split.
  - intros y w _ Hw.
    destruct y as [| [| [| [| [| [| y]]]]]]; simpl in Hw; [.. | done];
      injection Hw as <-; simpl; lia.
  - repeat constructor; eexists _, _; (split; [done |]); (split; [done |]);
      simpl; lia.
Qed.

(** Bumping variables 2, 5 and 2 again in the stamped sample state. *)
Lemma bump_variables_stamps_witness :
  ∃ s' q', bump_variables [2; 5; 2]%nat Sample_stamped = Some s' ∧
    q' ≡ₚ [1; 2; 3; 4; 5]%nat ∧ queue_repr s' q' ∧ stamp_ordered s' q'.
Proof.
  apply (bump_variables_stamps [2; 5; 2]%nat Sample_stamped
           [1; 2; 3; 4; 5]%nat).
  - apply sample_stamped_queue.
  - apply sample_stamped_ordered.
  - repeat constructor; by apply (bool_decide_unpack _).
Defined.

Lemma sort_seen_Some (s : Internal) :
  Forall (λ lit, is_Some (var s lit)) (seen s) →
  ∃ l, sort_seen s = Some (set_seen l s) ∧ l ≡ₚ seen s.
Proof.
  intros Hall.
  assert (Hkey : ∀ (K : Type) (lt : K → K → bool) (f : Var.t → K),
            ∃ l, sort_by lt (λ lit, v ← var s lit; Some (f v)) (seen s)
                 = Some l ∧ l ≡ₚ seen s).
  { intros K lt f.
    destruct (sort_by_is_Some lt (λ lit, v ← var s lit; Some (f v))
                (seen s)) as [l Hl].
    { eapply Forall_impl; [exact Hall |]. intros lit [v Hv]. simpl.
      rewrite Hv. by eexists. }
    exists l. split; [done |]. by eapply sort_by_Permutation. }
  unfold sort_seen.
  destruct (Opts.bumpsort (opts s) =? 1).
  { destruct (Hkey Z Z.ltb Var.bumped) as (l & Hl & Hp).
    unfold bumped_earlier. rewrite Hl. by exists l. }
  destruct (Opts.bumpsort (opts s) =? 2).
  { destruct (Hkey Z Z.ltb Var.trail) as (l & Hl & Hp).
    unfold trail_smaller. rewrite Hl. by exists l. }
  destruct (Opts.bumpsort (opts s) =? 3).
  { destruct (Hkey Z Z.ltb (λ v, Var.bumped v + Var.trail v)) as (l & Hl & Hp).
    unfold bumped_plus_trail_smaller. rewrite Hl. by exists l. }
  destruct (Opts.bumpsort (opts s) =? 4).
  { destruct (Hkey float PrimFloat.ltb Var.score) as (l & Hl & Hp).
    unfold score_smaller. rewrite Hl. by exists l. }
  destruct (Opts.bumpsort (opts s) =? 5).
  { exists (reverse (seen s)). split; [done |]. apply reverse_Permutation. }
  exists (seen s). split; [by destruct s | done].
Qed.

(** The loop of [bump_and_clear_seen_variables] on literals of distinct
    variables of the queue. *)
Lemma bump_seen_spec (lits : list Z) :
  ∀ (s : Internal) (q : list nat),
  queue_repr s q → NoDup (vidx <$> lits) →
  Forall (λ lit, vidx lit ∈ q) lits →
  ∃ s', bump_seen lits s = Some s' ∧
    queue_repr s' (filter (λ y, y ∉ vidx <$> lits) q ++ (vidx <$> lits)) ∧
    untouched s s' ∧ length (vtab s') = length (vtab s) ∧
    ∀ y w, vtab s !! y = Some w →
      ∃ w', vtab s' !! y = Some w' ∧ Var.level w' = Var.level w ∧
        Var.trail w' = Var.trail w ∧ Var.reason w' = Var.reason w ∧
        Var.seen w' = (if bool_decide (y ∈ vidx <$> lits) then false
                       else Var.seen w).
Proof.
  induction lits as [| lit lits IH]; intros s q Hq Hnd Hin.
  - exists s. split; [done |]. simpl. rewrite app_nil_r, filter_notin_nil.
    split; [done |]. split; [apply untouched_refl |]. split; [done |].
    intros y w Hw. by exists w.
  - rewrite fmap_cons in Hnd. apply NoDup_cons in Hnd as [Hx Hnd].
    apply Forall_cons in Hin as [Hxq Hin].
    set (x := vidx lit) in *.
    destruct (lookup_lt_is_Some_2 (vtab s) x) as [v Hv].
    { pose proof (qr_vtab _ _ Hq). pose proof (qr_range _ _ Hq x Hxq). lia. }
    simpl. fold x. rewrite (update_var_Some _ _ _ _ Hv).
    cbn [mbind option_bind].
    set (s1 := set_vtab _ s).
    assert (Hq1 : queue_repr s1 q).
    { eapply (queue_repr_frame s); try done.
      - unfold s1. simpl. by rewrite length_insert.
      - intros y w Hw. unfold s1. simpl.
        destruct (decide (y = x)) as [-> | Hne].
        + rewrite list_lookup_insert_eq by (by eapply lookup_lt_Some).
          assert (Heq : w = v) by congruence. subst w. by eexists.
        + rewrite list_lookup_insert_ne by done. by exists w. }
    destruct (bump_variable_step s1 q x Hq1 Hxq) as (s2 & Hrun & Hq2 & _).
    rewrite Hrun. cbn [mbind option_bind].
    destruct (bump_variable_frame x s1 s2 Hrun) as [Hu12 [Hlen12 Hsame12]].
    destruct (IH s2 _ Hq2 Hnd) as (s' & Hrun' & Hq' & Hu & Hlen & Hmarks).
    { rewrite Forall_forall in Hin. apply Forall_forall. intros l Hl.
      apply elem_of_app. left. apply list_elem_of_filter.
      split; [| by apply Hin].
      intros Heq. apply Hx. rewrite <- Heq. by apply list_elem_of_fmap_2. }
    exists s'. split; [done |].
    split. { by rewrite filter_notin_step in Hq'. }
    split.
    { eapply untouched_trans; [| exact Hu].
      eapply untouched_trans; [| exact Hu12]. by destruct s. }
    split. { rewrite Hlen, Hlen12. unfold s1. simpl. by rewrite length_insert. }
    intros y w Hw.
    assert (Hw1 : ∃ w1, vtab s1 !! y = Some w1 ∧ Var.level w1 = Var.level w ∧
              Var.trail w1 = Var.trail w ∧ Var.reason w1 = Var.reason w ∧
              Var.seen w1 = if bool_decide (y = x) then false else Var.seen w).
    { unfold s1. simpl. destruct (decide (y = x)) as [-> | Hne].
      - rewrite list_lookup_insert_eq by (by eapply lookup_lt_Some).
        assert (Heq : w = v) by congruence. subst w.
        rewrite bool_decide_eq_true_2 by done. by eexists.
      - rewrite list_lookup_insert_ne by done.
        rewrite bool_decide_eq_false_2 by done. by exists w. }
    destruct Hw1 as (w1 & Hw1 & Hl1 & Ht1 & Hr1 & Hs1).
    destruct (Hsame12 y w1 Hw1) as (w2 & Hw2 & Hl2 & Ht2 & Hr2 & Hs2).
    destruct (Hmarks y w2 Hw2) as (w' & Hw' & Hl' & Ht' & Hr' & Hs').
    exists w'. split; [done |]. split; [congruence |]. split; [congruence |].
    split; [congruence |]. rewrite Hs', Hs2, Hs1.
    destruct (decide (y = x)) as [-> | Hne].
    + rewrite (bool_decide_eq_true_2 (x ∈ x :: _)) by (by left).
      rewrite (bool_decide_eq_true_2 (x = x)) by done.
      by destruct (bool_decide (x ∈ vidx <$> lits)).
    + rewrite (bool_decide_eq_false_2 (y = x)) by done.
      apply (f_equal (λ b : bool, if b then false else Var.seen w)).
      apply bool_decide_ext. rewrite elem_of_cons. tauto.
Qed.

(** [bump_and_clear_seen_variables] on literals of distinct variables of
    the queue. *)
Lemma bump_and_clear_spec (s : Internal) (q : list nat) :
  queue_repr s q → NoDup (vidx <$> seen s) →
  Forall (λ lit, vidx lit ∈ q) (seen s) →
  ∃ s' l, sort_seen s = Some (set_seen l s) ∧ l ≡ₚ seen s ∧
    bump_and_clear_seen_variables s = Some s' ∧
    seen s' = [] ∧
    queue_repr s' (filter (λ y, y ∉ vidx <$> l) q ++ (vidx <$> l)) ∧
    (∀ y w, vtab s !! y = Some w →
       ∃ w', vtab s' !! y = Some w' ∧ Var.level w' = Var.level w ∧
         Var.trail w' = Var.trail w ∧ Var.reason w' = Var.reason w ∧
         Var.seen w' = (if bool_decide (y ∈ vidx <$> seen s) then false
                        else Var.seen w)) ∧
    untouched (set_seen [] s) s' ∧
    length (vtab s') = length (vtab s).
Proof.
  intros Hq Hnd Hin.
  destruct (sort_seen_Some s) as (l & Hsort & Hperm).
  { eapply Forall_impl; [exact Hin |]. intros lit Hlit. simpl.
    apply lookup_lt_is_Some_2.
    pose proof (qr_vtab _ _ Hq). pose proof (qr_range _ _ Hq _ Hlit). lia. }
  unfold bump_and_clear_seen_variables. rewrite Hsort.
  cbn [mbind option_bind].
  set (sl := set_seen l s).
  assert (Hql : queue_repr sl q).
  { eapply (queue_repr_frame s); try done. intros y w Hw. by exists w. }
  destruct (bump_seen_spec l sl q Hql)
    as (s1 & Hrun & Hq1 & Hu1 & Hlen1 & Hmarks).
  { by rewrite Hperm. }
  { by rewrite Hperm. }
  change (seen sl) with l. rewrite Hrun. cbn [mbind option_bind].
  set (s2 := set_scinc _ (set_seen [] s1)).
  assert (Hmv2 : (Z.to_nat (max_var s2) < length (vtab s2))%nat)
    by apply (qr_vtab _ _ Hq1).
  destruct (rescore_if_spec s2 (1e100 <? scinc s2)%float Hmv2)
    as (s' & Hrs & Hq' & Hvals' & Hmv' & Hlen' & _ & Hvt').
  assert (Hf' : bump_frame s2 s').
  { destruct (1e100 <? scinc s2)%float.
    - by apply rescore_frame.
    - injection Hrs as <-. apply bump_frame_refl. }
  destruct Hf' as [Hu' _].
  exists s', l. split; [done |]. split; [done |]. split; [exact Hrs |].
  split; [by rewrite Hu' |]. split; [| split; [| split]].
  - eapply (queue_repr_frame s1); try done.
    + by rewrite Hq'.
    + by rewrite Hq'.
    + by rewrite Hvals'.
    + intros y w Hw. destruct (Hvt' y w Hw) as (sc & Hw' & _).
      by eexists.
  - intros y w Hw. destruct (Hmarks y w Hw) as (w1 & Hw1 & ? & ? & ? & Hs1).
    destruct (Hvt' y w1 Hw1) as (sc & Hw' & _).
    eexists. split; [exact Hw' |]. simpl.
    split; [done |]. split; [done |]. split; [done |]. rewrite Hs1.
    apply (f_equal (λ b : bool, if b then false else Var.seen w)).
    apply bool_decide_ext. by rewrite Hperm.
  - unfold untouched in *. etrans; [exact Hu' |]. unfold s2.
    generalize (scinc (set_seen [] s1) / Opts.decay (opts (set_seen [] s1)))%float.
    intros d. rewrite Hu1. unfold sl. by destruct s.
  - rewrite Hlen'. unfold s2. simpl. by rewrite Hlen1.
Qed.

(** X8: [bump_and_clear_seen_variables], when the literals of [seen]
    belong to distinct variables of the queue: the vector [seen] is
    empty afterwards and the mark [seen] of each of its variables is
    cleared while no other mark, level, trail position or reason changes;
    the variables are moved to the end of the most recently bumped
    variables in the order [sort_seen] gives them, the others keep their
    order; and nothing but [vtab], [queue], [scinc], [stats] and [seen]
    is written. *)
Theorem bump_and_clear_seen_variables_effect (s : Internal) (q : list nat) :
  queue_repr s q → NoDup (vidx <$> seen s) →
  Forall (λ lit, vidx lit ∈ q) (seen s) →
  ∃ s' l, sort_seen s = Some (set_seen l s) ∧ l ≡ₚ seen s ∧
    bump_and_clear_seen_variables s = Some s' ∧
    seen s' = [] ∧
    queue_repr s' (filter (λ y, y ∉ vidx <$> l) q ++ (vidx <$> l)) ∧
    (∀ y w, vtab s !! y = Some w →
       ∃ w', vtab s' !! y = Some w' ∧ Var.level w' = Var.level w ∧
         Var.trail w' = Var.trail w ∧ Var.reason w' = Var.reason w ∧
         Var.seen w' = (if bool_decide (y ∈ vidx <$> seen s) then false
                        else Var.seen w)) ∧
    untouched (set_seen [] s) s' ∧
    length (vtab s') = length (vtab s).
Proof. apply bump_and_clear_spec. Qed.

(** The literals [-3], [4] and [-1] in the vector of the sample state. *)
Lemma bump_and_clear_seen_variables_effect_witness :
  ∃ s', bump_and_clear_seen_variables
          (set_seen [-3; 4; -1] Sample.at_level_3) = Some s' ∧
    seen s' = [] ∧ queue_repr s' [2; 5; 3; 4; 1]%nat.
Proof.
  destruct (bump_and_clear_seen_variables_effect
              (set_seen [-3; 4; -1] Sample.at_level_3) [1; 2; 3; 4; 5]%nat)
    as (s' & l & Hsort & _ & Hrun & Hseen & Hq & _).
  - apply sample_queue; auto.
  - by apply (bool_decide_unpack _).
  - repeat constructor; by apply (bool_decide_unpack _).
  - exists s'. split; [done |]. split; [done |].
    vm_compute in Hsort. injection Hsort as <-. exact Hq.
Defined.

(** ** The bookkeeping of the analysis *)

(** The two ways a call of [analyze_literal] can go. *)
Lemma analyze_literal_cases (lit : Z) (s s' : Internal) (b : bool) :
  analyze_literal lit s = Some (b, s') →
  ∃ v, var s lit = Some v ∧
    (((Var.seen v = true ∨ Var.level v = 0) ∧ b = false ∧ s' = s) ∨
     (Var.seen v = false ∧ Var.level v ≠ 0 ∧
      ∃ r, control_at s (Var.level v) = Some r ∧
        b = (Var.level v =? level s) ∧
        s' = set_seen (seen s ++ [lit])
               (set_vtab (<[vidx lit := Var.set_seen true v]> (vtab s))
                  (set_control
                     (<[Z.to_nat (Var.level v) :=
                          Level.mk (Level.seen r + 1)
                            (if Var.trail v <? Level.trail r
                             then Var.trail v else Level.trail r)]>
                        (control s))
                     (set_levels
                        (if Level.seen r =? 0
                         then levels s ++ [Var.level v] else levels s)
                        (set_clause
                           (if Var.level v <? level s
                            then clause s ++ [lit] else clause s) s)))))).
Proof.
  intros Hrun. destruct (var s lit) as [v |] eqn:Hv.
  2: { unfold analyze_literal in Hrun. by rewrite Hv in Hrun. }
  exists v. split; [done |].
  destruct (decide (Var.seen v = true ∨ Var.level v = 0)) as [Hold | Hnew].
  { left. rewrite (analyze_literal_old s lit v Hv Hold) in Hrun.
    injection Hrun as <- <-. done. }
  right.
  assert (Hs : Var.seen v = false).
  { destruct (Var.seen v); [| done]. exfalso. apply Hnew. by left. }
  assert (Hl : Var.level v ≠ 0).
  { intros H0. apply Hnew. by right. }
  split; [done |]. split; [done |].
  unfold analyze_literal in Hrun. rewrite Hv in Hrun. simpl in Hrun.
  rewrite Hs in Hrun.
  destruct (Z.eqb_spec (Var.level v) 0) as [| _]; [done |].
  assert (Hc : control_at
            (if Var.level v <? level s
             then set_clause (clause s ++ [lit]) s else s)
            (Var.level v) = control_at s (Var.level v))
    by (by destruct (Var.level v <? level s)).
  rewrite Hc in Hrun.
  destruct (control_at s (Var.level v)) as [r |]; [| done].
  exists r. split; [done |]. simpl in Hrun.
  destruct (Var.level v <? level s), (Level.seen r =? 0);
    injection Hrun as <- <-; split; try done; by destruct s.
Qed.

Lemma resolve_clause_frame (c : nat) (s s' : Internal) :
  resolve_clause c s = Some s' → s' = set_resolved (resolved s') s.
Proof.
  unfold resolve_clause. intros Hrun.
  destruct (deref s c) as [cl |]; [| done]. simpl in Hrun.
  destruct (negb _); [injection Hrun as <-; by destruct s |].
  destruct (_ <=? _); [injection Hrun as <-; by destruct s |].
  destruct (_ <=? _); injection Hrun as <-; by destruct s.
Qed.

Lemma previous_seen_found (s : Internal) (i j : nat) (uip : Z) :
  previous_seen s i = Some (uip, j) →
  trail s !! j = Some uip ∧ ∃ v, var s uip = Some v ∧ Var.seen v = true.
Proof.
  induction i as [| i IH]; simpl; [done |]. intros Hrun.
  destruct (trail s !! i) as [t |] eqn:Ht; [| done]. simpl in Hrun.
  destruct (var s t) as [v |] eqn:Hv; [| done]. simpl in Hrun.
  destruct (Var.seen v) eqn:Hs; [| by apply IH].
  injection Hrun as <- <-. split; [done |]. by exists v.
Qed.

Lemma filter_snoc_bool (f : Z → bool) (l : list Z) (x : Z) :
  filter (λ y, f y) (l ++ [x]) =
  filter (λ y, f y) l ++ (if f x then [x] else []).
Proof.
  rewrite filter_app. f_equal. destruct (f x) eqn:Hx.
  - rewrite filter_cons_True; [done |]. by rewrite Hx.
  - rewrite filter_cons_False; [done |]. rewrite Hx. intros [].
Qed.

Lemma filter_length_pos (f : Z → bool) (l : list Z) :
  (0 < length (filter (λ y, f y) l))%nat ↔ ∃ x, x ∈ l ∧ f x.
Proof.
  split.
  - intros Hlen. destruct (filter (λ y, f y) l) as [| x l'] eqn:Hf;
      [simpl in Hlen; lia |].
    assert (Hx : x ∈ x :: l') by (by left). rewrite <- Hf in Hx.
    apply list_elem_of_filter in Hx as [? ?]. by exists x.
  - intros (x & Hx & Hfx).
    assert (Hin : x ∈ filter (λ y, f y) l) by (by apply list_elem_of_filter).
    destruct (filter (λ y, f y) l); [by apply elem_of_nil in Hin |].
    simpl. lia.
Qed.

Section Book.
Context (s0 : Internal) (Hcs : conflict_state s0).

Lemma clean_bookkeeping (s : Internal) :
  clean s0 → s = set_resolved (resolved s) s0 → bookkeeping s0 s.
Proof using Hcs.
  intros [Hseen Hlev Hmarks Hctl] ->. split; simpl.
  - rewrite Hseen. constructor.
  - intros idx v Hv. rewrite Hseen, (Hmarks idx v Hv). simpl.
    split; [done |]. by intros ?%elem_of_nil.
  - intros lit. rewrite Hseen. by intros ?%elem_of_nil.
  - rewrite Hseen. apply (cs_clause _ Hcs).
  - rewrite Hlev. constructor.
  - intros l. rewrite Hlev, Hseen. split.
    + by intros ?%elem_of_nil.
    + by intros (lit & ?%elem_of_nil & _).
  - intros l r Hr. rewrite Hseen. simpl. by eapply Hctl.
  - intros l r0 r Hr0 Hr.
    assert (Heq : r = r0).
    { unfold control_at in *. simpl in Hr. congruence. }
    subst r. split; [lia |]. split; [| by left].
    intros lit v. rewrite Hseen. by intros ?%elem_of_nil.
Qed.

(** One call of [analyze_literal] on the negation of a trail literal keeps
    the bookkeeping. *)
Lemma analyze_literal_book (s s' : Internal) (lit : Z) (b : bool) (p : nat) :
  analysis_frame s0 s → bookkeeping s0 s →
  trail s0 !! p = Some (- lit) →
  analyze_literal lit s = Some (b, s') →
  analysis_frame s0 s' ∧ bookkeeping s0 s' ∧
  (∀ idx v, vtab s !! idx = Some v → Var.seen v = true →
     ∃ v', vtab s' !! idx = Some v' ∧ Var.seen v' = true).
Proof using Hcs.
  intros Hf Hb Hp Hrun.
  destruct (analyze_literal_cases _ _ _ _ Hrun)
    as (v & Hv & [(_ & _ & ->) | (Hsn & Hl0 & r & Hr & _ & Hs')]).
  { split; [done |]. split; [done |]. intros idx w Hw Hws. by exists w. }
  destruct (var_frame_inv s0 s lit v Hf Hv) as (v0 & Hv0 & Hvv0).
  assert (Hlv : Var.level v = Var.level v0) by (by rewrite Hvv0).
  assert (Htv : Var.trail v = Var.trail v0) by (by rewrite Hvv0).
  set (lv := Var.level v) in *.
  pose proof Hr as Hr'. apply control_at_Some in Hr' as [Hlv0 Hrk].
  assert (Hxlen : (vidx lit < length (vtab s))%nat)
    by (by eapply lookup_lt_Some).
  assert (Hat : ∀ l, at_level s0 l lit = (lv =? l)).
  { intros l. unfold at_level. by rewrite Hv0, <- Hlv. }
  assert (Hlow : lower_level s0 lit = (lv <? level s)).
  { unfold lower_level. by rewrite Hv0, <- Hlv, (af_level _ _ Hf). }
  destruct Hf as [Hft Hfl Hfc Hfctl Hfvl Hfv].
  destruct Hb as [Hnd Hmk Htr Hcl Hlnd Hlev Hcnt Hmin].
  assert (Hfresh : vidx lit ∉ vidx <$> seen s).
  { intros Hin. apply (Hmk _ _ Hv) in Hin. congruence. }
  assert (Hctl' : ∀ l, control_at s' l =
            if bool_decide (l = lv)
            then Some (Level.mk (Level.seen r + 1)
                         (if Var.trail v <? Level.trail r
                          then Var.trail v else Level.trail r))
            else control_at s l).
  { intros l. rewrite Hs'. unfold control_at. simpl.
    destruct (Z.ltb_spec l 0).
    - rewrite bool_decide_eq_false_2 by lia. done.
    - case_bool_decide as Hl.
      + subst l. apply list_lookup_insert_eq. by eapply lookup_lt_Some.
      + apply list_lookup_insert_ne. lia. }
  assert (Hseen' : seen s' = seen s ++ [lit]) by (by rewrite Hs').
  split; [| split].
  - rewrite Hs'. split; simpl; try done.
    + by rewrite length_insert.
    + by rewrite length_insert.
    + intros idx w0 Hw0. destruct (decide (idx = vidx lit)) as [-> | Hne].
      * rewrite list_lookup_insert_eq by done. exists true.
        unfold var in Hv0. assert (Heq : w0 = v0) by congruence. subst w0.
        by rewrite Hvv0.
      * rewrite list_lookup_insert_ne by done. by apply Hfv.
  - split.
    + rewrite Hseen', fmap_app. apply NoDup_app. split; [done |]. split.
      * intros x Hx ->%list_elem_of_singleton. done.
      * apply NoDup_singleton.
    + intros idx w. rewrite Hseen', fmap_app, elem_of_app. simpl.
      rewrite list_elem_of_singleton. rewrite Hs'. simpl.
      destruct (decide (idx = vidx lit)) as [-> | Hne].
      * rewrite list_lookup_insert_eq by done. intros [= <-]. simpl.
        split; auto.
      * rewrite list_lookup_insert_ne by done. intros Hw.
        rewrite (Hmk idx w Hw). split; [by left |]. by intros [? | ?].
    + intros lit'. rewrite Hseen', elem_of_app, list_elem_of_singleton.
      intros [Hin | ->]; [by apply Htr | by exists p].
    + rewrite Hseen', filter_snoc_bool, Hlow, <- Hcl. rewrite Hs'. simpl.
      destruct (lv <? level s); [done | by rewrite app_nil_r].
    + rewrite Hs'. simpl. destruct (Z.eqb_spec (Level.seen r) 0) as [H0 | H0];
        [| done].
      apply NoDup_app. split; [done |]. split; [| apply NoDup_singleton].
      intros l Hl ->%list_elem_of_singleton.
      apply Hlev in Hl as (lit' & Hin & Hat').
      pose proof (Hcnt lv r Hr) as Hc.
      assert (Hpos : (0 < length (filter (λ lit, at_level s0 lv lit) (seen s)))%nat).
      { apply filter_length_pos. by exists lit'. }
      lia.
    + intros l. rewrite Hseen'.
      assert (Hnew : l ∈ levels s' ↔ l ∈ levels s ∨ l = lv).
      { rewrite Hs'. simpl.
        destruct (Z.eqb_spec (Level.seen r) 0) as [H0 | H0].
        - by rewrite elem_of_app, list_elem_of_singleton.
        - split; [by left |]. intros [? | ->]; [done |].
          apply Hlev. pose proof (Hcnt lv r Hr) as Hc.
          apply filter_length_pos. lia. }
      rewrite Hnew, Hlev. split.
      * intros [(lit' & Hin & Hat') | ->].
        -- exists lit'. split; [| done]. apply elem_of_app. by left.
        -- exists lit. split.
           ++ apply elem_of_app. right. by apply list_elem_of_singleton.
           ++ rewrite Hat. apply Is_true_true. lia.
      * intros (lit' & [Hin | ->%list_elem_of_singleton]%elem_of_app & Hat').
        -- left. by exists lit'.
        -- right. rewrite Hat in Hat'. apply Is_true_true in Hat'. lia.
    + intros l r' Hr1. rewrite Hctl' in Hr1.
      rewrite Hseen', filter_snoc_bool, length_app, Hat.
      case_bool_decide as Hl.
      * subst l. injection Hr1 as <-. simpl.
        rewrite (Hcnt lv r Hr). rewrite Z.eqb_refl. simpl. lia.
      * rewrite (Hcnt l r' Hr1).
        destruct (Z.eqb_spec lv l); [congruence |]. simpl. lia.
    + intros l r0 r' Hr0 Hr1. rewrite Hctl' in Hr1. rewrite Hseen'.
      case_bool_decide as Hl.
      * subst l. injection Hr1 as <-. simpl.
        destruct (Hmin lv r0 r Hr0 Hr) as (Hle & Hall & Hatt).
        set (m := if Var.trail v <? Level.trail r then Var.trail v
                  else Level.trail r).
        assert (Hm : m ≤ Var.trail v ∧ m ≤ Level.trail r ∧
                     (m = Var.trail v ∨ m = Level.trail r)).
        { unfold m. destruct (Z.ltb_spec (Var.trail v) (Level.trail r)); lia. }
        destruct Hm as (Hm1 & Hm2 & Hm3).
        split; [lia |]. split.
        -- intros lit' w [Hin | ->%list_elem_of_singleton]%elem_of_app Hw Hwl.
           ++ specialize (Hall lit' w Hin Hw Hwl). lia.
           ++ assert (Heq : w = v0) by congruence. subst w. lia.
        -- destruct Hm3 as [Hm3 | Hm3].
           ++ right. exists lit, v0. split.
              ** apply elem_of_app. right. by apply list_elem_of_singleton.
              ** split; [done |]. split; [done |]. lia.
           ++ destruct Hatt as [Hatt | (lit' & w & Hin & Hw & Hwl & Hwt)].
              ** left. lia.
              ** right. exists lit', w. split.
                 --- apply elem_of_app. by left.
                 --- split; [done |]. split; [done |]. lia.
      * destruct (Hmin l r0 r' Hr0 Hr1) as (Hle & Hall & Hatt).
        split; [done |]. split.
        -- intros lit' w [Hin | ->%list_elem_of_singleton]%elem_of_app Hw Hwl.
           ++ by eapply Hall.
           ++ assert (Heq : w = v0) by congruence. subst w. congruence.
        -- destruct Hatt as [Hatt | (lit' & w & Hin & Hw & Hwl & Hwt)];
             [by left |].
           right. exists lit', w. split; [| done]. apply elem_of_app. by left.
  - intros idx w Hw Hws. rewrite Hs'. simpl.
    destruct (decide (idx = vidx lit)) as [-> | Hne].
    + rewrite list_lookup_insert_eq by done. by eexists.
    + rewrite list_lookup_insert_ne by done. by exists w.
Qed.

Lemma analyze_literals_book (lits : list Z) :
  ∀ (open open' : Z) (s s' : Internal),
  analysis_frame s0 s → bookkeeping s0 s →
  (∀ lit, lit ∈ lits →
     (∃ p, trail s0 !! p = Some (- lit)) ∨
     (∃ v, var s lit = Some v ∧ Var.seen v = true)) →
  analyze_literals lits open s = Some (open', s') →
  analysis_frame s0 s' ∧ bookkeeping s0 s' ∧
  (∀ idx v, vtab s !! idx = Some v → Var.seen v = true →
     ∃ v', vtab s' !! idx = Some v' ∧ Var.seen v' = true).
Proof using Hcs.
  induction lits as [| lit lits IH]; intros open open' s s' Hf Hb Hlits Hrun.
  - simpl in Hrun. injection Hrun as <- <-. split; [done |]. split; [done |].
    intros idx v Hv Hs. by exists v.
  - simpl in Hrun.
    destruct (analyze_literal lit s) as [[b s1] |] eqn:Hone; [| done].
    simpl in Hrun.
    assert (H1 : analysis_frame s0 s1 ∧ bookkeeping s0 s1 ∧
              (∀ idx v, vtab s !! idx = Some v → Var.seen v = true →
                 ∃ v', vtab s1 !! idx = Some v' ∧ Var.seen v' = true)).
    { destruct (Hlits lit) as [[p Hp] | (v & Hv & Hs)]; [by left | |].
      - by eapply analyze_literal_book.
      - rewrite (analyze_literal_old s lit v Hv) in Hone by (by left).
        injection Hone as <- <-. split; [done |]. split; [done |].
        intros idx w Hw Hws. by exists w. }
    destruct H1 as (Hf1 & Hb1 & Hg1).
    destruct (IH (if b then open + 1 else open) open' s1 s' Hf1 Hb1)
      as (Hf' & Hb' & Hg'); [| exact Hrun |].
    { intros lit' Hin. destruct (Hlits lit') as [? | (v & Hv & Hs)];
        [by right | by left |].
      right. exact (Hg1 _ v Hv Hs). }
    split; [done |]. split; [done |].
    intros idx v Hv Hs. destruct (Hg1 idx v Hv Hs) as (v1 & Hv1 & Hs1).
    by eapply Hg'.
Qed.

Lemma resolve_loop_book (fuel : nat) :
  ∀ (r : nat) (open : Z) (i : nat) (s s' : Internal) (uip : Z),
  analysis_frame s0 s → bookkeeping s0 s →
  (∀ cl, deref s0 r = Some cl → ∀ lit, lit ∈ Clause.literals cl →
     (∃ p, trail s0 !! p = Some (- lit)) ∨
     (∃ v, var s lit = Some v ∧ Var.seen v = true)) →
  resolve_loop fuel (Some r) open i s = Some (uip, s') →
  analysis_frame s0 s' ∧ bookkeeping s0 s' ∧
  (∃ v, var s' uip = Some v ∧ Var.seen v = true) ∧
  ∃ j, trail s0 !! j = Some uip.
Proof using Hcs.
  induction fuel as [| fuel IH]; intros r open i s s' uip Hf Hb Hlits Hrun;
    [done |].
  simpl in Hrun.
  destruct (deref s r) as [cl |] eqn:Hcl; [| done]. simpl in Hrun.
  assert (Hcl0 : deref s0 r = Some cl).
  { unfold deref in *. by rewrite <- (af_clauses _ _ Hf). }
  destruct (analyze_literals (Clause.literals cl) open s)
    as [[open1 s1] |] eqn:Hlits1; [| done].
  simpl in Hrun.
  destruct (analyze_literals_book _ _ _ _ _ Hf Hb (Hlits cl Hcl0) Hlits1)
    as (Hf1 & Hb1 & _).
  destruct (previous_seen s1 i) as [[u j] |] eqn:Hprev; [| done].
  simpl in Hrun.
  destruct (previous_seen_found _ _ _ _ Hprev) as (Hj & w & Hw & Hws).
  destruct (open1 - 1 =? 0).
  { injection Hrun as <- <-. split; [done |]. split; [done |].
    split; [by exists w |]. exists j. by rewrite <- (af_trail _ _ Hf1). }
  rewrite Hw in Hrun. simpl in Hrun.
  destruct (Var.reason w) as [r' |] eqn:Hr'; [| by destruct fuel].
  apply (IH r' (open1 - 1) j s1 s' uip Hf1 Hb1); [| exact Hrun].
  intros cl' Hcl' lit Hlit.
  rewrite (af_trail _ _ Hf1) in Hj.
  destruct (var_frame_inv s0 s1 u w Hf1 Hw) as (w0 & Hw0 & Hww0).
  pose proof (cs_reason _ Hcs j u w0 Hj Hw0) as Hreason.
  assert (Hr0 : Var.reason w0 = Some r') by (by rewrite Hww0 in Hr').
  rewrite Hr0 in Hreason. destruct Hreason as (cl'' & Hcl'' & Hall).
  assert (Heq : cl'' = cl') by congruence. subst cl''.
  destruct (Hall lit Hlit) as [-> | (q & _ & Hq)].
  - right. by exists w.
  - left. by exists q.
Qed.

Lemma first_uip_clause_book (uip : Z) (s' : Internal) :
  clean s0 → first_uip_clause s0 = Some (uip, s') →
  ∃ s1, s' = set_clause (clause s1 ++ [- uip]) s1 ∧
    analysis_frame s0 s1 ∧ bookkeeping s0 s1 ∧
    (∃ v, var s1 uip = Some v ∧ Var.seen v = true) ∧
    ∃ j, trail s0 !! j = Some uip.
Proof using Hcs.
  intros Hclean Hrun. unfold first_uip_clause in Hrun.
  destruct (cs_conflict _ Hcs) as (c & cl & Hc & Hcl & Hfalse & _).
  rewrite Hc in Hrun. cbn [mbind option_bind] in Hrun.
  destruct (resolve_clause c s0) as [sr |] eqn:Hres; [| done].
  cbn [mbind option_bind] in Hrun.
  pose proof (resolve_clause_frame _ _ _ Hres) as Hsr.
  destruct (resolve_loop (S (length (trail sr))) (Some c) 0
              (length (trail sr)) sr) as [[u s1] |] eqn:Hloop; [| done].
  cbn [mbind option_bind] in Hrun. injection Hrun as <- <-.
  assert (Hf : analysis_frame s0 sr).
  { rewrite Hsr. split; simpl; try done. intros idx v0 Hv0.
    exists (Var.seen v0). by rewrite set_seen_id. }
  destruct (resolve_loop_book (S (length (trail sr))) c 0
              (length (trail sr)) sr s1 u Hf
              (clean_bookkeeping sr Hclean Hsr)) as (Hf1 & Hb1 & Hu & Hj);
    [| exact Hloop |].
  { intros cl' Hcl' lit Hlit. left.
    assert (Heq : cl' = cl) by congruence. subst cl'. by apply Hfalse. }
  by exists s1.
Qed.

(** The literal of [seen] that marks the first UIP is its negation. *)
Lemma uip_in_seen (s1 : Internal) (uip : Z) (j : nat) (w : Var.t) :
  analysis_frame s0 s1 → bookkeeping s0 s1 →
  trail s0 !! j = Some uip → var s1 uip = Some w → Var.seen w = true →
  (- uip) ∈ seen s1.
Proof using Hcs.
  intros Hf Hb Hj Hw Hws.
  apply (bk_marks _ _ Hb (vidx uip) w Hw) in Hws.
  apply list_elem_of_fmap in Hws as (lit & Hidx & Hin).
  destruct (bk_trail _ _ Hb lit Hin) as [p Hp].
  destruct (cs_trail _ Hcs p (- lit) Hp) as (_ & v1 & Hv1 & Ht1 & _).
  destruct (cs_trail _ Hcs j uip Hj) as (_ & v2 & Hv2 & Ht2 & _).
  rewrite var_opp in Hv1. unfold var in Hv1, Hv2. rewrite <- Hidx in Hv1.
  assert (Heq : v1 = v2) by congruence. subst v2.
  assert (Hpj : p = j) by lia. subst p.
  assert (Hu : uip = - lit) by congruence. rewrite Hu.
  by rewrite Z.opp_involutive.
Qed.

End Book.

Lemma sample_clean : clean Sample.at_level_3.
Proof.
  split; [done | done | |].
  - intros idx v Hv.
    destruct idx as [| [| [| [| [| [| idx]]]]]]; simpl in Hv; [.. | done];
      by injection Hv as <-.
  - intros l r Hr. apply control_at_Some in Hr as [_ Hr].
    destruct (Z.to_nat l) as [| [| [| [| n]]]]; simpl in Hr; [.. | done];
      by injection Hr as <-.
Qed.

(** X9: the glue of the learned clause.  After the first-UIP clause is
    derived from a conflict above the root level, in a state in which no
    analysis was under way, the vector [levels], whose size [analyze]
    takes as the glue, lists every decision level once, and a level is
    listed exactly when a literal of the learned clause was assigned at
    it. *)
Theorem glue_counts_levels (s : Internal) :
  conflict_state s → clean s →
  ∃ uip s', first_uip_clause s = Some (uip, s') ∧
    NoDup (levels s') ∧
    ∀ l, l ∈ levels s' ↔
         ∃ lit v, lit ∈ clause s' ∧ var s lit = Some v ∧ Var.level v = l.
Proof.
  intros Hcs Hclean.
  assert (Himp : implied_by [[]] s) by (by split).
  destruct (first_uip_clause_inv s Hcs [[]] Himp)
    as (uip & s' & buf & v & Hrun & _ & _ & _ & Hv & Hl & _).
  destruct (first_uip_clause_book s Hcs uip s' Hclean Hrun)
    as (s1 & Hs' & Hf1 & Hb1 & (w & Hw & Hws) & j & Hj).
  exists uip, s'. split; [done |].
  assert (Hlev : levels s' = levels s1) by (by rewrite Hs').
  assert (Hcl : clause s' =
            filter (λ lit, lower_level s lit) (seen s1) ++ [- uip]).
  { rewrite Hs'. simpl. by rewrite (bk_clause _ _ Hb1). }
  rewrite Hlev, Hcl. split; [apply (bk_levels_nodup _ _ Hb1) |].
  intros l. rewrite (bk_levels _ _ Hb1). split.
  - intros (lit & Hin & Hat). unfold at_level in Hat.
    destruct (var s lit) as [v0 |] eqn:Hv0; [| done].
    apply Is_true_true, Z.eqb_eq in Hat.
    destruct (bk_trail _ _ Hb1 lit Hin) as [p Hp].
    destruct (cs_trail _ Hcs p (- lit) Hp) as (_ & v1 & Hv1 & _ & Hle & _).
    rewrite var_opp in Hv1.
    assert (Heq : v1 = v0) by congruence. subst v1.
    destruct (decide (Var.level v0 < level s)) as [Hlt | Hge].
    + exists lit, v0. split; [| done]. apply elem_of_app. left.
      apply list_elem_of_filter. split; [| done].
      unfold lower_level. rewrite Hv0. apply Is_true_true. lia.
    + exists (- uip), v. split.
      * apply elem_of_app. right. by apply list_elem_of_singleton.
      * rewrite var_opp. split; [done |]. lia.
  - intros (lit & v0 & [Hin | ->%list_elem_of_singleton]%elem_of_app & Hv0 & Hl0).
    + apply list_elem_of_filter in Hin as [_ Hin]. exists lit.
      split; [done |]. unfold at_level. rewrite Hv0.
      apply Is_true_true. lia.
    + exists (- uip). split; [by eapply uip_in_seen |].
      unfold at_level. rewrite Hv0. apply Is_true_true. lia.
Qed.

(** The analysis of the sample conflict. *)
Lemma glue_counts_levels_witness :
  ∃ uip s', first_uip_clause Sample.at_level_3 = Some (uip, s') ∧
    NoDup (levels s') ∧
    ∀ l, l ∈ levels s' ↔
         ∃ lit v, lit ∈ clause s' ∧ var Sample.at_level_3 lit = Some v ∧
                  Var.level v = l.
Proof.
  apply (glue_counts_levels Sample.at_level_3).
  - apply sample_conflict_state.
  - apply sample_clean.
Defined.

(** X10: the vector [seen] after the first-UIP clause is derived, from
    a state in which no analysis was under way: it lists exactly the
    marked variables, each once, among them the first UIP by its
    negation; the learned clause is the part of [seen] assigned below the
    current level, in the order of [seen], followed by the negated UIP;
    and every literal of the learned clause is false on the trail. *)
Theorem seen_lists_marked (s : Internal) :
  conflict_state s → clean s →
  ∃ uip s', first_uip_clause s = Some (uip, s') ∧
    NoDup (vidx <$> seen s') ∧
    (∀ idx v, vtab s' !! idx = Some v →
       (Var.seen v = true ↔ idx ∈ vidx <$> seen s')) ∧
    (- uip) ∈ seen s' ∧
    clause s' = filter (λ lit, lower_level s lit) (seen s') ++ [- uip] ∧
    Forall (λ lit, ∃ p, trail s !! p = Some (- lit)) (seen s') ∧
    Forall (λ lit, ∃ p, trail s !! p = Some (- lit)) (clause s').
Proof.
  intros Hcs Hclean.
  assert (Himp : implied_by [[]] s) by (by split).
  destruct (first_uip_clause_inv s Hcs [[]] Himp)
    as (uip & s' & buf & v & Hrun & _).
  destruct (first_uip_clause_book s Hcs uip s' Hclean Hrun)
    as (s1 & Hs' & Hf1 & Hb1 & (w & Hw & Hws) & j & Hj).
  exists uip, s'. split; [done |].
  assert (Hseen : seen s' = seen s1) by (by rewrite Hs').
  assert (Hvt : vtab s' = vtab s1) by (by rewrite Hs').
  assert (Hcl : clause s' =
            filter (λ lit, lower_level s lit) (seen s1) ++ [- uip]).
  { rewrite Hs'. simpl. by rewrite (bk_clause _ _ Hb1). }
  pose proof (uip_in_seen s Hcs s1 uip j w Hf1 Hb1 Hj Hw Hws) as Huip.
  rewrite Hseen, Hvt, Hcl.
  split; [apply (bk_nodup _ _ Hb1) |].
  split; [apply (bk_marks _ _ Hb1) |].
  split; [done |]. split; [done |].
  assert (Hall : Forall (λ lit, ∃ p, trail s !! p = Some (- lit)) (seen s1)).
  { apply Forall_forall. apply (bk_trail _ _ Hb1). }
  split; [done |].
  apply Forall_app. split.
  - rewrite Forall_forall in Hall. apply Forall_forall.
    intros lit [_ Hin]%list_elem_of_filter. by apply Hall.
  - constructor; [| done]. exists j. by rewrite Z.opp_involutive.
Qed.

Lemma seen_lists_marked_witness :
  ∃ uip s', first_uip_clause Sample.at_level_3 = Some (uip, s') ∧
    NoDup (vidx <$> seen s') ∧
    (∀ idx v, vtab s' !! idx = Some v →
       (Var.seen v = true ↔ idx ∈ vidx <$> seen s')) ∧
    (- uip) ∈ seen s' ∧
    clause s' =
      filter (λ lit, lower_level Sample.at_level_3 lit) (seen s') ++ [- uip] ∧
    Forall (λ lit, ∃ p, trail Sample.at_level_3 !! p = Some (- lit))
      (seen s') ∧
    Forall (λ lit, ∃ p, trail Sample.at_level_3 !! p = Some (- lit))
      (clause s').
Proof.
  apply (seen_lists_marked Sample.at_level_3).
  - apply sample_conflict_state.
  - apply sample_clean.
Defined.

(** X11: the level records after the first-UIP clause is derived, from a
    state in which no analysis was under way: the record of a level counts
    the literals of [seen] assigned at that level, the level is in
    [levels] exactly when the count is not zero, and the trail position of
    the record is the smallest among its initial value and the positions
    of these literals. *)
Theorem level_records_count (s : Internal) :
  conflict_state s → clean s →
  ∃ uip s', first_uip_clause s = Some (uip, s') ∧
    ∀ l r0 r, control_at s l = Some r0 → control_at s' l = Some r →
      Level.seen r =
        Z.of_nat (length (filter (λ lit, at_level s l lit) (seen s'))) ∧
      (l ∈ levels s' ↔ Level.seen r ≠ 0) ∧
      Level.trail r ≤ Level.trail r0 ∧
      (∀ lit v, lit ∈ seen s' → var s lit = Some v → Var.level v = l →
         Level.trail r ≤ Var.trail v) ∧
      (Level.trail r = Level.trail r0 ∨
       ∃ lit v, lit ∈ seen s' ∧ var s lit = Some v ∧ Var.level v = l ∧
         Var.trail v = Level.trail r).
Proof.
  intros Hcs Hclean.
  assert (Himp : implied_by [[]] s) by (by split).
  destruct (first_uip_clause_inv s Hcs [[]] Himp)
    as (uip & s' & buf & v & Hrun & _).
  destruct (first_uip_clause_book s Hcs uip s' Hclean Hrun)
    as (s1 & Hs' & Hf1 & Hb1 & _).
  exists uip, s'. split; [done |].
  assert (Hseen : seen s' = seen s1) by (by rewrite Hs').
  assert (Hlev : levels s' = levels s1) by (by rewrite Hs').
  assert (Hctl : ∀ l, control_at s' l = control_at s1 l)
    by (by rewrite Hs').
  intros l r0 r Hr0 Hr. rewrite Hctl in Hr. rewrite Hseen, Hlev.
  pose proof (bk_count _ _ Hb1 l r Hr) as Hcnt.
  destruct (bk_min _ _ Hb1 l r0 r Hr0 Hr) as (Hle & Hall & Hatt).
  split; [done |]. split; [| done].
  rewrite (bk_levels _ _ Hb1), Hcnt, <- filter_length_pos. lia.
Qed.

Lemma level_records_count_witness :
  ∃ uip s', first_uip_clause Sample.at_level_3 = Some (uip, s') ∧
    ∀ l r0 r, control_at Sample.at_level_3 l = Some r0 →
      control_at s' l = Some r →
      Level.seen r =
        Z.of_nat (length (filter (λ lit, at_level Sample.at_level_3 l lit)
                            (seen s'))) ∧
      (l ∈ levels s' ↔ Level.seen r ≠ 0) ∧
      Level.trail r ≤ Level.trail r0 ∧
      (∀ lit v, lit ∈ seen s' → var Sample.at_level_3 lit = Some v →
         Var.level v = l → Level.trail r ≤ Var.trail v) ∧
      (Level.trail r = Level.trail r0 ∨
       ∃ lit v, lit ∈ seen s' ∧ var Sample.at_level_3 lit = Some v ∧
         Var.level v = l ∧ Var.trail v = Level.trail r).
Proof.
  apply (level_records_count Sample.at_level_3).
  - apply sample_conflict_state.
  - apply sample_clean.
Defined.

(** ** The learned clause names no variable twice *)

Lemma NoDup_fmap_filter {A B : Type} (f : A → B) (P : A → Prop)
    `{!∀ x, Decision (P x)} (l : list A) :
  NoDup (f <$> l) → NoDup (f <$> filter P l).
Proof.
  induction l as [| a l IH]; [done |]. rewrite fmap_cons.
  intros [Ha Hnd]%NoDup_cons. destruct (decide (P a)).
  - rewrite filter_cons_True, fmap_cons by done.
    apply NoDup_cons. split; [| by apply IH].
    intros (y & Hy & [_ Hin]%list_elem_of_filter)%list_elem_of_fmap.
    apply Ha. rewrite Hy. by apply list_elem_of_fmap_2.
  - rewrite filter_cons_False by done. by apply IH.
Qed.

Lemma NoDup_fmap_eq {A B : Type} (f : A → B) (l : list A) (x y : A) :
  NoDup (f <$> l) → x ∈ l → y ∈ l → f x = f y → x = y.
Proof.
  induction l as [| z l IH]; intros Hnd Hx Hy Hf; [by apply elem_of_nil in Hx |].
  rewrite fmap_cons in Hnd. apply NoDup_cons in Hnd as [Hz Hnd].
  apply elem_of_cons in Hx as [-> | Hx]; apply elem_of_cons in Hy as [-> | Hy].
  - done.
  - exfalso. apply Hz. rewrite Hf. by apply list_elem_of_fmap_2.
  - exfalso. apply Hz. rewrite <- Hf. by apply list_elem_of_fmap_2.
  - by apply IH.
Qed.

(** X13: the learned clause names no variable twice: the first-UIP
    clause derived from a conflict above the root level, starting with no
    analysis under way, has neither a repeated literal nor a literal
    together with its negation. *)
Theorem learned_clause_distinct (s : Internal) :
  conflict_state s → clean s →
  ∃ uip s', first_uip_clause s = Some (uip, s') ∧
    NoDup (vidx <$> clause s') ∧
    ∀ lit, lit ∈ clause s' → (- lit) ∉ clause s'.
Proof.
  intros Hcs Hclean.
  assert (Himp : implied_by [[]] s) by (by split).
  destruct (first_uip_clause_inv s Hcs [[]] Himp)
    as (uip & s' & buf & v & Hrun & _ & _ & Hne & Hv & Hl & _).
  destruct (first_uip_clause_book s Hcs uip s' Hclean Hrun)
    as (s1 & Hs' & Hf1 & Hb1 & (w & Hw & Hws) & j & Hj).
  exists uip, s'. split; [done |].
  pose proof (uip_in_seen s Hcs s1 uip j w Hf1 Hb1 Hj Hw Hws) as Huip.
  assert (Hcl : clause s' =
            filter (λ lit, lower_level s lit) (seen s1) ++ [- uip]).
  { rewrite Hs'. simpl. by rewrite (bk_clause _ _ Hb1). }
  assert (Hnd : NoDup (vidx <$> clause s')).
  { rewrite Hcl, fmap_app. apply NoDup_app.
    split; [apply NoDup_fmap_filter, (bk_nodup _ _ Hb1) |].
    split; [| apply NoDup_singleton].
    intros x Hx ->%list_elem_of_singleton.
    apply list_elem_of_fmap in Hx as (lit & Hidx & Hin).
    apply list_elem_of_filter in Hin as [Hlow Hin].
    assert (Heq : - uip = lit).
    { eapply (NoDup_fmap_eq vidx); [apply (bk_nodup _ _ Hb1) | done ..]. }
    subst lit. unfold lower_level in Hlow. rewrite var_opp, Hv in Hlow.
    apply Is_true_true in Hlow. lia. }
  split; [done |].
  intros lit Hlit Hopp.
  assert (Heq : lit = - lit).
  { eapply (NoDup_fmap_eq vidx); [exact Hnd | done | done |].
    by rewrite vidx_opp. }
  assert (H0 : lit = 0) by lia. subst lit.
  rewrite Hcl in Hlit.
  apply elem_of_app in Hlit as [Hlit | Hlit%list_elem_of_singleton]; [| lia].
  apply list_elem_of_filter in Hlit as [_ Hlit].
  destruct (bk_trail _ _ Hb1 0 Hlit) as [p Hp].
  by destruct (cs_trail _ Hcs p (- 0) Hp) as [? _].
Qed.

Lemma learned_clause_distinct_witness :
  ∃ uip s', first_uip_clause Sample.at_level_3 = Some (uip, s') ∧
    NoDup (vidx <$> clause s') ∧
    ∀ lit, lit ∈ clause s' → (- lit) ∉ clause s'.
Proof.
  apply (learned_clause_distinct Sample.at_level_3).
  - apply sample_conflict_state.
  - apply sample_clean.
Defined.

(** ** The state between two analyses *)

Lemma analysis_writes_refl (s : Internal) : analysis_writes s s.
Proof. by destruct s. Qed.

Lemma analysis_writes_trans (s1 s2 s3 : Internal) :
  analysis_writes s1 s2 → analysis_writes s2 s3 → analysis_writes s1 s3.
Proof.
  unfold analysis_writes. intros H12 H23. rewrite H23. rewrite H12 at 1.
  by destruct s1.
Qed.

Lemma analyze_literal_writes (lit : Z) (s s' : Internal) (b : bool) :
  analyze_literal lit s = Some (b, s') → analysis_writes s s'.
Proof.
  intros Hrun.
  destruct (analyze_literal_cases _ _ _ _ Hrun)
    as (v & Hv & [(_ & _ & ->) | (_ & _ & r & _ & _ & ->)]).
  - apply analysis_writes_refl.
  - by destruct s.
Qed.

Lemma analyze_literals_writes (lits : list Z) :
  ∀ (open open' : Z) (s s' : Internal),
  analyze_literals lits open s = Some (open', s') → analysis_writes s s'.
Proof.
  induction lits as [| lit lits IH]; intros open open' s s' Hrun;
    simpl in Hrun.
  - injection Hrun as <- <-. apply analysis_writes_refl.
  - destruct (analyze_literal lit s) as [[b s1] |] eqn:Hone; [| done].
    simpl in Hrun. eapply analysis_writes_trans.
    + by eapply analyze_literal_writes.
    + by eapply IH.
Qed.

Lemma resolve_loop_writes (fuel : nat) :
  ∀ (reason : option nat) (open : Z) (i : nat) (s s' : Internal) (uip : Z),
  resolve_loop fuel reason open i s = Some (uip, s') → analysis_writes s s'.
Proof.
  induction fuel as [| fuel IH]; intros reason open i s s' uip Hrun; [done |].
  simpl in Hrun. destruct reason as [r |]; [| done]. simpl in Hrun.
  destruct (deref s r) as [cl |]; [| done]. simpl in Hrun.
  destruct (analyze_literals (Clause.literals cl) open s)
    as [[open1 s1] |] eqn:Hlits; [| done].
  simpl in Hrun.
  pose proof (analyze_literals_writes _ _ _ _ _ Hlits) as H1.
  destruct (previous_seen s1 i) as [[u j] |]; [| done]. simpl in Hrun.
  destruct (open1 - 1 =? 0); [by injection Hrun as <- <- |].
  destruct (var s1 u) as [w |]; [| done]. simpl in Hrun.
  eapply analysis_writes_trans; [exact H1 |]. by eapply IH.
Qed.

(** The derivation of the first-UIP clause writes [resolved], in
    [resolve_clause], and the buffers, marks and level records. *)
Lemma first_uip_clause_writes (s s' : Internal) (uip : Z) :
  first_uip_clause s = Some (uip, s') →
  ∃ c sr, conflict s = Some c ∧ resolve_clause c s = Some sr ∧
    analysis_writes sr s'.
Proof.
  unfold first_uip_clause. intros Hrun.
  destruct (conflict s) as [c |]; [| done].
  cbn [mbind option_bind] in Hrun.
  destruct (resolve_clause c s) as [sr |] eqn:Hres; [| done].
  cbn [mbind option_bind] in Hrun.
  destruct (resolve_loop (S (length (trail sr))) (Some c) 0
              (length (trail sr)) sr) as [[u s1] |] eqn:Hloop; [| done].
  cbn [mbind option_bind] in Hrun. injection Hrun as <- <-.
  exists c, sr. split; [done |]. split; [done |].
  eapply analysis_writes_trans; [by eapply resolve_loop_writes |].
  by destruct s1.
Qed.

Lemma stamp_resolved_frame (cs : list nat) :
  ∀ s s' : Internal, stamp_resolved cs s = Some s' →
  s' = set_clauses (clauses s') (set_stats (stats s') s).
Proof.
  induction cs as [| c cs IH]; intros s s' Hrun; simpl in Hrun.
  - injection Hrun as <-. by destruct s.
  - destruct (deref s c) as [cl |]; [| done]. simpl in Hrun.
    rewrite (IH _ _ Hrun). by destruct s.
Qed.

(** [bump_resolved_clauses] writes the stamps of clauses, the counter
    and the vector [resolved] only. *)
Lemma bump_resolved_clauses_frame (s s' : Internal) :
  bump_resolved_clauses s = Some s' →
  s' = set_resolved [] (set_clauses (clauses s') (set_stats (stats s') s)).
Proof.
  unfold bump_resolved_clauses. intros Hrun.
  destruct (sort_by _ _ _) as [sorted |]; [| done]. simpl in Hrun.
  destruct (stamp_resolved sorted (set_resolved sorted s)) as [s1 |] eqn:Hst;
    [| done].
  simpl in Hrun. injection Hrun as <-.
  rewrite (stamp_resolved_frame _ _ _ Hst). by destruct s.
Qed.

Lemma leaves_analysis_refl (t : Internal) : leaves_analysis t t.
Proof.
  split; [done |]. split; [done |]. split; [done |]. split; [done |].
  split; [| by intros q Hq]. intros idx v Hv. by exists v.
Qed.

Lemma leaves_analysis_trans (t1 t2 t3 : Internal) :
  leaves_analysis t1 t2 → leaves_analysis t2 t3 → leaves_analysis t1 t3.
Proof.
  intros (Hs1 & Hl1 & Hc1 & Hn1 & Hm1 & Hq1) (Hs2 & Hl2 & Hc2 & Hn2 & Hm2 & Hq2).
  split; [congruence |]. split; [congruence |]. split; [congruence |].
  split; [congruence |]. split.
  - intros idx v Hv. destruct (Hm1 idx v Hv) as (v1 & Hv1 & Hsn1).
    destruct (Hm2 idx v1 Hv1) as (v2 & Hv2 & Hsn2).
    exists v2. split; [done |]. congruence.
  - intros q Hq. by apply Hq2, Hq1.
Qed.

(** A step that writes none of [seen], [levels], [control], [vtab],
    [queue], [max_var] and [vals]. *)
Lemma leaves_analysis_fields (t t' : Internal) :
  seen t' = seen t → levels t' = levels t → control t' = control t →
  vtab t' = vtab t → queue t' = queue t → max_var t' = max_var t →
  vals t' = vals t → leaves_analysis t t'.
Proof.
  intros Hs Hl Hc Hv Hq Hm Hvals.
  split; [done |]. split; [done |]. split; [done |].
  split; [by rewrite Hv |]. split.
  - intros idx v Hidx. exists v. by rewrite Hv.
  - intros q [Hnd Hf Hla Hlk Hdet Hr Hvt Hvl]. split.
    + done.
    + by rewrite Hq.
    + by rewrite Hq.
    + by rewrite Hv.
    + rewrite Hv. exact Hdet.
    + by rewrite Hm.
    + by rewrite Hm, Hv.
    + by rewrite Hm, Hvals.
Qed.

Lemma set_clause_leaves (c : list Z) (t : Internal) :
  leaves_analysis t (set_clause c t).
Proof. by apply leaves_analysis_fields. Qed.

Lemma count_learned_leaves (t : Internal) : leaves_analysis t (count_learned t).
Proof. by apply leaves_analysis_fields. Qed.

Lemma bump_resolved_clauses_leaves (t t' : Internal) :
  bump_resolved_clauses t = Some t' →
  leaves_analysis t t' ∧ clause t' = clause t.
Proof.
  intros Hrun. apply bump_resolved_clauses_frame in Hrun.
  split; [apply leaves_analysis_fields |]; by rewrite Hrun.
Qed.

(** The analysis part of [analyze], with what the rest of the function
    needs of it. *)
Lemma first_uip_clause_ready (s : Internal) (q : list nat) :
  conflict_state s → clean s → resolved s = [] → queue_repr s q →
  ∃ uip s1 sb, first_uip_clause s = Some (uip, s1) ∧
    s1 = set_clause (clause sb ++ [- uip]) sb ∧
    analysis_frame s sb ∧ bookkeeping s sb ∧ queue_repr sb q ∧
    NoDup (resolved sb) ∧ Forall (λ c, is_Some (deref sb c)) (resolved sb) ∧
    Forall (λ lit, is_Some (var sb lit)) (clause s1).
Proof.
  intros Hcs Hclean Hres Hq.
  assert (Himp : implied_by [[]] s) by (by split).
  destruct (first_uip_clause_inv s Hcs [[]] Himp)
    as (uip & s1 & buf & v & Hrun & Hf1 & Hcl1 & _ & Hv & _ & Hbuf & _).
  destruct (first_uip_clause_book s Hcs uip s1 Hclean Hrun)
    as (sb & Hs1 & Hfb & Hbk & _).
  destruct (first_uip_clause_writes _ _ _ Hrun) as (c & sr & Hc & Hsr & Hw).
  exists uip, s1, sb. split; [done |]. split; [done |]. split; [done |].
  split; [done |].
  assert (Hcl : ∃ cl, deref s c = Some cl).
  { destruct (cs_conflict _ Hcs) as (c' & cl & Hc' & Hcl & _).
    exists cl. congruence. }
  destruct Hcl as [cl Hcl].
  rewrite (resolve_clause_spec s c cl Hcl) in Hsr.
  assert (Hsame : queue sb = queue s ∧ max_var sb = max_var s ∧
                  vals sb = vals s ∧
                  (resolved sb = [] ∨ resolved sb = [c])).
  { assert (Hb1 : queue sb = queue s1 ∧ max_var sb = max_var s1 ∧
                  vals sb = vals s1 ∧ resolved sb = resolved s1)
      by (by rewrite Hs1).
    destruct Hb1 as (-> & -> & -> & ->). rewrite Hw. simpl.
    destruct (_ && _); injection Hsr as <-; simpl; rewrite ?Hres; auto. }
  destruct Hsame as (Hqs & Hmv & Hvals & Hresb).
  split.
  { eapply (queue_repr_frame s); try done.
    - by rewrite Hqs.
    - by rewrite Hqs.
    - by rewrite Hvals.
    - apply (af_vtab_length _ _ Hfb).
    - intros y w Hw0. destruct (af_vtab _ _ Hfb y w Hw0) as [b Hb].
      by eexists. }
  assert (Hderef : deref sb c = Some cl).
  { unfold deref in *. by rewrite (af_clauses _ _ Hfb). }
  split; [destruct Hresb as [-> | ->]; [constructor | apply NoDup_singleton] |].
  split.
  { destruct Hresb as [-> | ->]; [constructor |].
    constructor; [by eexists | constructor]. }
  rewrite Hcl1. apply Forall_app. split.
  - eapply Forall_impl; [exact Hbuf |]. intros lit (w & Hw0 & _). simpl.
    destruct (var_frame s sb lit w Hfb Hw0) as [b Hb]. by eexists.
  - constructor; [| constructor]. rewrite var_opp.
    destruct (var_frame s sb uip v Hfb Hv) as [b Hb]. by eexists.
Qed.

Lemma filter_notin_Permutation (xs q : list nat) :
  NoDup q → NoDup (filter (λ y, y ∉ xs) q ++ xs) →
  Forall (λ x, x ∈ q) xs → filter (λ y, y ∉ xs) q ++ xs ≡ₚ q.
Proof.
  intros Hq Hnd Hin. apply NoDup_Permutation; [done | done |].
  intros x. rewrite elem_of_app, list_elem_of_filter.
  rewrite Forall_forall in Hin.
  destruct (decide (x ∈ xs)) as [Hx | Hx]; split; auto;
    intros [[_ ?] | ?]; auto.
Qed.

Section AnalyzeClean.
Context (minimize_clause : Internal → Internal)
        (new_learned_clause : Z → Internal → nat * Internal)
        (backtrack : Z → Internal → Internal)
        (assign : Z → option nat → Internal → Internal)
        (Level_reset : Level.t → Level.t).

(** What is assumed of the collaborators: they leave the data of the
    running analysis alone; the minimizer only removes literals from the
    clause buffer and the clause database leaves the buffer as it is; a
    level record that is reset counts no literal. *)
Hypothesis minimize_clause_leaves : ∀ t,
  leaves_analysis t (minimize_clause t) ∧
  ∀ lit, lit ∈ clause (minimize_clause t) → lit ∈ clause t.
Hypothesis new_learned_clause_leaves : ∀ g t,
  leaves_analysis t (new_learned_clause g t).2 ∧
  clause (new_learned_clause g t).2 = clause t.
Hypothesis backtrack_leaves : ∀ j t, leaves_analysis t (backtrack j t).
Hypothesis assign_leaves : ∀ l r t, leaves_analysis t (assign l r t).
Hypothesis Level_reset_seen : ∀ r, Level.seen (Level_reset r) = 0.

(** Lines 246 to 260 of [analyze] return and leave the data of the
    analysis alone. *)
Lemma learn_and_backjump_leaves (uip glue : Z) (t : Internal) :
  Forall (λ lit, is_Some (var t lit)) (clause t) →
  ∃ t' ev,
    learn_and_backjump new_learned_clause backtrack assign uip glue t
    = Some (t', ev) ∧ leaves_analysis t t'.
Proof using new_learned_clause_leaves backtrack_leaves assign_leaves.
  intros Hvars. unfold learn_and_backjump, driving_clause_and_jump.
  cbv zeta.
  pose proof (count_learned_leaves t) as H1.
  assert (Hcl1 : clause (count_learned t) = clause t) by done.
  assert (Hvt1 : vtab (count_learned t) = vtab t) by done.
  generalize dependent (count_learned t). intros t1 H1 Hcl1 Hvt1.
  case_bool_decide as Hlen.
  - destruct (sort_by_is_Some Z.gtb (trail_greater_than t1) (clause t1))
      as [sorted Hsorted].
    { rewrite Hcl1. eapply Forall_impl; [exact Hvars |].
      intros lit [w Hw]. simpl. unfold trail_greater_than, var.
      rewrite Hvt1. unfold var in Hw. rewrite Hw. by eexists. }
    rewrite Hsorted. cbn [mbind option_bind].
    pose proof (sort_by_Permutation _ _ _ _ Hsorted) as Hperm.
    pose proof (set_clause_leaves sorted t1) as H2.
    assert (Hcl2 : clause (set_clause sorted t1) = sorted) by done.
    generalize dependent (set_clause sorted t1). intros t2 H2 Hcl2.
    destruct (new_learned_clause_leaves glue t2) as [H3 Hcl3].
    destruct (new_learned_clause glue t2) as [c t3]. simpl in H3, Hcl3.
    destruct (lookup_lt_is_Some_2 sorted 1) as [lit Hlit].
    { rewrite Hperm. lia. }
    rewrite Hcl3, Hcl2, Hlit. cbn [mbind option_bind].
    assert (H13 : leaves_analysis t t3).
    { eapply leaves_analysis_trans; [exact H1 |].
      eapply leaves_analysis_trans; [exact H2 | exact H3]. }
    destruct (lookup_lt_is_Some_2 (vtab t3) (vidx lit)) as [w Hw].
    { destruct H13 as (_ & _ & _ & -> & _).
      apply lookup_lt_is_Some_1. rewrite Forall_forall in Hvars.
      apply Hvars. rewrite <- Hcl1, <- Hperm.
      by eapply list_elem_of_lookup_2. }
    unfold var at 1. rewrite Hw. cbn [mbind option_bind].
    eexists _, _. split; [reflexivity |].
    eapply leaves_analysis_trans; [exact H13 |].
    eapply leaves_analysis_trans; [apply backtrack_leaves |].
    apply assign_leaves.
  - cbn [mbind option_bind]. eexists _, _. split; [reflexivity |].
    eapply leaves_analysis_trans; [exact H1 |].
    eapply leaves_analysis_trans; [apply backtrack_leaves |].
    apply assign_leaves.
Qed.

(** The clean-up at the end of [analyze]. *)
Lemma cleanup_spec (s sb t : Internal) (q : list nat) :
  conflict_state s → analysis_frame s sb → bookkeeping s sb →
  queue_repr sb q → (∀ p u, trail s !! p = Some u → vidx u ∈ q) →
  leaves_analysis sb t →
  ∃ t1 t2 q', bump_and_clear_seen_variables t = Some t1 ∧
    clear_levels Level_reset (set_clause [] t1) = Some t2 ∧
    clean t2 ∧ clause t2 = [] ∧ q' ≡ₚ q ∧ queue_repr t2 q'.
Proof using Level_reset_seen.
  intros Hcs Hfb Hbk Hq Htrq (Hseen & Hlevels & Hctl & Hlen & Hmarks & Hqt).
  assert (Hinq : Forall (λ lit, vidx lit ∈ q) (seen sb)).
  { apply Forall_forall. intros lit Hin.
    destruct (bk_trail _ _ Hbk lit Hin) as [p Hp].
    rewrite <- (vidx_opp lit). by eapply Htrq. }
  destruct (bump_and_clear_spec t q) as
    (t1 & l & _ & Hperm & Hrun & Hseen1 & Hq1 & Hmarks1 & Hunt & Hlen1).
  { by apply Hqt. }
  { rewrite Hseen. apply (bk_nodup _ _ Hbk). }
  { by rewrite Hseen. }
  assert (Hsame1 : levels t1 = levels sb ∧ control t1 = control sb).
  { unfold untouched in Hunt. rewrite Hunt. simpl. done. }
  destruct Hsame1 as [Hlev1 Hctl1].
  set (t1' := set_clause [] t1).
  destruct (reset_levels_spec Level_reset (levels t1') t1') as [Hsome Heff].
  assert (Hrange : Forall (λ l, 0 ≤ l < Z.of_nat (length (control t1')))
                     (levels t1')).
  { unfold t1'. simpl. rewrite Hlev1, Hctl1. apply Forall_forall.
    intros lv Hlv. apply (bk_levels _ _ Hbk) in Hlv as (lit & Hin & Hat).
    unfold at_level in Hat. destruct (var s lit) as [v0 |] eqn:Hv0; [| done].
    apply Is_true_true, Z.eqb_eq in Hat.
    destruct (bk_trail _ _ Hbk lit Hin) as [p Hp].
    destruct (cs_trail _ Hcs p (- lit) Hp) as (_ & v1 & Hv1 & _ & Hle & _).
    rewrite var_opp in Hv1.
    assert (Heq : v1 = v0) by congruence. subst v1.
    destruct (cs_control _ Hcs lv) as [r Hr]; [lia |].
    apply control_at_Some in Hr as [_ Hr]. apply lookup_lt_Some in Hr.
    rewrite (af_control _ _ Hfb). lia. }
  apply Hsome in Hrange as [t2' Hrun2].
  destruct (Heff t2' Hrun2) as (Hlen2 & Ht2' & Hout & Hin2).
  exists t1, (set_levels [] t2'), (filter (λ y, y ∉ vidx <$> l) q ++ (vidx <$> l)).
  split; [done |]. split.
  { unfold clear_levels. fold t1'. by rewrite Hrun2. }
  assert (Hvt2 : vtab t2' = vtab t1) by (by rewrite Ht2').
  split; [| split; [| split]].
  - split; simpl.
    + rewrite Ht2'. simpl. done.
    + done.
    + intros idx v2. rewrite Hvt2. intros Hv2.
      destruct (lookup_lt_is_Some_2 (vtab sb) idx) as [vb Hvb].
      { apply lookup_lt_Some in Hv2. lia. }
      destruct (Hmarks idx vb Hvb) as (vt & Hvt & Hst).
      destruct (Hmarks1 idx vt Hvt) as (w1 & Hw1 & _ & _ & _ & Hs1).
      assert (Heq : w1 = v2) by congruence. subst w1. rewrite Hs1.
      case_bool_decide as Hidx; [done |]. rewrite Hst.
      rewrite Hseen in Hidx. destruct (Var.seen vb) eqn:Hsb; [| done].
      exfalso. apply Hidx. by apply (bk_marks _ _ Hbk idx vb Hvb).
    + intros lv r Hr.
      assert (Hr' : control_at t2' lv = Some r) by done.
      destruct (decide (lv ∈ levels sb)) as [Hlv | Hlv].
      * assert (Hr1 : is_Some (control_at t1' lv)).
        { apply control_at_Some in Hr' as [H0 Hr'].
          apply lookup_lt_Some in Hr'. rewrite Hlen2 in Hr'.
          destruct (lookup_lt_is_Some_2 _ _ Hr') as [r1 Hr1].
          exists r1. by apply control_at_Some. }
        destruct Hr1 as [r1 Hr1].
        rewrite (Hin2 ltac:(unfold t1'; simpl; rewrite Hlev1;
                            apply (bk_levels_nodup _ _ Hbk)) lv r1) in Hr'.
        -- injection Hr' as <-. apply Level_reset_seen.
        -- unfold t1'. simpl. by rewrite Hlev1.
        -- done.
      * rewrite Hout in Hr' by (unfold t1'; simpl; by rewrite Hlev1).
        assert (Hrb : control_at sb lv = Some r).
        { unfold control_at in *. unfold t1' in Hr'. simpl in Hr'.
          by rewrite <- Hctl1. }
        rewrite (bk_count _ _ Hbk lv r Hrb).
        destruct (filter (λ lit, at_level s lv lit) (seen sb))
          as [| lit fl] eqn:Hfl; [done |].
        exfalso. apply Hlv. apply (bk_levels _ _ Hbk).
        assert (Hlit : lit ∈ lit :: fl) by (by left). rewrite <- Hfl in Hlit.
        apply list_elem_of_filter in Hlit as [? ?]. by exists lit.
  - rewrite Ht2'. done.
  - apply filter_notin_Permutation.
    + apply (qr_nodup _ _ Hq).
    + apply (qr_nodup _ _ Hq1).
    + rewrite <- Hseen, <- Hperm in Hinq. by rewrite Forall_fmap.
  - eapply (queue_repr_frame t1); try done.
    + by rewrite Ht2'.
    + by rewrite Ht2'.
    + by rewrite Ht2'.
    + by rewrite Ht2'.
    + simpl. by rewrite Hvt2.
    + intros y w Hw. exists w. simpl. by rewrite Hvt2.
Qed.

Local Abbreviation run :=
  (analyze minimize_clause new_learned_clause backtrack assign Level_reset).

(** X12: [analyze] leaves the state as it needs it.  When a conflict
    above the root level is analyzed in a state in which no analysis is
    under way and the queue links the variables of the trail, and the
    collaborators leave the data of the analysis alone, [analyze] returns
    and again no analysis is under way: [seen], [levels] and the clause
    buffer are empty, no variable is marked, no level record counts a
    literal, the conflict is taken back, and the queue links the same
    variables. *)
Theorem analyze_keeps_clean (s : Internal) (q : list nat) :
  conflict_state s → clean s → resolved s = [] → queue_repr s q →
  (∀ p u, trail s !! p = Some u → vidx u ∈ q) →
  ∃ s' ev q', run s = Some (s', ev) ∧ clean s' ∧ clause s' = [] ∧
    conflict s' = None ∧ q' ≡ₚ q ∧ queue_repr s' q'.
Proof using minimize_clause_leaves new_learned_clause_leaves backtrack_leaves
  assign_leaves Level_reset_seen.
  intros Hcs Hclean Hres Hq Htrq. unfold analyze.
  destruct (Z.eqb_spec (level s) 0) as [H0 | _].
  { pose proof (cs_level _ Hcs). lia. }
  destruct (first_uip_clause_ready s q Hcs Hclean Hres Hq)
    as (uip & s1 & sb & Hrun & Hs1 & Hfb & Hbk & Hqb & Hnd & Hder & Hvars).
  rewrite Hrun. cbn [mbind option_bind].
  assert (H1 : leaves_analysis sb s1).
  { rewrite Hs1. apply set_clause_leaves. }
  destruct (bump_resolved_clauses_stamps s1) as (s2 & _ & Hrun2 & _).
  { by rewrite Hs1. }
  { by rewrite Hs1. }
  rewrite Hrun2. cbn [mbind option_bind].
  destruct (bump_resolved_clauses_leaves _ _ Hrun2) as [H2 Hcl2].
  set (glue := Z.of_nat (length (levels s2))).
  set (s3 := if Opts.minimize (opts s2) then minimize_clause s2 else s2).
  assert (H3 : leaves_analysis s2 s3 ∧ ∀ lit, lit ∈ clause s3 → lit ∈ clause s2).
  { unfold s3. destruct (Opts.minimize (opts s2)).
    - apply minimize_clause_leaves.
    - split; [apply leaves_analysis_refl | done]. }
  destruct H3 as [H3 Hcl3].
  assert (H13 : leaves_analysis sb s3).
  { eapply leaves_analysis_trans; [exact H1 |].
    eapply leaves_analysis_trans; [exact H2 | exact H3]. }
  destruct (learn_and_backjump_leaves uip glue s3) as (s5 & ev3 & Hrun5 & H5).
  { apply Forall_forall. intros lit Hlit. apply Hcl3 in Hlit.
    rewrite Hcl2 in Hlit. rewrite Forall_forall in Hvars.
    destruct (Hvars lit Hlit) as [w Hw]. apply lookup_lt_is_Some_2.
    destruct H13 as (_ & _ & _ & -> & _). by eapply lookup_lt_Some. }
  destruct (cleanup_spec s sb s5 q Hcs Hfb Hbk Hqb Htrq)
    as (t1 & t2 & q' & Hrun6 & Hrun7 & Hclean' & Hclause & Hperm & Hq').
  { by eapply leaves_analysis_trans. }
  assert (Hgoal : ∃ ev,
    (let '(s, ev2) :=
       if Opts.minimize (opts s2)
       then (minimize_clause s2, [call_minimize_clause]) else (s2, []) in
     '(s, ev3) ← learn_and_backjump new_learned_clause backtrack assign
                   uip glue s;
     s ← bump_and_clear_seen_variables s;
     s ← clear_levels Level_reset (set_clause [] s);
     Some (set_conflict None s,
           [update_avg fast_glue_avg glue; update_avg slow_glue_avg glue] ++
           ev2 ++ ev3)) = Some (set_conflict None t2, ev)).
  { unfold s3 in Hrun5. destruct (Opts.minimize (opts s2));
      rewrite Hrun5; cbn [mbind option_bind]; rewrite Hrun6;
      cbn [mbind option_bind]; rewrite Hrun7; by eexists. }
  destruct Hgoal as [ev Hgoal].
  exists (set_conflict None t2), ev, q'. split; [exact Hgoal |].
  split.
  { destruct Hclean' as [? ? ? ?]. by split. }
  split; [done |]. split; [done |]. split; [done |].
  eapply (queue_repr_frame t2); try done. intros y w Hw. by exists w.
Qed.

End AnalyzeClean.

(** The analysis of the sample conflict with the stand-ins for the
    collaborators. *)
Lemma analyze_keeps_clean_witness :
  ∃ s' ev q',
    analyze Sample.no_minimize Sample.register_learned Sample.no_backtrack
      Sample.no_assign Sample.reset_level Sample.at_level_3 = Some (s', ev) ∧
    clean s' ∧ clause s' = [] ∧ conflict s' = None ∧
    q' ≡ₚ [1; 2; 3; 4; 5]%nat ∧ queue_repr s' q'.
Proof.
  apply (analyze_keeps_clean Sample.no_minimize Sample.register_learned
           Sample.no_backtrack Sample.no_assign Sample.reset_level).
  - intros t. split; [apply leaves_analysis_refl | done].
  - intros g t. split; [by apply leaves_analysis_fields | done].
  - intros j t. apply leaves_analysis_refl.
  - intros l r t. apply leaves_analysis_refl.
  - done.
  - apply sample_conflict_state.
  - apply sample_clean.
  - done.
  - apply sample_queue; auto.
  - intros p u Hu.
    destruct p as [| [| [| [| [| p]]]]]; simpl in Hu; [.. | done];
      injection Hu as <-; by apply (bool_decide_unpack _).
Defined.

(** ** What bumping leaves alone, and the order it keeps *)

(** X14: bumping never touches the assignment.  Whatever variables are
    bumped, and whether or not scores are rescaled on the way, a sequence
    of calls of [bump_variable] that returns has written nothing but
    [vtab], [queue], [scinc] and [stats], the table has kept its length,
    and every variable has the level, trail position, reason and mark it
    had. *)
Theorem bump_variables_frame (xs : list nat) :
  ∀ s s' : Internal, bump_variables xs s = Some s' →
  untouched s s' ∧ same_assignment (vtab s) (vtab s').
Proof.
  induction xs as [| x xs IH]; intros s s' Hrun; simpl in Hrun.
  - injection Hrun as <-. apply bump_frame_refl.
  - destruct (bump_variable x s) as [s1 |] eqn:Hone; [| done].
    simpl in Hrun. apply (bump_frame_trans s s1 s').
    + by apply (bump_variable_frame x).
    + by apply IH.
Qed.

(** Bumping variables 2, 5 and 3 of the sample queue. *)
Lemma bump_variables_frame_witness :
  ∃ s', bump_variables [2; 5; 3]%nat Sample.at_root = Some s' ∧
    untouched Sample.at_root s' ∧
    same_assignment (vtab Sample.at_root) (vtab s').
Proof.
  destruct (bump_variables [2; 5; 3]%nat Sample.at_root) as [s' |] eqn:Hrun;
    [| by vm_compute in Hrun].
  exists s'. split; [done |].
  by apply (bump_variables_frame [2; 5; 3]%nat).
Defined.

(** [sort_seen] with the comparator [bumped_earlier]. *)
Lemma sort_seen_bumped (s : Internal) :
  Opts.bumpsort (opts s) = 1 →
  Forall (λ lit, is_Some (var s lit)) (seen s) →
  ∃ l, sort_seen s = Some (set_seen l s) ∧ l ≡ₚ seen s ∧
    StronglySorted (λ a b, ∃ u v, var s a = Some u ∧ var s b = Some v ∧
                             Var.bumped u ≤ Var.bumped v) l.
Proof.
  intros Hopt Hall. unfold sort_seen. rewrite Hopt. simpl.
  destruct (sort_by_is_Some Z.ltb (bumped_earlier s) (seen s)) as [l Hl].
  { eapply Forall_impl; [exact Hall |]. intros lit [v Hv].
    unfold bumped_earlier. rewrite Hv. by eexists. }
  rewrite Hl. exists l. split; [done |].
  split; [by eapply sort_by_Permutation |].
  eapply StronglySorted_impl;
    [| eapply (sort_by_StronglySorted Z.ltb); [| | exact Hl]].
  - intros a b _ _ (ka & kb & Ha & Hb & Hk). unfold bumped_earlier in *.
    destruct (var s a) as [u |]; [| done].
    destruct (var s b) as [v |]; [| done].
    simpl in *. injection Ha as <-. injection Hb as <-.
    exists u, v. repeat split. lia.
  - intros a b. lia.
  - intros a b c. lia.
Qed.

(** X15: with the comparator [bumped_earlier] (option [bumpsort] 1) the
    bumped variables keep their order.  When the queue is ordered by the
    stamps [bumped] and the literals of [seen] belong to distinct
    variables of the queue, [bump_and_clear_seen_variables] partitions the
    queue stably: the variables not in [seen] come first, those in [seen]
    after them, and both groups are in the order they had. *)
Theorem bump_sorted_keeps_order (s : Internal) (q : list nat) :
  Opts.bumpsort (opts s) = 1 →
  queue_repr s q → stamp_ordered s q → NoDup (vidx <$> seen s) →
  Forall (λ lit, vidx lit ∈ q) (seen s) →
  ∃ s', bump_and_clear_seen_variables s = Some s' ∧
    queue_repr s' (filter (λ y, y ∉ vidx <$> seen s) q ++
                   filter (λ y, y ∈ vidx <$> seen s) q).
Proof.
  intros Hopt Hq [_ Hsorted] Hnd Hin.
  destruct (bump_and_clear_spec s q Hq Hnd Hin)
    as (s' & l & Hsort & Hperm & Hrun & _ & Hq' & _).
  exists s'. split; [done |].
  destruct (sort_seen_bumped s Hopt) as (l' & Hsort' & _ & Hl').
  { eapply Forall_impl; [exact Hin |]. intros lit Hlit. simpl.
    apply lookup_lt_is_Some_2.
    pose proof (qr_vtab _ _ Hq). pose proof (qr_range _ _ Hq _ Hlit). lia. }
  assert (Heq : l' = l).
  { rewrite Hsort in Hsort'. by injection Hsort' as Hs. }
  subst l'.
  assert (Hmem : ∀ y, y ∈ vidx <$> l ↔ y ∈ vidx <$> seen s)
    by (intros y; by rewrite Hperm).
  rewrite (list_filter_iff (λ y, y ∉ vidx <$> seen s)
             (λ y, y ∉ vidx <$> l)) by (intros y; by rewrite Hmem).
  rewrite (list_filter_iff (λ y, y ∈ vidx <$> seen s)
             (λ y, y ∈ vidx <$> l)) by (intros y; by rewrite Hmem).
  assert (Hndl : NoDup (vidx <$> l)) by (by rewrite Hperm).
  assert (Hinl : ∀ y, y ∈ vidx <$> l → y ∈ q).
  { intros y (lit & -> & Hlit)%list_elem_of_fmap.
    rewrite Forall_forall in Hin. apply Hin. by rewrite <- Hperm. }
  set (R := λ a b : nat, ∃ va vb, vtab s !! a = Some va ∧
              vtab s !! b = Some vb ∧ Var.bumped va < Var.bumped vb) in *.
  assert (Hdistinct : ∀ a b va vb, a ∈ q → b ∈ q → a ≠ b →
            vtab s !! a = Some va → vtab s !! b = Some vb →
            Var.bumped va ≠ Var.bumped vb).
  { intros a b va vb Ha Hb Hab Hva Hvb.
    apply list_elem_of_lookup_1 in Ha as [i Hi].
    apply list_elem_of_lookup_1 in Hb as [j Hj].
    destruct (lt_eq_lt_dec i j) as [[Hij | ->] | Hji]; [| congruence |].
    - destruct (StronglySorted_lookup_le _ _ _ _ _ _ Hsorted Hij Hi Hj)
        as (xa & xb & Hxa & Hxb & Hlt).
      assert (Heq : xa = va) by congruence. subst xa.
      assert (Heq : xb = vb) by congruence. subst xb. lia.
    - destruct (StronglySorted_lookup_le _ _ _ _ _ _ Hsorted Hji Hj Hi)
        as (xb & xa & Hxb & Hxa & Hlt).
      assert (Heq : xa = va) by congruence. subst xa.
      assert (Heq : xb = vb) by congruence. subst xb. lia. }
  assert (Heq : vidx <$> l = filter (λ y, y ∈ vidx <$> l) q).
  { apply (StronglySorted_unique_strong R).
    - intros a b _ _ (va & vb & Hva & Hvb & Hlt) (vb' & va' & Hvb' & Hva' & Hlt').
      assert (Heq : va' = va) by congruence. subst va'.
      assert (Heq : vb' = vb) by congruence. subst vb'. lia.
    - apply (StronglySorted_impl (λ a b, (∃ va vb, vtab s !! a = Some va ∧
                 vtab s !! b = Some vb ∧ Var.bumped va ≤ Var.bumped vb) ∧
                 a ≠ b)).
      + intros a b Ha Hb [(va & vb & Hva & Hvb & Hle) Hab].
        exists va, vb. split; [done |]. split; [done |].
        pose proof (Hdistinct a b va vb (Hinl a Ha) (Hinl b Hb) Hab Hva Hvb).
        lia.
      + apply StronglySorted_NoDup_ne; [done |].
        eapply StronglySorted_fmap; [| exact Hl'].
        intros x y Hxy. exact Hxy.
    - by apply StronglySorted_filter_nat.
    - apply NoDup_Permutation; [done | by apply NoDup_filter, (qr_nodup _ _ Hq) |].
      intros y. rewrite list_elem_of_filter. split; [| by intros [? _]].
      intros Hy. split; [done | by apply Hinl]. }
  by rewrite <- Heq.
Qed.

Lemma sample_sorting_queue : queue_repr Sample_sorting [1; 2; 3; 4; 5]%nat.
Proof.
  eapply (queue_repr_frame Sample_stamped); try done.
  - apply sample_stamped_queue.
  - intros y w Hw. by exists w.
Qed.

(** The variables 4, 2 and 3 bumped in the stamped sample state. *)
Lemma bump_sorted_keeps_order_witness :
  ∃ s', bump_and_clear_seen_variables Sample_sorting = Some s' ∧
    queue_repr s' [1; 5; 2; 3; 4]%nat.
Proof.
  destruct (bump_sorted_keeps_order Sample_sorting [1; 2; 3; 4; 5]%nat)
    as (s' & Hrun & Hq).
  - done.
  - apply sample_sorting_queue.
  - apply sample_stamped_ordered.
  - by apply (bool_decide_unpack _).
  - repeat constructor; by apply (bool_decide_unpack _).
  - exists s'. split; [done |]. exact Hq.
Defined.

(** ** The clause that is stamped *)

(** X16: the clause [analyze] stamps.  When a conflict above the root
    level is analyzed with the vector [resolved] empty, the derivation of
    the first-UIP clause followed by [bump_resolved_clauses] changes the
    stamp of at most one clause, the conflicting one: it gets
    [stats.resolved + 1], and the counter advances by one, exactly when it
    is redundant, longer than [keepsize] and of higher glue than
    [keepglue]; no other clause and, otherwise, no clause and no counter
    changes, and [resolved] is empty again. *)
Theorem conflict_clause_stamped (s : Internal) :
  conflict_state s → resolved s = [] →
  ∃ uip s1 s2 c cl,
    first_uip_clause s = Some (uip, s1) ∧
    bump_resolved_clauses s1 = Some s2 ∧
    conflict s = Some c ∧ deref s c = Some cl ∧ resolved s2 = [] ∧
    (∀ c', c' ≠ c → deref s2 c' = deref s c') ∧
    (if Clause.redundant cl && (Opts.keepsize (opts s) <? Clause.size cl)
        && (Opts.keepglue (opts s) <? Clause.glue cl)
     then deref s2 c =
            Some (Clause.set_resolved (Stats.resolved (stats s) + 1) cl) ∧
          Stats.resolved (stats s2) = Stats.resolved (stats s) + 1
     else deref s2 c = Some cl ∧
          Stats.resolved (stats s2) = Stats.resolved (stats s)).
Proof.
  intros Hcs Hres.
  assert (Himp : implied_by [[]] s) by (by split).
  destruct (first_uip_clause_inv s Hcs [[]] Himp)
    as (uip & s1 & buf & v & Hrun & _).
  destruct (first_uip_clause_writes _ _ _ Hrun) as (c & sr & Hc & Hsr & Hw).
  assert (Hcl : ∃ cl, deref s c = Some cl).
  { destruct (cs_conflict _ Hcs) as (c' & cl & Hc' & Hcl & _).
    exists cl. congruence. }
  destruct Hcl as [cl Hcl].
  rewrite (resolve_clause_spec s c cl Hcl) in Hsr. rewrite Hres in Hsr.
  set (cond := Clause.redundant cl && (Opts.keepsize (opts s) <? Clause.size cl)
               && (Opts.keepglue (opts s) <? Clause.glue cl)) in *.
  assert (Hsame : clauses s1 = clauses s ∧ stats s1 = stats s ∧
                  resolved s1 = if cond then [c] else []).
  { unfold analysis_writes in Hw. rewrite Hw. simpl.
    destruct cond; by injection Hsr as <-. }
  destruct Hsame as (Hcls & Hst & Hres1).
  assert (Hd : ∀ c', deref s1 c' = deref s c').
  { intros c'. unfold deref. by rewrite Hcls. }
  destruct (bump_resolved_clauses_stamps s1)
    as (s2 & sorted & Hrun2 & Hperm & _ & Hres2 & Hst2 & Hstamp & Hrest).
  { rewrite Hres1. destruct cond; [apply NoDup_singleton | constructor]. }
  { rewrite Hres1. destruct cond; [| constructor].
    constructor; [| constructor]. rewrite Hd. by eexists. }
  exists uip, s1, s2, c, cl.
  split; [done |]. split; [done |]. split; [done |]. split; [done |].
  split; [done |]. rewrite Hres1 in *. rewrite Hst in *. split.
  - intros c' Hne. rewrite Hrest, Hd; [done |].
    destruct cond; [| apply not_elem_of_nil].
    by intros ->%list_elem_of_singleton.
  - fold cond. destruct cond.
    + apply Permutation_singleton_r in Hperm. subst sorted.
      destruct (Hstamp 0%nat c eq_refl) as (cl' & Hcl' & Hs2).
      rewrite Hd in Hcl'. assert (Heq : cl' = cl) by congruence. subst cl'.
      split; [| simpl in Hst2; lia]. rewrite Hs2. f_equal. f_equal. lia.
    + split; [| simpl in Hst2; lia].
      rewrite Hrest, Hd; [done |]. apply not_elem_of_nil.
Qed.

(** The sample conflict: the conflicting clause is not redundant. *)
Lemma conflict_clause_stamped_witness :
  ∃ uip s1 s2,
    first_uip_clause Sample.at_level_3 = Some (uip, s1) ∧
    bump_resolved_clauses s1 = Some s2 ∧
    (∀ c', deref s2 c' = deref Sample.at_level_3 c') ∧
    Stats.resolved (stats s2) = 0.
Proof.
  destruct (conflict_clause_stamped Sample.at_level_3)
    as (uip & s1 & s2 & c & cl & Hrun & Hrun2 & Hc & Hcl & _ & Hoth & Hthis).
  - apply sample_conflict_state.
  - done.
  - exists uip, s1, s2. split; [done |]. split; [done |].
    injection Hc as <-. injection Hcl as <-. simpl in Hthis.
    destruct Hthis as [H0 Hst]. split; [| done].
    intros c'. destruct (decide (c' = 0%nat)) as [-> | Hne];
      [done | by apply Hoth].
Defined.
